(** * bulklog: the redis buffer (engine/redis.buffer.go,
      engine/redis.pipe.iteration.go) and the document constructor
      (pkg/collection/document.go), embedded in Rocq.

    Go values are modelled as follows.
    - [string] and [error] texts are [string]s, [[]byte] is [list byte];
    - [time.Time] is the instant in nanoseconds ([Z]), [time.Duration] is [Z];
    - a function returning [(T, error)] returns a [result T];
    - the redis server is a finite map from keys to values; a command issued
      on the transaction handle of [Watch] is one round trip that either
      fails on the wire or runs on the map, a command issued on a pipeline
      is queued and not sent;
    - the clock ([time.Now]) and the random source ([uuid.New]) are read by
      the caller and passed in, one argument per call site. *)

From Stdlib Require Import ZArith String Ascii List Lia Bool.
From Stdlib Require Import Strings.Byte DecimalString DecimalZ Sorting.Sorted.
From stdpp Require Import gmap strings list.

#[local] Set Warnings "-register-all".

Local Open Scope string_scope.
Local Open Scope list_scope.
Local Open Scope Z_scope.

(** ** Errors and results *)

Definition error := string.

Inductive result (A : Type) : Type :=
| Ok (a : A)
| Err (e : error).
Arguments Ok {A} a.
Arguments Err {A} e.

Definition is_Ok {A} (r : result A) : bool :=
  match r with Ok _ => true | Err _ => false end.

(** State and error monad. The state survives a failure: the commands of
    the redis client take effect when they are issued, and nothing undoes
    them when a later command fails. *)
Definition M (S A : Type) : Type := S -> result A * S.

Definition ret {S A} (a : A) : M S A := fun s => (Ok a, s).

Definition fail {S A} (e : error) : M S A := fun s => (Err e, s).

Definition bind {S A B} (m : M S A) (k : A -> M S B) : M S B :=
  fun s => match m s with
           | (Ok a, s') => k a s'
           | (Err e, s') => (Err e, s')
           end.

(** [fmt.Errorf(prefix + "%s", err)] on the error path of [m]. *)
Definition wrap {S A} (prefix : string) (m : M S A) : M S A :=
  fun s => match m s with
           | (Ok a, s') => (Ok a, s')
           | (Err e, s') => (Err (prefix +:+ e), s')
           end.

Declare Scope go_scope.
Delimit Scope go_scope with go.
Notation "x <- m ;; k" := (bind m (fun x => k))
  (at level 100, m at next level, right associativity) : go_scope.
Notation "m ;;; k" := (bind m (fun _ => k))
  (at level 100, right associativity) : go_scope.

(** ** The redis server and the go-redis client *)

Inductive rvalue : Type :=
| RString (s : string)
| RList (l : list string)
| RHash (h : gmap string string).

Inductive command : Type :=
| WATCH (keys : list string)
| UNWATCH
| GET (key : string)
| SET (key val : string)
| LLEN (key : string)
| RPUSH (key val : string)
| HGET (key field : string)
| HSET (key field val : string)
| KEYS (prefix : string)
| DRAIN (src dst : string).

(** [db]: the keyspace. [faults]: what the wire does to the coming round
    trips, in order ([Some e]: that round trip fails with [e] and the server
    is not reached; past the end of the list nothing fails). [sent]: the
    commands issued so far, oldest first. *)
Record Redis : Type := mkRedis {
  db : gmap string rvalue;
  faults : list (option error);
  sent : list command
}.

Definition redis_Nil : error := "redis: nil".
Definition WRONGTYPE : error :=
  "WRONGTYPE Operation against a key holding the wrong kind of value".

(** One round trip: log the command, consume one entry of [faults], and run
    [exec] on the keyspace unless the wire failed. *)
Definition roundtrip {A} (c : command)
    (exec : gmap string rvalue -> result A * gmap string rvalue) : M Redis A :=
  fun r =>
    let log := sent r ++ [c] in
    match faults r with
    | Some e :: fs => (Err e, mkRedis (db r) fs log)
    | None :: fs => let '(a, d) := exec (db r) in (a, mkRedis d fs log)
    | [] => let '(a, d) := exec (db r) in (a, mkRedis d [] log)
    end.

Definition Get (key : string) : M Redis string :=
  roundtrip (GET key) (fun d =>
    match d !! key with
    | None => (Err redis_Nil, d)
    | Some (RString s) => (Ok s, d)
    | Some _ => (Err WRONGTYPE, d)
    end).

Definition Set_ (key val : string) : M Redis unit :=
  roundtrip (SET key val) (fun d => (Ok tt, <[key := RString val]> d)).

Definition LLen (key : string) : M Redis Z :=
  roundtrip (LLEN key) (fun d =>
    match d !! key with
    | None => (Ok 0, d)
    | Some (RList l) => (Ok (Z.of_nat (length l)), d)
    | Some _ => (Err WRONGTYPE, d)
    end).

Definition RPush (key val : string) : M Redis Z :=
  roundtrip (RPUSH key val) (fun d =>
    match d !! key with
    | None => (Ok 1, <[key := RList [val]]> d)
    | Some (RList l) =>
        (Ok (Z.of_nat (length l) + 1), <[key := RList (l ++ [val])]> d)
    | Some _ => (Err WRONGTYPE, d)
    end).

Definition HGet (key field : string) : M Redis string :=
  roundtrip (HGET key field) (fun d =>
    match d !! key with
    | None => (Err redis_Nil, d)
    | Some (RHash h) =>
        match h !! field with
        | Some v => (Ok v, d)
        | None => (Err redis_Nil, d)
        end
    | Some _ => (Err WRONGTYPE, d)
    end).

Definition HSet (key field val : string) : M Redis bool :=
  roundtrip (HSET key field val) (fun d =>
    match d !! key with
    | None => (Ok true, <[key := RHash {[field := val]}]> d)
    | Some (RHash h) =>
        (Ok (bool_decide (h !! field = None)),
         <[key := RHash (<[field := val]> h)]> d)
    | Some _ => (Err WRONGTYPE, d)
    end).

Definition Watch_cmd (keys : list string) : M Redis unit :=
  roundtrip (WATCH keys) (fun d => (Ok tt, d)).

Definition Unwatch : M Redis unit :=
  roundtrip UNWATCH (fun d => (Ok tt, d)).

(** [KEYS prefix*]: the keys of the keyspace that start with [prefix]. *)
Definition Keys (prefix : string) : M Redis (list string) :=
  roundtrip (KEYS prefix) (fun d =>
    (Ok (filter (fun k => String.prefix prefix k = true) (elements (dom d))), d)).

(** ** strconv and the decimal form of integers *)

Definition int_min : Z := - 2 ^ 63.
Definition int_max : Z := 2 ^ 63 - 1.

(** What the client writes for an integer argument ([strconv.AppendInt]). *)
Definition Itoa (n : Z) : string := NilZero.string_of_int (Z.to_int n).

Definition ErrSyntax : error := "strconv.Atoi: invalid syntax".
Definition ErrRange : error := "strconv.Atoi: value out of range".

(** [strconv.Atoi]: an optional sign, then one decimal digit or more; the
    value has to fit the machine integer. The error texts leave out the
    quoted input. *)
Definition Atoi (s : string) : result Z :=
  let '(neg, digits) :=
    match s with
    | String "+" t => (false, t)
    | String "-" t => (true, t)
    | _ => (false, s)
    end in
  match NilZero.uint_of_string digits with
  | None => Err ErrSyntax
  | Some u =>
      let n := if neg then - Z.of_uint u else Z.of_uint u in
      if (int_min <=? n) && (n <=? int_max) then Ok n else Err ErrRange
  end.

(** ** engine/redis.pipe.iteration.go *)

(** Both functions take a [redis.Pipeliner]. The client has one
    implementation of it, [*redis.Pipeline], and a command issued on a
    pipeline is queued: nothing is sent before [Exec]. The state of a
    pipeline is the queue of its commands, oldest first. *)
Definition Pipeline : Type := list command.

(** The reply of a queued command, read before [Exec]: the zero value of its
    type, and no error. *)
Definition queued {A} (c : command) (zero : A) : M Pipeline A :=
  fun p => (Ok zero, p ++ [c]).

(** [tx.HGet(key, field).Result()] on a pipeline. *)
Definition Pipeline_HGet (key field : string) : M Pipeline string :=
  queued (HGET key field) "".

(** [tx.HSet(key, field, val).Result()] on a pipeline. *)
Definition Pipeline_HSet (key field val : string) : M Pipeline bool :=
  queued (HSET key field val) false.

(** On an error of [Result] the source returns [-1] next to the error; the
    result type keeps the error alone. *)
Definition getRedisIteration (pipeKey : string) : M Pipeline Z :=
  fun p => match Pipeline_HGet pipeKey "iteration" p with
           | (Err e, p') => (Err e, p')
           | (Ok iStr, p') => (Atoi iStr, p')
           end.

(** The client writes the integer [iter] on the wire in decimal. *)
Definition setRedisIteration (pipeKey : string) (iter : Z) : M Pipeline unit :=
  (_ <- Pipeline_HSet pipeKey "iteration" (Itoa iter) ;; ret tt)%go.

(** ** uuid.UUID and its text form *)

(** A UUID is an array of sixteen bytes. *)
Definition UUID := list byte.

Definition wf_UUID (u : UUID) : Prop := length u = 16%nat.

Definition hexdigit (n : N) : ascii :=
  ascii_of_N (if (n <? 10)%N then 48 + n else 87 + n).

Definition hex_byte (b : byte) : string :=
  let n := Byte.to_N b in
  String (hexdigit (n / 16)) (String (hexdigit (n mod 16)) "").

Definition hex_Encode (l : list byte) : string :=
  fold_right (fun b acc => hex_byte b +:+ acc) "" l.

(** [UUID.String]: xxxxxxxx-xxxx-xxxx-xxxx-xxxxxxxxxxxx. *)
Definition UUID_String (u : UUID) : string :=
  hex_Encode (take 4 u) +:+ "-" +:+
  hex_Encode (take 2 (drop 4 u)) +:+ "-" +:+
  hex_Encode (take 2 (drop 6 u)) +:+ "-" +:+
  hex_Encode (take 2 (drop 8 u)) +:+ "-" +:+
  hex_Encode (drop 10 u).

(** ** time *)

Definition Time := Z.
Definition Duration := Z.

(** The zero [time.Time]: January 1, year 1, 00:00:00 UTC. *)
Definition zero_Time : Time := -62135596800 * 1000000000.

Definition minDuration : Duration := - 2 ^ 63.
Definition maxDuration : Duration := 2 ^ 63 - 1.

(** [t.Sub(u)]: the difference, held at the ends of the [Duration] range. *)
Definition Time_Sub (t u : Time) : Duration :=
  let d := t - u in
  if d <? minDuration then minDuration
  else if maxDuration <? d then maxDuration
  else d.

(** [t.Add(d)]. *)
Definition Time_Add (t : Time) (d : Duration) : Time := t + d.

(** The layout [time.RFC3339Nano] of the standard library: [time_Format t] is
    [t.Format(time.RFC3339Nano)] and [time_Parse s] is
    [time.Parse(time.RFC3339Nano, s)]. *)
Class TimeLayout : Type := {
  time_Format : Time -> string;
  time_Parse : string -> result Time
}.

(** ** pkg/collection/document.go: the document record *)

Record Document : Type := mkDocument {
  ID : UUID;
  PostedAt : Time;
  CollectionName : string;
  SchemaName : string;
  Body : list byte
}.

(** ** encoding/base64, the standard alphabet with padding *)

Definition encodeStd : string :=
  "ABCDEFGHIJKLMNOPQRSTUVWXYZabcdefghijklmnopqrstuvwxyz0123456789+/".

Definition StdPadding : ascii := "="%char.

Definition byteZ (b : byte) : Z := Z.of_N (Byte.to_N b).

Definition Zbyte (z : Z) : byte :=
  match Byte.of_N (Z.to_N (z mod 256)) with
  | Some b => b
  | None => x00
  end.

(** The character of a six bit group. *)
Definition enc6 (n : Z) : ascii :=
  match String.get (Z.to_nat n) encodeStd with
  | Some c => c
  | None => StdPadding
  end.

Fixpoint index_from (i : Z) (c : ascii) (s : string) : option Z :=
  match s with
  | EmptyString => None
  | String c' s' => if Ascii.eqb c c' then Some i else index_from (i + 1) c s'
  end.

(** The six bit group of a character of the alphabet. *)
Definition dec6 (c : ascii) : option Z := index_from 0 c encodeStd.

(** [StdEncoding.EncodeToString]: three bytes make four characters; one or
    two bytes left over make two or three characters and the padding. *)
Fixpoint EncodeToString (src : list byte) : string :=
  match src with
  | [] => ""
  | [a] =>
      let val := byteZ a * 65536 in
      String (enc6 (val / 262144 mod 64)) (String (enc6 (val / 4096 mod 64))
        (String StdPadding (String StdPadding "")))
  | [a; b] =>
      let val := byteZ a * 65536 + byteZ b * 256 in
      String (enc6 (val / 262144 mod 64)) (String (enc6 (val / 4096 mod 64))
        (String (enc6 (val / 64 mod 64)) (String StdPadding "")))
  | a :: b :: c :: rest =>
      let val := byteZ a * 65536 + byteZ b * 256 + byteZ c in
      String (enc6 (val / 262144 mod 64)) (String (enc6 (val / 4096 mod 64))
        (String (enc6 (val / 64 mod 64)) (String (enc6 (val mod 64))
          (EncodeToString rest))))
  end.

Definition CorruptInputError : error := "illegal base64 data".

Definition is_newline (c : ascii) : bool :=
  Ascii.eqb c "010"%char || Ascii.eqb c "013"%char.

Fixpoint strip_newlines (s : string) : string :=
  match s with
  | EmptyString => EmptyString
  | String c s' =>
      if is_newline c then strip_newlines s' else String c (strip_newlines s')
  end.

Fixpoint decode_quanta (s : string) : result (list byte) :=
  match s with
  | EmptyString => Ok []
  | String c1 (String c2 (String c3 (String c4 rest))) =>
      match dec6 c1, dec6 c2, dec6 c3, dec6 c4 with
      | Some v1, Some v2, Some v3, Some v4 =>
          let val := v1 * 262144 + v2 * 4096 + v3 * 64 + v4 in
          match decode_quanta rest with
          | Ok l => Ok (Zbyte (val / 65536) :: Zbyte (val / 256) :: Zbyte val :: l)
          | Err e => Err e
          end
      | Some v1, Some v2, Some v3, None =>
          if Ascii.eqb c4 StdPadding && String.eqb rest "" then
            let val := v1 * 262144 + v2 * 4096 + v3 * 64 in
            Ok [Zbyte (val / 65536); Zbyte (val / 256)]
          else Err CorruptInputError
      | Some v1, Some v2, None, _ =>
          if Ascii.eqb c3 StdPadding && Ascii.eqb c4 StdPadding
             && String.eqb rest "" then
            let val := v1 * 262144 + v2 * 4096 in
            Ok [Zbyte (val / 65536)]
          else Err CorruptInputError
      | _, _, _, _ => Err CorruptInputError
      end
  | _ => Err CorruptInputError
  end.

(** [StdEncoding.DecodeString]: line breaks are skipped, then every four
    characters give three bytes, fewer where the padding ends the input. *)
Definition DecodeString (s : string) : result (list byte) :=
  decode_quanta (strip_newlines s).

(** ** encoding/gob *)

(** The gob codec of the standard library at the type [Document]:
    [gob_Encode d] is what [gob.NewEncoder(&buf).Encode(d)] leaves in [buf],
    [gob_Decode] is [gob.NewDecoder(buf).Decode(&d)]. *)
Class Gob : Type := {
  gob_Encode : Document -> result (list byte);
  gob_Decode : list byte -> result Document
}.

(** ** engine/redis.buffer.go *)

Record Collection : Type := mkCollection {
  Name : string;
  FlushPeriod : Duration;
  RetentionPeriod : Duration
}.

(** The buffer. [consumers] keeps the keys of the map of the source (the
    consumers behind them are not called on the paths embedded here); the
    client is the [Redis] state next to the buffer; the [close] channel
    belongs to the flusher task. *)
Record redisBuffer : Type := mkBuffer {
  collection : Collection;
  consumers : gset string;
  bufferKey : string;
  timeKey : string;
  pipeKeyPrefix : string;
  flushedAt : Time
}.

Definition set_flushedAt (b : redisBuffer) (t : Time) : redisBuffer :=
  mkBuffer (collection b) (consumers b) (bufferKey b) (timeKey b)
           (pipeKeyPrefix b) t.

(** Modelled from the spec: [redisConveyAll] is not among the sources. On
    start the engine enumerates the pipe keys under the buffer's
    [pipeKeyPrefix] and spawns a convey loop for each; the loops are tasks of
    their own and no part of the constructor. *)
Definition redisConveyAll (pipeKeyPrefix : string) (consumers : gset string)
  : Redis -> Redis :=
  fun r => snd (Keys pipeKeyPrefix r).

(** [RedisBuffer]; [now] is the reading of [time.Now] on line 42. *)
Definition RedisBuffer (collec : Collection) (consumers : gset string)
    (now : Time) : Redis -> redisBuffer * Redis :=
  fun r =>
    let rbuffer := {|
      collection := collec;
      consumers := consumers;
      bufferKey := "bulklog." +:+ Name collec +:+ ".buffer";
      timeKey := "bulklog." +:+ Name collec +:+ ".flushedAt";
      pipeKeyPrefix := "bulklog." +:+ Name collec +:+ ".pipes";
      flushedAt := now
    |} in
    (rbuffer, redisConveyAll (pipeKeyPrefix rbuffer) (consumers) r).

Definition Append `{Gob} (b : redisBuffer) (doc : Document) : M Redis unit :=
  fun r =>
    match gob_Encode doc with
    | Err e => (Err e, r)
    | Ok buf =>
        let docBase64 := EncodeToString buf in
        wrap "(RPUSH collection.buffer docBase64)."
             (_ <- RPush (bufferKey b) docBase64 ;; ret tt)%go r
    end.

(** *** The pipe of a flush *)

Record consumerState : Type := mkConsumerState {
  done : bool;
  nextAttemptAt : Time
}.

(** The text a consumer state is stored as in the consumer hash of a pipe;
    the format is private to the store backend. *)
Class PipeCodec : Type := {
  serializeConsumerState : consumerState -> string
}.

Fixpoint forM_ {S A} (l : list A) (f : A -> M S unit) : M S unit :=
  match l with
  | [] => ret tt
  | x :: l' => (f x ;;; forM_ l' f)%go
  end.

Definition liftR {S A} (x : result A) : M S A := fun s => (x, s).

(** Modelled from the spec: the store operation [DrainListInto(src, dst)] is
    not among the sources. It moves all elements of the list at [src], in
    their order, to the end of the list at [dst], and leaves no list at
    [src]. *)
Definition DrainListInto (src dst : string) : M Redis unit :=
  roundtrip (DRAIN src dst) (fun d =>
    match d !! src with
    | None => (Ok tt, d)
    | Some (RList l) =>
        let d' := delete src d in
        match d' !! dst with
        | None => (Ok tt, <[dst := RList l]> d')
        | Some (RList l') => (Ok tt, <[dst := RList (l' ++ l)]> d')
        | Some _ => (Err WRONGTYPE, d)
        end
    | Some _ => (Err WRONGTYPE, d)
    end).

(** Modelled from the spec: [newRedisPipe] is not among the sources. It
    creates the metadata hash of the pipe at [pipeKey], with the fields
    [iteration] (zero), [startedAt], [flushPeriod] and [retentionPeriod]; the
    periods are written as their count of nanoseconds. *)
Definition newRedisPipe `{TimeLayout} (pipeKey : string)
    (flushPeriod retentionPeriod : Duration) (startedAt : Time)
  : M Redis unit :=
  (_ <- HSet pipeKey "iteration" (Itoa 0) ;;
   _ <- HSet pipeKey "startedAt" (time_Format startedAt) ;;
   _ <- HSet pipeKey "flushPeriod" (Itoa flushPeriod) ;;
   _ <- HSet pipeKey "retentionPeriod" (Itoa retentionPeriod) ;;
   ret tt)%go.

(** Modelled from the spec: [addRedisPipeConsumers] is not among the sources.
    It gives every consumer key an entry [{done: false, nextAttemptAt: now +
    FlushPeriod}] in the consumer hash at [pipeKey.consumers]. The call in
    [Flush] passes neither the time nor the period, and the specification
    does not say where the helper takes them from: reading them back from the
    metadata hash is an assumption of this model, and no property below
    rests on the entries. *)
Definition addRedisPipeConsumers `{TimeLayout} `{PipeCodec} (pipeKey : string)
    (consumers : gset string) : M Redis unit :=
  (startedAtStr <- HGet pipeKey "startedAt" ;;
   startedAt <- liftR (time_Parse startedAtStr) ;;
   flushPeriodStr <- HGet pipeKey "flushPeriod" ;;
   flushPeriod <- liftR (Atoi flushPeriodStr) ;;
   forM_ (elements consumers) (fun consumerKey =>
     _ <- HSet (pipeKey +:+ ".consumers") consumerKey
            (serializeConsumerState
               (mkConsumerState false (Time_Add startedAt flushPeriod))) ;;
     ret tt))%go.

(** Modelled from the spec: [flushBuffer2RedisPipe] is not among the sources.
    It moves all documents of the buffer list to the sealed list of the pipe
    at [pipeKey.buffer] and leaves the buffer list empty. *)
Definition flushBuffer2RedisPipe (bufferKey pipeKey : string) : M Redis unit :=
  DrainListInto bufferKey (pipeKey +:+ ".buffer").

(** *** Flush *)

(** The state of a call: the buffer (its field [flushedAt] is assigned in the
    transaction) and the client. *)
Definition St : Type := redisBuffer * Redis.

Definition this : M St redisBuffer := fun s => (Ok (fst s), s).

Definition assign_flushedAt (t : Time) : M St unit :=
  fun s => (Ok tt, (set_flushedAt (fst s) t, snd s)).

(** A command of the client, run in the state of the call. *)
Definition tx {A} (c : M Redis A) : M St A :=
  fun s => let '(a, r') := c (snd s) in (a, (fst s, r')).

(** [Client.Watch(fn, keys...)] of go-redis: WATCH the keys, run [fn] once on
    the connection, close it (which sends UNWATCH and drops its outcome), and
    return what [fn] returned. A failure of WATCH is returned at once. *)
Definition Client_Watch (fn : M St unit) (keys : list string) : M St unit :=
  fun s =>
    match (match keys with [] => ret tt | _ => tx (Watch_cmd keys) end) s with
    | (Err e, s1) => let '(_, s2) := tx Unwatch s1 in (Err e, s2)
    | (Ok _, s1) =>
        let '(err, s2) := fn s1 in
        let '(_, s3) := tx Unwatch s2 in (err, s3)
    end.

(** The function literal of lines 74 to 125. [now] is the reading of the
    clock on line 65, [now'] the one [time.Since] takes on line 85, [pipeID]
    the identifier drawn on line 103. The task started on line 123 runs after
    the transaction and is no part of it. *)
Definition Flush_fn `{TimeLayout} `{PipeCodec} (now now' : Time) (pipeID : UUID)
  : M St unit :=
  (b <- this ;;
   flushedAtStr <- wrap "(GET collection.flushedAt)." (tx (Get (timeKey b))) ;;
   (if String.eqb flushedAtStr "" then ret tt
    else
      match time_Parse flushedAtStr with
      | Ok t => assign_flushedAt t
      | Err e => assign_flushedAt zero_Time ;;; fail ("parseFlushedAtStr." +:+ e)
      end) ;;;
   b <- this ;;
   if Time_Sub now' (flushedAt b) <? FlushPeriod (collection b) then ret tt
   else
     length <- wrap "(LLEN bufferKey)." (tx (LLen (bufferKey b))) ;;
     if length =? 0 then
       wrap ("(SET collection.flushedAt " +:+ time_Format now +:+ ").")
            (tx (Set_ (timeKey b) (time_Format now))) ;;;
       assign_flushedAt now
     else
       let pipeKey := pipeKeyPrefix b +:+ "." +:+ UUID_String pipeID in
       wrap "newRedisPipe."
            (tx (newRedisPipe pipeKey (FlushPeriod (collection b))
                              (RetentionPeriod (collection b)) now)) ;;;
       wrap "addRedisPipeConsumers."
            (tx (addRedisPipeConsumers pipeKey (consumers b))) ;;;
       wrap "flushBuffer2RedisPipe."
            (tx (flushBuffer2RedisPipe (bufferKey b) pipeKey)) ;;;
       wrap ("(SET collection.flushedAt " +:+ time_Format now +:+ ").")
            (tx (Set_ (timeKey b) (time_Format now))) ;;;
       assign_flushedAt now)%go.

(** The keys [Flush] hands to [Watch] on line 125; [pipeID] is the identifier
    drawn on line 66. *)
Definition Flush_watched (b : redisBuffer) (pipeID : UUID) : list string :=
  let pipeKey := pipeKeyPrefix b +:+ "." +:+ UUID_String pipeID in
  let pipeConsumersKey := pipeKey +:+ ".consumers" in
  let pipeBufferKey := pipeKey +:+ ".buffer" in
  [bufferKey b; timeKey b; pipeKey; pipeConsumersKey; pipeBufferKey].

(** [Flush]. [outerID] is the identifier of line 66, from which the watched
    pipe keys are made; [innerID] is the one of line 103, which the function
    literal declares anew and makes the pipe from. *)
Definition Flush `{TimeLayout} `{PipeCodec} (now now' : Time)
    (outerID innerID : UUID) : M St unit :=
  wrap "WATCH."
    (b <- this ;;
     Client_Watch (Flush_fn now now' innerID) (Flush_watched b outerID))%go.

(** ** An instance of the time layout: RFC 3339 with nanoseconds, in UTC *)

Module RFC3339.

Definition digit_char (d : Z) : ascii := ascii_of_N (Z.to_N (48 + d)).

Fixpoint pad_digits (width : nat) (n : Z) (acc : string) : string :=
  match width with
  | O => acc
  | S w => pad_digits w (n / 10) (String (digit_char (n mod 10)) acc)
  end.

Fixpoint trim_zeros (s : string) : string :=
  match s with
  | EmptyString => EmptyString
  | String c s' =>
      let t := trim_zeros s' in
      if Ascii.eqb c "0" && String.eqb t "" then "" else String c t
  end.

(** Year, month and day of the day number [z] (days since 1970-01-01). *)
Definition civil_from_days (z : Z) : Z * Z * Z :=
  let z := z + 719468 in
  let era := z / 146097 in
  let doe := z - era * 146097 in
  let yoe := (doe - doe / 1460 + doe / 36524 - doe / 146096) / 365 in
  let doy := doe - (365 * yoe + yoe / 4 - yoe / 100) in
  let mp := (5 * doy + 2) / 153 in
  let d := doy - (153 * mp + 2) / 5 + 1 in
  let m := if mp <? 10 then mp + 3 else mp - 9 in
  let y := yoe + era * 400 + (if m <=? 2 then 1 else 0) in
  (y, m, d).

Definition days_from_civil (y m d : Z) : Z :=
  let y := if m <=? 2 then y - 1 else y in
  let era := y / 400 in
  let yoe := y - era * 400 in
  let doy := (153 * (if 2 <? m then m - 3 else m + 9) + 2) / 5 + d - 1 in
  let doe := yoe * 365 + yoe / 4 - yoe / 100 + doy in
  era * 146097 + doe - 719468.

Definition Format (t : Time) : string :=
  let secs := t / 1000000000 in
  let nanos := t mod 1000000000 in
  let '(y, m, d) := civil_from_days (secs / 86400) in
  let rem := secs mod 86400 in
  let frac := trim_zeros (pad_digits 9 nanos "") in
  pad_digits 4 y "" +:+ "-" +:+ pad_digits 2 m "" +:+ "-" +:+
  pad_digits 2 d "" +:+ "T" +:+ pad_digits 2 (rem / 3600) "" +:+ ":" +:+
  pad_digits 2 (rem mod 3600 / 60) "" +:+ ":" +:+
  pad_digits 2 (rem mod 60) "" +:+
  (if String.eqb frac "" then "" else "." +:+ frac) +:+ "Z".

Definition digit_val (c : ascii) : option Z :=
  let n := Z.of_N (N_of_ascii c) in
  if (48 <=? n) && (n <=? 57) then Some (n - 48) else None.

(** Exactly [width] digits off the front of [s]. *)
Fixpoint take_digits (width : nat) (acc : Z) (s : string) : option (Z * string) :=
  match width with
  | O => Some (acc, s)
  | S w =>
      match s with
      | String c s' =>
          match digit_val c with
          | Some d => take_digits w (10 * acc + d) s'
          | None => None
          end
      | EmptyString => None
      end
  end.

Definition expect (c : ascii) (s : string) : option string :=
  match s with
  | String c' s' => if Ascii.eqb c c' then Some s' else None
  | EmptyString => None
  end.

(** The digits of a fraction of a second: the value in nanoseconds of the
    first nine, and what follows the digits. *)
Fixpoint take_fraction (scale : Z) (acc : Z) (s : string) : Z * string :=
  match s with
  | String c s' =>
      match digit_val c with
      | Some d => take_fraction (scale / 10) (acc + d * scale) s'
      | None => (acc, s)
      end
  | EmptyString => (acc, s)
  end.

Definition ErrParse : error := "parsing time: cannot parse".

(** The zone of a time: the letter Z, or a signed offset [hh:mm], read as
    seconds east of UTC. The library lets the hours run to 24 and the
    minutes to 60. *)
Definition take_zone (s : string) : option (Z * string) :=
  match s with
  | String c s' =>
      if Ascii.eqb c "Z" then Some (0, s')
      else if Ascii.eqb c "+" || Ascii.eqb c "-" then
        '(zh, s) ← take_digits 2 0 s'; s ← expect ":" s;
        '(zm, s) ← take_digits 2 0 s;
        if (zh <=? 24) && (zm <=? 60)
        then Some ((if Ascii.eqb c "-" then -1 else 1) * (zh * 3600 + zm * 60),
                   s)
        else None
      else None
  | EmptyString => None
  end.

Definition parse_fields (s : string) : option Time :=
  '(y, s) ← take_digits 4 0 s; s ← expect "-" s;
  '(m, s) ← take_digits 2 0 s; s ← expect "-" s;
  '(d, s) ← take_digits 2 0 s; s ← expect "T" s;
  '(hh, s) ← take_digits 2 0 s; s ← expect ":" s;
  '(mm, s) ← take_digits 2 0 s; s ← expect ":" s;
  '(ss, s) ← take_digits 2 0 s;
  '(nanos, s) ← match s with
                 | String "." (String c s') =>
                     match digit_val c with
                     | Some _ => Some (take_fraction 100000000 0 (String c s'))
                     | None => None
                     end
                 | _ => Some (0, s)
                 end;
  '(zone, s) ← take_zone s;
  let days := days_from_civil y m d in
  if String.eqb s "" && (hh <? 24) && (mm <? 60) && (ss <? 60)
     && bool_decide (civil_from_days days = (y, m, d))
  then Some ((days * 86400 + hh * 3600 + mm * 60 + ss - zone) * 1000000000
             + nanos)
  else None.

(** Reads a time of the layout, in UTC (the zone letter Z, which is what
    [Format] writes) or with a numeric offset. *)
Definition Parse (s : string) : result Time :=
  match parse_fields s with
  | Some t => Ok t
  | None => Err ErrParse
  end.

Definition layout : TimeLayout :=
  {| time_Format := Format; time_Parse := Parse |}.

End RFC3339.

(** ** An instance of the consumer state codec *)

Module Wire.

(** The flag, a bar, and the time in RFC 3339: ["0|2026-10-31T12:00:00Z"]. *)
Definition serialize (c : consumerState) : string :=
  (if done c then "1" else "0") +:+ "|" +:+ RFC3339.Format (nextAttemptAt c).

Definition codec : PipeCodec := {| serializeConsumerState := serialize |}.

End Wire.

(** ** Sample data *)

Module Sample.

Definition second : Duration := 1000000000.

(** 2026-10-31T11:55:00Z. *)
Definition t0 : Time := 1793447700 * second.

Definition logs : Collection := mkCollection "logs" (10 * second) (60 * second).

Definition sinks : gset string := {[ "es"; "s3" ]}.

Definition empty_store : Redis := mkRedis ∅ [] [].

(** A store in which a flush was recorded at [t0] and two documents wait. *)
Definition store : Redis :=
  mkRedis {[ "bulklog.logs.flushedAt" := RString (RFC3339.Format t0);
             "bulklog.logs.buffer" := RList ["ZDE="; "ZDI="] ]} [] [].

(** The same store with nothing in the buffer. *)
Definition idle_store : Redis :=
  mkRedis {[ "bulklog.logs.flushedAt" := RString (RFC3339.Format t0) ]} [] [].

Definition buffer : redisBuffer := fst (RedisBuffer logs sinks t0 empty_store).

Definition id1 : UUID := map Zbyte (map Z.of_nat (seq 1 16)).
Definition id2 : UUID := map Zbyte (map Z.of_nat (seq 17 16)).

End Sample.

(** The time the transaction measures from, given the text [s] stored at the
    time key: the text parsed, or the field of the buffer as it stands where
    the text is empty (lines 79 to 84). *)
Definition stored_flushedAt `{TimeLayout} (b : redisBuffer) (s : string)
  : result Time :=
  if String.eqb s "" then Ok (flushedAt b) else time_Parse s.

(** The buffer list holds nothing: redis keeps no empty list, the key is
    absent. *)
Definition buffer_empty (b : redisBuffer) (r : Redis) : Prop :=
  db r !! bufferKey b = None \/ db r !! bufferKey b = Some (RList []).

(** The number of WATCH commands in a log. *)
Definition is_WATCH (c : command) : bool :=
  match c with WATCH _ => true | _ => false end.

Definition watches (log : list command) : nat :=
  length (List.filter is_WATCH log).

(** *** The wording of the specification, for comparison *)

(** The cadence as the specification's claim words it: whenever a call of
    [Flush] records its time [now] over a stored time [t], the two lie at
    least the flush period apart. *)
Definition cadence_at_least_period `{TimeLayout} `{PipeCodec} : Prop :=
  forall (now now' : Time) (outerID innerID : UUID) (b : redisBuffer)
         (r : Redis) (s : string) (t : Time),
    faults r = [] ->
    now <= now' ->
    db r !! timeKey b = Some (RString s) ->
    time_Parse s = Ok t ->
    let r' := snd (snd (Flush now now' outerID innerID (b, r))) in
    db r' !! timeKey b = Some (RString (time_Format now)) ->
    time_Format now <> s ->
    FlushPeriod (collection b) <= now - t.

(** The bound on retries the specification names. *)
Definition MaxTxRetries : nat := 8.

(** [Watch] as the specification describes the transaction of [Flush]: on a
    failure the entire transaction runs again, up to [retries] more times,
    before the error is returned. *)
Fixpoint Watch_retrying (retries : nat) (fn : M St unit) (keys : list string)
  : M St unit :=
  fun s =>
    match Client_Watch fn keys s with
    | (Ok a, s') => (Ok a, s')
    | (Err e, s') =>
        match retries with
        | O => (Err e, s')
        | S n => Watch_retrying n fn keys s'
        end
    end.

Definition Flush_retrying `{TimeLayout} `{PipeCodec} (retries : nat)
    (now now' : Time) (outerID innerID : UUID) : M St unit :=
  wrap "WATCH."
    (b <- this ;;
     Watch_retrying retries (Flush_fn now now' innerID)
                    (Flush_watched b outerID))%go.

(** The specification's claim on retries: [Flush] returns what the
    transaction retried up to [MaxTxRetries] times returns. *)
Definition retries_before_failure `{TimeLayout} `{PipeCodec} : Prop :=
  forall (now now' : Time) (outerID innerID : UUID) (s : St),
    fst (Flush now now' outerID innerID s)
    = fst (Flush_retrying MaxTxRetries now now' outerID innerID s).

Module Sample2.

(** The sample store behind a wire that lets WATCH pass and fails the next
    round trip. *)
Definition flaky_store : Redis :=
  mkRedis (db Sample.store) [None; Some "EOF"] [].

End Sample2.

(** A computation that sends no WATCH. *)
Definition quiet {S A} (log : S -> list command) (m : M S A) : Prop :=
  forall s, watches (log (snd (m s))) = watches (log s).

(** The value of a hexadecimal digit in lower case. *)
Definition unhex (c : ascii) : N :=
  let n := N_of_ascii c in if (n <? 58)%N then n - 48 else n - 87.

(** The keys of the pipe made from the identifier [pipeID]: the metadata
    hash, the consumer hash and the sealed list. *)
Definition pipe_keys (b : redisBuffer) (pipeID : UUID) : list string :=
  let pipeKey := pipeKeyPrefix b +:+ "." +:+ UUID_String pipeID in
  [pipeKey; pipeKey +:+ ".consumers"; pipeKey +:+ ".buffer"].

(** *** Appends and the stored form of a document *)

(** The documents of the buffer list, oldest first; an absent key is the
    empty list. *)
Definition buffer_docs (b : redisBuffer) (r : Redis) : option (list string) :=
  match db r !! bufferKey b with
  | None => Some []
  | Some (RList l) => Some l
  | Some _ => None
  end.

(** One [Append] after the other, until one fails. *)
Definition AppendAll `{Gob} (b : redisBuffer) (docs : list Document)
  : M Redis unit :=
  forM_ docs (Append b).

(** ** An instance of the document codec *)

Module Tagged.

(** A length-tagged serialization in the manner of gob: every field is its
    length in decimal, a colon, and its bytes; the time is the decimal text
    of its nanoseconds. The byte format of the standard library is not
    reproduced. *)
Definition field (l : list byte) : list byte :=
  list_byte_of_string (Itoa (Z.of_nat (length l))) ++ x3a :: l.

Definition encode (d : Document) : result (list byte) :=
  Ok (field (ID d)
      ++ field (list_byte_of_string (Itoa (PostedAt d)))
      ++ field (list_byte_of_string (CollectionName d))
      ++ field (list_byte_of_string (SchemaName d))
      ++ field (Body d)).

Fixpoint until_colon (l : list byte) : option (list byte * list byte) :=
  match l with
  | [] => None
  | x :: l' =>
      if Byte.eqb x x3a then Some ([], l')
      else match until_colon l' with
           | Some (tag, rest) => Some (x :: tag, rest)
           | None => None
           end
  end.

Definition ErrField : error := "tagged: malformed field".

Definition read_field (l : list byte) : result (list byte * list byte) :=
  match until_colon l with
  | None => Err ErrField
  | Some (tag, rest) =>
      match Atoi (string_of_list_byte tag) with
      | Err e => Err e
      | Ok n =>
          if (0 <=? n) && (n <=? Z.of_nat (length rest))
          then Ok (take (Z.to_nat n) rest, drop (Z.to_nat n) rest)
          else Err ErrField
      end
  end.

Definition decode (l : list byte) : result Document :=
  match read_field l with
  | Err e => Err e
  | Ok (id, l) =>
  match read_field l with
  | Err e => Err e
  | Ok (posted, l) =>
  match Atoi (string_of_list_byte posted), read_field l with
  | Err e, _ | _, Err e => Err e
  | Ok postedAt, Ok (cn, l) =>
  match read_field l with
  | Err e => Err e
  | Ok (sn, l) =>
  match read_field l with
  | Err e => Err e
  | Ok (body, []) =>
      Ok (mkDocument id postedAt (string_of_list_byte cn)
                     (string_of_list_byte sn) body)
  | Ok (_, _ :: _) => Err ErrField
  end end end end end.

Definition gob : Gob := {| gob_Encode := encode; gob_Decode := decode |}.

End Tagged.

Module Sample3.

Definition doc1 : Document :=
  mkDocument Sample.id1 Sample.t0 "logs" "access"
             (list_byte_of_string "{}").

Definition doc2 : Document :=
  mkDocument Sample.id2 (Sample.t0 + 1) "logs" "access"
             (list_byte_of_string "null").

End Sample3.

(** ** unicode/utf8 *)

Module UTF8.

Definition code (c : ascii) : Z := Z.of_N (N_of_ascii c).
Definition chr (n : Z) : ascii := ascii_of_N (Z.to_N n).

Definition RuneError : Z := 65533.

Definition between (lo n hi : Z) : bool := (lo <=? n) && (n <=? hi).

(** [utf8.DecodeRune]: the rune at the front of [s] and its width in bytes;
    [(RuneError, 1)] where the front is no well-formed encoding, and
    [(RuneError, 0)] on the empty text. *)
Definition DecodeRune (s : string) : Z * nat :=
  match s with
  | EmptyString => (RuneError, 0%nat)
  | String c0 s1 =>
      let b0 := code c0 in
      if b0 <? 128 then (b0, 1%nat)
      else if between 194 b0 223 then
        match s1 with
        | String c1 _ =>
            let b1 := code c1 in
            if between 128 b1 191
            then ((b0 - 192) * 64 + (b1 - 128), 2%nat)
            else (RuneError, 1%nat)
        | _ => (RuneError, 1%nat)
        end
      else if between 224 b0 239 then
        match s1 with
        | String c1 (String c2 _) =>
            let b1 := code c1 in
            let b2 := code c2 in
            let lo := if b0 =? 224 then 160 else 128 in
            let hi := if b0 =? 237 then 159 else 191 in
            if between lo b1 hi && between 128 b2 191
            then ((b0 - 224) * 4096 + (b1 - 128) * 64 + (b2 - 128), 3%nat)
            else (RuneError, 1%nat)
        | _ => (RuneError, 1%nat)
        end
      else if between 240 b0 244 then
        match s1 with
        | String c1 (String c2 (String c3 _)) =>
            let b1 := code c1 in
            let b2 := code c2 in
            let b3 := code c3 in
            let lo := if b0 =? 240 then 144 else 128 in
            let hi := if b0 =? 244 then 143 else 191 in
            if between lo b1 hi && between 128 b2 191 && between 128 b3 191
            then ((b0 - 240) * 262144 + (b1 - 128) * 4096 + (b2 - 128) * 64
                  + (b3 - 128), 4%nat)
            else (RuneError, 1%nat)
        | _ => (RuneError, 1%nat)
        end
      else (RuneError, 1%nat)
  end.

Definition encode2 (r : Z) : string :=
  String (chr (192 + r / 64)) (String (chr (128 + r mod 64)) "").

Definition encode3 (r : Z) : string :=
  String (chr (224 + r / 4096))
    (String (chr (128 + r / 64 mod 64)) (String (chr (128 + r mod 64)) "")).

Definition encode4 (r : Z) : string :=
  String (chr (240 + r / 262144))
    (String (chr (128 + r / 4096 mod 64))
       (String (chr (128 + r / 64 mod 64)) (String (chr (128 + r mod 64)) ""))).

(** [utf8.EncodeRune]: the bytes of the rune; those of [RuneError] for a
    surrogate half or a value out of range. *)
Definition EncodeRune (r : Z) : string :=
  if between 0 r 127 then String (chr r) ""
  else if between 128 r 2047 then encode2 r
  else if between 55296 r 57343 then encode3 RuneError
  else if between 2048 r 65535 then encode3 r
  else if between 65536 r 1114111 then encode4 r
  else encode3 RuneError.

Fixpoint sdrop (n : nat) (s : string) : string :=
  match n, s with
  | S n', String _ s' => sdrop n' s'
  | _, _ => s
  end.

Fixpoint stake (n : nat) (s : string) : string :=
  match n, s with
  | S n', String c s' => String c (stake n' s')
  | _, _ => EmptyString
  end.

End UTF8.

(** ** encoding/json *)

(** The finite values of [float64] and their codec in strconv:
    [ParseFloat s] is [strconv.ParseFloat(s, 64)], [None] where the literal
    is out of range; [FormatFloat f] is the text [json.Marshal] writes for
    [f] (the shortest digits that read back, in the plain form or with an
    exponent by the size of [f]). *)
Class Float64 : Type := {
  float64 : Type;
  ParseFloat : string -> option float64;
  FormatFloat : float64 -> string
}.

Module JSON.

Import UTF8.

(** *** The scanner: texts, numbers, strings *)

Definition dquote : ascii := chr 34.

Definition is_space (c : ascii) : bool :=
  let n := code c in (n =? 32) || (n =? 9) || (n =? 13) || (n =? 10).

Fixpoint skip_space (s : string) : string :=
  match s with
  | String c s' => if is_space c then skip_space s' else s
  | EmptyString => EmptyString
  end.

Definition is_digit (c : ascii) : bool := between 48 (code c) 57.

Fixpoint span_digits (s : string) : string * string :=
  match s with
  | String c s' =>
      if is_digit c
      then let '(ds, r) := span_digits s' in (String c ds, r)
      else (EmptyString, s)
  | EmptyString => (EmptyString, EmptyString)
  end.

Definition scan_int (s : string) : option (string * string) :=
  match s with
  | String c s' =>
      if code c =? 48 then Some (String c "", s')
      else if is_digit c
           then let '(ds, r) := span_digits s' in Some (String c ds, r)
           else None
  | EmptyString => None
  end.

Definition scan_frac (s : string) : option (string * string) :=
  match s with
  | String c s' =>
      if code c =? 46 then
        match span_digits s' with
        | (EmptyString, _) => None
        | (ds, r) => Some (String c ds, r)
        end
      else Some (EmptyString, s)
  | EmptyString => Some (EmptyString, EmptyString)
  end.

Definition scan_sign (s : string) : string * string :=
  match s with
  | String c t =>
      if (code c =? 43) || (code c =? 45) then (String c "", t)
      else (EmptyString, s)
  | EmptyString => (EmptyString, EmptyString)
  end.

Definition scan_exp (s : string) : option (string * string) :=
  match s with
  | String c s' =>
      if (code c =? 101) || (code c =? 69) then
        let '(sg, s'') := scan_sign s' in
        match span_digits s'' with
        | (EmptyString, _) => None
        | (ds, r) => Some (String c (sg +:+ ds), r)
        end
      else Some (EmptyString, s)
  | EmptyString => Some (EmptyString, EmptyString)
  end.

(** A number literal off the front of [s]: an optional minus, the integer
    part, an optional fraction, an optional exponent. *)
Definition scan_number (s : string) : option (string * string) :=
  let '(sg, s1) :=
    match s with
    | String c t => if code c =? 45 then (String c "", t) else (EmptyString, s)
    | EmptyString => (EmptyString, s)
    end in
  match scan_int s1 with
  | None => None
  | Some (i, s2) =>
      match scan_frac s2 with
      | None => None
      | Some (f, s3) =>
          match scan_exp s3 with
          | None => None
          | Some (e, s4) => Some (sg +:+ i +:+ f +:+ e, s4)
          end
      end
  end.

Definition hexval (c : ascii) : option Z :=
  let n := code c in
  if between 48 n 57 then Some (n - 48)
  else if between 97 n 102 then Some (n - 87)
  else if between 65 n 70 then Some (n - 55)
  else None.

(** The escapes of one letter: quote, backslash, slash, b, f, n, r, t. *)
Definition unescape (e : ascii) : option ascii :=
  let n := code e in
  if (n =? 34) || (n =? 92) || (n =? 47) then Some e
  else if n =? 98 then Some (chr 8)
  else if n =? 102 then Some (chr 12)
  else if n =? 110 then Some (chr 10)
  else if n =? 114 then Some (chr 13)
  else if n =? 116 then Some (chr 9)
  else None.

(** [getu4]: the number of a [\uXXXX] escape at the front of [s]. *)
Definition getu4 (s : string) : option Z :=
  match s with
  | String b (String u (String h1 (String h2 (String h3 (String h4 _))))) =>
      if (code b =? 92) && (code u =? 117) then
        match hexval h1, hexval h2, hexval h3, hexval h4 with
        | Some a1, Some a2, Some a3, Some a4 =>
            Some (((a1 * 16 + a2) * 16 + a3) * 16 + a4)
        | _, _, _, _ => None
        end
      else None
  | _ => None
  end.

(** The inside of a string literal, up to its closing quote: the raw text
    and what follows the quote. Control characters and malformed escapes
    end the scan with an error. *)
Fixpoint scan_string (s : string) : option (string * string) :=
  match s with
  | EmptyString => None
  | String c s' =>
      if code c =? 34 then Some (EmptyString, s')
      else if code c =? 92 then
        match s' with
        | String e s'' =>
            if code e =? 117 then
              match s'' with
              | String h1 (String h2 (String h3 (String h4 s3))) =>
                  match getu4 s, scan_string s3 with
                  | Some _, Some (raw, rest) =>
                      Some (String c (String e (String h1 (String h2
                              (String h3 (String h4 raw))))), rest)
                  | _, _ => None
                  end
              | _ => None
              end
            else
              match unescape e, scan_string s'' with
              | Some _, Some (raw, rest) => Some (String c (String e raw), rest)
              | _, _ => None
              end
        | EmptyString => None
        end
      else if code c <? 32 then None
      else
        match scan_string s' with
        | Some (raw, rest) => Some (String c raw, rest)
        | None => None
        end
  end.

Definition IsSurrogate (r : Z) : bool := between 55296 r 57343.

(** [utf16.DecodeRune]: the rune of a surrogate pair, [RuneError] where the
    two do not make a pair. *)
Definition utf16_DecodeRune (r1 r2 : Z) : Z :=
  if between 55296 r1 56319 && between 56320 r2 57343
  then (r1 - 55296) * 1024 + (r2 - 56320) + 65536
  else RuneError.

(** [unquote]: the text of a scanned literal. Escapes are replaced, and
    bytes that are not well-formed UTF-8 give way to the replacement
    character. *)
Fixpoint unquote (fuel : nat) (s : string) : string :=
  match fuel with
  | O => EmptyString
  | S fuel' =>
      match s with
      | EmptyString => EmptyString
      | String c s' =>
          if code c =? 92 then
            match s' with
            | String e s'' =>
                if code e =? 117 then
                  match getu4 s with
                  | Some rr =>
                      let s3 := sdrop 6 s in
                      if IsSurrogate rr then
                        let dec := match getu4 s3 with
                                   | Some rr1 => utf16_DecodeRune rr rr1
                                   | None => RuneError
                                   end in
                        if dec =? RuneError
                        then EncodeRune RuneError +:+ unquote fuel' s3
                        else EncodeRune dec +:+ unquote fuel' (sdrop 6 s3)
                      else EncodeRune rr +:+ unquote fuel' s3
                  | None => EmptyString
                  end
                else
                  match unescape e with
                  | Some x => String x (unquote fuel' s'')
                  | None => EmptyString
                  end
            | EmptyString => EmptyString
            end
          else if code c <? 128 then String c (unquote fuel' s')
          else
            let '(rr, size) := DecodeRune s in
            EncodeRune rr +:+ unquote fuel' (sdrop size s)
      end
  end.

Definition Unquote (raw : string) : string := unquote (String.length raw) raw.

(** *** The syntax of a text *)

Inductive json : Type :=
| JNull
| JBool (b : bool)
| JNumber (lit : string)
| JString (s : string)
| JArray (l : list json)
| JObject (members : list (string * json)).

(** What follows the character of code [n] at the front of [s]. *)
Definition head_is (n : Z) (s : string) : option string :=
  match s with
  | String c rest => if code c =? n then Some rest else None
  | EmptyString => None
  end.

(** What follows the word [kw] at the front of [s]. *)
Fixpoint keyword (kw s : string) : option string :=
  match kw with
  | EmptyString => Some s
  | String k kw' =>
      match s with
      | String c s' => if Ascii.eqb k c then keyword kw' s' else None
      | EmptyString => None
      end
  end.

(** The value at the front of [s] and what follows it. Strings are kept
    unquoted, numbers as their literal, the members of an object in the
    order of the text. *)
Fixpoint parse_value (fuel : nat) (s : string) : option (json * string) :=
  match fuel with
  | O => None
  | S fuel' =>
      match skip_space s with
      | EmptyString => None
      | String c s' =>
          if code c =? 34 then
            match scan_string s' with
            | Some (raw, rest) => Some (JString (Unquote raw), rest)
            | None => None
            end
          else if code c =? 91 then
            match head_is 93 (skip_space s') with
            | Some rest => Some (JArray [], rest)
            | None => parse_elements fuel' s' []
            end
          else if code c =? 123 then
            match head_is 125 (skip_space s') with
            | Some rest => Some (JObject [], rest)
            | None => parse_members fuel' s' []
            end
          else
            match keyword "null" (String c s') with
            | Some rest => Some (JNull, rest)
            | None =>
            match keyword "true" (String c s') with
            | Some rest => Some (JBool true, rest)
            | None =>
            match keyword "false" (String c s') with
            | Some rest => Some (JBool false, rest)
            | None =>
            match scan_number (String c s') with
            | Some (lit, rest) => Some (JNumber lit, rest)
            | None => None
            end end end end
      end
  end
with parse_elements (fuel : nat) (s : string) (acc : list json)
  : option (json * string) :=
  match fuel with
  | O => None
  | S fuel' =>
      match parse_value fuel' s with
      | None => None
      | Some (v, rest) =>
          match head_is 44 (skip_space rest) with
          | Some rest' => parse_elements fuel' rest' (acc ++ [v])
          | None =>
              match head_is 93 (skip_space rest) with
              | Some rest' => Some (JArray (acc ++ [v]), rest')
              | None => None
              end
          end
      end
  end
with parse_members (fuel : nat) (s : string) (acc : list (string * json))
  : option (json * string) :=
  match fuel with
  | O => None
  | S fuel' =>
      match head_is 34 (skip_space s) with
      | None => None
      | Some s1 =>
          match scan_string s1 with
          | None => None
          | Some (raw, s2) =>
              match head_is 58 (skip_space s2) with
              | None => None
              | Some s3 =>
                  match parse_value fuel' s3 with
                  | None => None
                  | Some (v, rest) =>
                      match head_is 44 (skip_space rest) with
                      | Some rest' =>
                          parse_members fuel' rest' (acc ++ [(Unquote raw, v)])
                      | None =>
                          match head_is 125 (skip_space rest) with
                          | Some rest' =>
                              Some (JObject (acc ++ [(Unquote raw, v)]), rest')
                          | None => None
                          end
                      end
                  end
              end
          end
      end
  end.

(** The whole text is one value, with white space around it at most. *)
Definition parse (s : string) : option json :=
  match parse_value (S (String.length s)) s with
  | Some (v, rest) =>
      match skip_space rest with
      | EmptyString => Some v
      | _ => None
      end
  | None => None
  end.

End JSON.

Module GoJSON.

Import UTF8 JSON.

(** *** What [Unmarshal] stores in an [interface{}] *)

(** [nil], [bool], [float64], [string], [[]interface{}] and
    [map[string]interface{}]. A map is kept as the list of its entries in the
    order of their keys, every key once. *)
Inductive value `{Float64} : Type :=
| VNull
| VBool (b : bool)
| VNumber (f : float64)
| VString (s : string)
| VArray (l : list value)
| VObject (m : list (string * value)).

(** [m[k] = v]. *)
Fixpoint map_set {A} (k : string) (v : A) (m : list (string * A))
  : list (string * A) :=
  match m with
  | [] => [(k, v)]
  | (k', v') :: m' =>
      match String.compare k k' with
      | Lt => (k, v) :: m
      | Eq => (k, v) :: m'
      | Gt => (k', v') :: map_set k v m'
      end
  end.

(** The elements of an array, each decoded by [dec]. *)
Definition decode_elements `{Float64} (dec : json -> option value)
  : list json -> option (list value) :=
  fix elements (l : list json) : option (list value) :=
    match l with
    | [] => Some []
    | j :: l' =>
        match dec j, elements l' with
        | Some v, Some vs => Some (v :: vs)
        | _, _ => None
        end
    end.

(** The members of an object, each set in the map [acc] in the order of the
    text: a key written twice keeps what was written last. *)
Definition decode_members `{Float64} (dec : json -> option value)
  : list (string * json) -> list (string * value)
    -> option (list (string * value)) :=
  fix members (ms : list (string * json)) (acc : list (string * value))
    : option (list (string * value)) :=
    match ms with
    | [] => Some acc
    | kj :: ms' =>
        match dec (snd kj) with
        | Some v => members ms' (map_set (fst kj) v acc)
        | None => None
        end
    end.

(** The value of a syntax tree; [None] where a number literal does not fit
    [float64]. *)
Fixpoint decode_value `{Float64} (j : json) : option value :=
  match j with
  | JNull => Some VNull
  | JBool b => Some (VBool b)
  | JNumber lit =>
      match ParseFloat lit with
      | Some f => Some (VNumber f)
      | None => None
      end
  | JString s => Some (VString s)
  | JArray l =>
      match decode_elements decode_value l with
      | Some vs => Some (VArray vs)
      | None => None
      end
  | JObject ms =>
      match decode_members decode_value ms [] with
      | Some m => Some (VObject m)
      | None => None
      end
  end.

Definition SyntaxError : error := "invalid character in JSON text".
Definition UnmarshalTypeError : error :=
  "json: cannot unmarshal into Go value of type map[string]interface {}".
Definition NumberRangeError : error :=
  "json: cannot unmarshal number into Go value of type float64".

(** [json.Unmarshal(data, &bodyMap)] for a nil [bodyMap] of type
    [map[string]interface{}]: the map, [None] for the nil map that the text
    [null] leaves in place. *)
Definition Unmarshal `{Float64} (data : string)
  : result (option (list (string * value))) :=
  match parse data with
  | None => Err SyntaxError
  | Some JNull => Ok None
  | Some (JObject ms) =>
      match decode_value (JObject ms) with
      | Some (VObject m) => Ok (Some m)
      | _ => Err NumberRangeError
      end
  | Some _ => Err UnmarshalTypeError
  end.

(** *** The encoder *)

Definition htmlSafe (n : Z) : bool :=
  between 32 n 127
  && negb ((n =? 34) || (n =? 92) || (n =? 60) || (n =? 62) || (n =? 38)).

Definition hex4 (n : Z) : ascii := hexdigit (Z.to_N n).

(** A byte below [utf8.RuneSelf] in a string of the output. *)
Definition escape_ascii (c : ascii) : string :=
  let n := code c in
  if htmlSafe n then String c ""
  else if (n =? 92) || (n =? 34) then String "\" (String c "")
  else if n =? 10 then "\n"
  else if n =? 13 then "\r"
  else if n =? 9 then "\t"
  else "\u00" +:+ String (hex4 (n / 16)) (String (hex4 (n mod 16)) "").

(** The two runes the encoder writes as escapes. *)
Definition line_separator (r : Z) : bool := (r =? 8232) || (r =? 8233).

Fixpoint quote_body (fuel : nat) (s : string) : string :=
  match fuel, s with
  | S fuel', String c s' =>
      if code c <? 128 then escape_ascii c +:+ quote_body fuel' s'
      else
        let '(r, size) := DecodeRune s in
        if (r =? RuneError) && Nat.eqb size 1
        then "\ufffd" +:+ quote_body fuel' s'
        else if line_separator r
        then "\u202" +:+ String (hex4 (r mod 16)) (quote_body fuel' (sdrop size s))
        else stake size s +:+ quote_body fuel' (sdrop size s)
  | _, _ => EmptyString
  end.

(** A string of the output, between its quotes. *)
Definition quote (s : string) : string :=
  String dquote (quote_body (String.length s) s +:+ String dquote "").

Fixpoint join (sep : string) (l : list string) : string :=
  match l with
  | [] => EmptyString
  | [x] => x
  | x :: l' => x +:+ sep +:+ join sep l'
  end.

Fixpoint encode_value `{Float64} (v : value) : string :=
  match v with
  | VNull => "null"
  | VBool true => "true"
  | VBool false => "false"
  | VNumber f => FormatFloat f
  | VString s => quote s
  | VArray l => "[" +:+ join "," (map encode_value l) +:+ "]"
  | VObject m =>
      "{" +:+ join "," (map (fun kv => quote (fst kv) +:+ ":" +:+ encode_value (snd kv)) m)
          +:+ "}"
  end.

(** [json.Marshal(bodyMap)]: the nil map is [null]; the entries of a map
    are written in the order of their keys. *)
Definition Marshal `{Float64} (bodyMap : option (list (string * value)))
  : result string :=
  match bodyMap with
  | None => Ok "null"
  | Some m => Ok (encode_value (VObject m))
  end.

End GoJSON.

(** ** pkg/collection/document.go: the constructor *)

Definition ErrUnparsableJSON : error := "ErrUnparsableJSON".

(** [NewDocument]; [now] is the reading of [time.Now] on line 32 and [id]
    the identifier drawn on line 39. *)
Definition NewDocument `{Float64} (now : Time) (id : UUID)
    (collectionName schemaName : string) (body : list byte) : result Document :=
  match GoJSON.Unmarshal (string_of_list_byte body) with
  | Err _ => Err ErrUnparsableJSON
  | Ok bodyMap =>
      let postedAt := now in
      match GoJSON.Marshal bodyMap with
      | Err _ => Err ErrUnparsableJSON
      | Ok body' =>
          Ok {| ID := id;
                PostedAt := postedAt;
                CollectionName := collectionName;
                SchemaName := schemaName;
                Body := list_byte_of_string body' |}
      end
  end.

(** ** An instance of the float codec: IEEE 754 binary64 *)

Module Binary64.

Import UTF8 JSON.

(** A finite float: the sign, and [mant * 2 ^ expo] with [mant] below
    [2 ^ 53]; [mant] is at least [2 ^ 52] unless [expo] is the least one,
    [-1074]. Zero is [mant = 0] at [expo = -1074], with either sign. *)
Record t : Type := mk { neg : bool; mant : Z; expo : Z }.

Definition pow10 (k : Z) : Z := 10 ^ k.

(** Is [n / d] at least [2 ^ k]. *)
Definition ge_pow2 (n d k : Z) : bool :=
  d * 2 ^ Z.max 0 k <=? n * 2 ^ Z.max 0 (- k).

(** The float nearest to [n / d] (ties to the even mantissa), for positive
    [n] and [d]; [None] where it is beyond the largest float. *)
Definition round_ratio (sign : bool) (n d : Z) : option t :=
  let k := Z.log2 n - Z.log2 d in
  let lg := if ge_pow2 n d k then k else k - 1 in
  let e := Z.max (lg - 52) (-1074) in
  let num := n * 2 ^ Z.max 0 (- e) in
  let den := d * 2 ^ Z.max 0 e in
  let q := num / den in
  let r := num mod den in
  let up := (den <? 2 * r) || ((den =? 2 * r) && Z.odd q) in
  let m := if up then q + 1 else q in
  let '(m, e) := if m =? 2 ^ 53 then (2 ^ 52, e + 1) else (m, e) in
  if 971 <? e then None else Some (mk sign m e).

(** The digits of a literal: the integer they spell and their count. *)
Fixpoint digits_value (s : string) (acc : Z) : Z :=
  match s with
  | String c s' => digits_value s' (10 * acc + (code c - 48))
  | EmptyString => acc
  end.

(** The exponent of a literal as [strconv] reads it: a digit is taken in
    while the value is below 10000, so that leading zeros count for nothing
    and an exponent out of all range stays one. *)
Fixpoint exponent_digits (s : string) (acc : Z) : Z :=
  match s with
  | String c s' =>
      exponent_digits s' (if acc <? 10000 then 10 * acc + (code c - 48)
                          else acc)
  | EmptyString => acc
  end.

Definition exponent_value (sg ds : string) : Z :=
  let v := exponent_digits ds 0 in
  match sg with String "-" _ => - v | _ => v end.

(** [strconv.ParseFloat(s, 64)] on a number literal of JSON. *)
Definition Parse (s : string) : option t :=
  let '(sign, s1) :=
    match s with String "-" u => (true, u) | _ => (false, s) end in
  let '(ip, s2) := span_digits s1 in
  let '(fp, s3) :=
    match s2 with String "." u => span_digits u | _ => (EmptyString, s2) end in
  let '(ex, s4) :=
    match s3 with
    | String c u =>
        if (code c =? 101) || (code c =? 69) then
          let '(sg, u') := scan_sign u in
          let '(ds, r) := span_digits u' in (exponent_value sg ds, r)
        else (0, s3)
    | EmptyString => (0, s3)
    end in
  match ip, s4 with
  | String _ _, EmptyString =>
      let m := digits_value (ip +:+ fp) 0 in
      let len := Z.of_nat (String.length (ip +:+ fp)) in
      let e := ex - Z.of_nat (String.length fp) in
      if m =? 0 then Some (mk sign 0 (-1074))
      else if 400 <? e then None
      else if e + len <? -400 then Some (mk sign 0 (-1074))
      else if 0 <=? e then round_ratio sign (m * pow10 e) 1
      else round_ratio sign m (pow10 (- e))
  | _, _ => None
  end.

Definition eqb (x y : t) : bool :=
  Bool.eqb (neg x) (neg y) && (mant x =? mant y) && (expo x =? expo y).

(** Does the decimal [digits * 10 ^ p] read as [f]. *)
Definition reads_as (f : t) (digits p : Z) : bool :=
  match (if 0 <=? p then round_ratio (neg f) (digits * pow10 p) 1
         else round_ratio (neg f) digits (pow10 (- p))) with
  | Some g => eqb f g
  | None => false
  end.

(** The least power of ten above [n / d], as an exponent: [n / d] lies in
    [[10 ^ (k - 1), 10 ^ k)]. *)
Fixpoint decimal_point (fuel : nat) (n d k : Z) : Z :=
  match fuel with
  | O => k
  | S fuel' =>
      if n <? d then decimal_point fuel' (n * 10) d (k - 1)
      else if 10 * d <=? n then decimal_point fuel' n (d * 10) (k + 1)
      else k + 1
  end.

(** The shortest digits that read as [f], of [count] digits or more: the
    digits without their trailing zeros and the place of the point
    ([0.digits * 10 ^ dp]). Of two candidates of one length the nearer
    wins. *)
Fixpoint shortest (fuel : nat) (f : t) (n d dp : Z) (count : Z) : Z * Z :=
  match fuel with
  | O => (0, dp)
  | S fuel' =>
      let p := dp - count in
      let num := n * 2 ^ 0 * (if p <? 0 then pow10 (- p) else 1) in
      let den := d * (if p <? 0 then 1 else pow10 p) in
      let lo := num / den in
      let r := num mod den in
      let hi := lo + 1 in
      let first := if 2 * r <=? den then lo else hi in
      let second := if 2 * r <=? den then hi else lo in
      if (0 <? first) && reads_as f first p then (first, p)
      else if (0 <? second) && reads_as f second p then (second, p)
      else shortest fuel' f n d dp (count + 1)
  end.

Fixpoint strip_zeros (fuel : nat) (digits p : Z) : Z * Z :=
  match fuel with
  | O => (digits, p)
  | S fuel' =>
      if (digits mod 10 =? 0) && negb (digits =? 0)
      then strip_zeros fuel' (digits / 10) (p + 1)
      else (digits, p)
  end.

Definition digit (d : Z) : ascii := chr (48 + d).

(** The decimal digits of [n], most significant first. *)
Fixpoint digits_of (fuel : nat) (n : Z) (acc : string) : string :=
  match fuel with
  | O => acc
  | S fuel' =>
      let acc' := String (digit (n mod 10)) acc in
      if n <? 10 then acc' else digits_of fuel' (n / 10) acc'
  end.

Fixpoint zeros (k : nat) : string :=
  match k with O => EmptyString | S k' => String "0" (zeros k') end.

(** The form [%e] with the shortest digits, and the exponent as the encoder
    of JSON leaves it (at least two digits, one after a minus where the
    first is zero). *)
Definition fmtE (ds : string) (dp : Z) : string :=
  let ex := dp - 1 in
  let mantissa :=
    match ds with
    | String c EmptyString => String c ""
    | String c rest => String c (String "." rest)
    | EmptyString => "0"
    end in
  let a := Z.abs ex in
  let exd := digits_of 4 a "" in
  mantissa +:+ "e" +:+
  (if ex <? 0 then "-" +:+ exd
   else "+" +:+ (if a <? 10 then "0" +:+ exd else exd)).

(** The form [%f] with the shortest digits. *)
Definition fmtF (ds : string) (dp : Z) : string :=
  let nd := Z.of_nat (String.length ds) in
  if dp <=? 0 then "0." +:+ zeros (Z.to_nat (- dp)) +:+ ds
  else if nd <=? dp then ds +:+ zeros (Z.to_nat (dp - nd))
  else stake (Z.to_nat dp) ds +:+ "." +:+ sdrop (Z.to_nat dp) ds.

(** The size of a float, in units of the least one. *)
Definition magnitude (f : t) : Z := mant f * 2 ^ (expo f + 1074).

(** The size of the float the constant [n / d] stands for. *)
Definition float_magnitude (n d : Z) : Z :=
  match round_ratio false n d with
  | Some g => magnitude g
  | None => 0
  end.

(** The text [json.Marshal] writes for a float: the form [%e] for a float
    below the float [1e-6] or not below [1e21], else the form [%f]. *)
Definition Format (f : t) : string :=
  let sign := if neg f then "-" else "" in
  if mant f =? 0 then sign +:+ "0"
  else
    let n := mant f * 2 ^ Z.max 0 (expo f) in
    let d := 2 ^ Z.max 0 (- expo f) in
    let dp := decimal_point 400 n d 0 in
    let '(digits, p) := shortest 17 f n d dp 1 in
    let '(digits, p) := strip_zeros 17 digits p in
    let ds := digits_of 20 digits "" in
    let dp := p + Z.of_nat (String.length ds) in
    let small := magnitude f <? float_magnitude 1 (pow10 6) in
    let large := float_magnitude (pow10 21) 1 <=? magnitude f in
    sign +:+ (if small || large then fmtE ds dp else fmtF ds dp).

Definition codec : Float64 :=
  {| float64 := t; ParseFloat := Parse; FormatFloat := Format |}.

End Binary64.

(** *** The wording of the specification on [NewDocument], for comparison *)

Definition is_object (j : JSON.json) : bool :=
  match j with JSON.JObject _ => true | _ => false end.

(** The claim of the specification: the error is returned exactly when the
    text does not parse as JSON or its top-level value is no object. *)
Definition rejects_exactly_non_objects `{Float64} : Prop :=
  forall (now : Time) (id : UUID) (collectionName schemaName : string)
         (body : list byte),
    NewDocument now id collectionName schemaName body = Err ErrUnparsableJSON
    <-> match JSON.parse (string_of_list_byte body) with
        | None => True
        | Some j => is_object j = false
        end.

(** Every number literal of the tree fits [float64]. *)
Fixpoint fits `{Float64} (j : JSON.json) : bool :=
  match j with
  | JSON.JNumber lit =>
      match ParseFloat lit with Some _ => true | None => false end
  | JSON.JArray l => forallb fits l
  | JSON.JObject ms => forallb (fun kv => fits (snd kv)) ms
  | _ => true
  end.

Module Sample4.

(** A text between double quotes. *)
Definition q (s : string) : string :=
  String JSON.dquote (s +:+ String JSON.dquote "").

(** An object with a number beyond the largest float. *)
Definition huge : list byte :=
  list_byte_of_string ("{" +:+ q "a" +:+ ":1e999}").

(** An object written loosely: white space, a key twice, an escape, a
    number with an exponent. *)
Definition loose : list byte :=
  list_byte_of_string
    ("{ " +:+ q "b" +:+ " : [1, 2.50e1, true, null], " +:+ q "a" +:+ ": "
     +:+ q "x<y" +:+ ", " +:+ q "b" +:+ ": [0.1, {}] }").

(** The same object as the encoder writes it: the keys in order, each once,
    and the angle bracket as an escape. *)
Definition canonical : list byte :=
  list_byte_of_string
    ("{" +:+ q "a" +:+ ":" +:+ q "x\u003cy" +:+ "," +:+ q "b" +:+ ":[0.1,{}]}").

(** The map decoded from it: the second [b] has replaced the first, and
    [0.1] is the float nearest to it. *)
Definition decoded : list (string * @GoJSON.value Binary64.codec) :=
  [("a", GoJSON.VString "x<y");
   ("b", GoJSON.VArray
           [@GoJSON.VNumber Binary64.codec
              (Binary64.mk false 7205759403792794 (-56));
            GoJSON.VObject []])].

End Sample4.

(** *** Well-formed texts and values *)

Module WellFormed.

Import UTF8 JSON GoJSON.

(** A rune that has an encoding of its own and more than one byte. *)
Definition wide (r : Z) : Prop :=
  128 <= r <= 1114111 /\ ~ (55296 <= r <= 57343).

(** The shape of the encoding of a wide rune: two, three or four bytes,
    within the ranges that leave out the overlong forms, the surrogate
    halves and the values past the last rune. *)
Inductive encoded (r : Z) : string -> Prop :=
| encoded2 b0 b1 :
    194 <= b0 <= 223 -> 128 <= b1 <= 191 ->
    r = (b0 - 192) * 64 + (b1 - 128) ->
    encoded r (String (chr b0) (String (chr b1) ""))
| encoded3 b0 b1 b2 :
    224 <= b0 <= 239 -> 128 <= b1 <= 191 -> 128 <= b2 <= 191 ->
    (b0 = 224 -> 160 <= b1) -> (b0 = 237 -> b1 <= 159) ->
    r = (b0 - 224) * 4096 + (b1 - 128) * 64 + (b2 - 128) ->
    encoded r (String (chr b0) (String (chr b1) (String (chr b2) "")))
| encoded4 b0 b1 b2 b3 :
    240 <= b0 <= 244 -> 128 <= b1 <= 191 -> 128 <= b2 <= 191 ->
    128 <= b3 <= 191 ->
    (b0 = 240 -> 144 <= b1) -> (b0 = 244 -> b1 <= 143) ->
    r = (b0 - 240) * 262144 + (b1 - 128) * 4096 + (b2 - 128) * 64 + (b3 - 128) ->
    encoded r (String (chr b0) (String (chr b1) (String (chr b2)
                 (String (chr b3) "")))).

(** A text that is well-formed UTF-8: a sequence of encoded runes. *)
Inductive utf8 : string -> Prop :=
| utf8_nil : utf8 EmptyString
| utf8_ascii (c : ascii) (s : string) :
    code c < 128 -> utf8 s -> utf8 (String c s)
| utf8_wide (r : Z) (s : string) :
    wide r -> utf8 s -> utf8 (EncodeRune r +:+ s).

(** The keys grow strictly along the list. *)
Definition sorted {A} (m : list (string * A)) : Prop :=
  StronglySorted (fun a b => String.compare (fst a) (fst b) = Lt) m.

(** A syntax tree whose strings and keys are well-formed UTF-8. *)
Fixpoint json_ok (j : json) : Prop :=
  match j with
  | JString s => utf8 s
  | JArray l => fold_right (fun j P => json_ok j /\ P) True l
  | JObject ms => fold_right (fun kv P => utf8 (fst kv) /\ json_ok (snd kv) /\ P) True ms
  | _ => True
  end.

(** A value as [Unmarshal] makes them: strings and keys are well-formed
    UTF-8 and the entries of a map are in the order of their keys. *)
Fixpoint value_ok `{Float64} (v : value) : Prop :=
  match v with
  | VString s => utf8 s
  | VArray l => fold_right (fun v P => value_ok v /\ P) True l
  | VObject m =>
      sorted m
      /\ fold_right (fun kv P => utf8 (fst kv) /\ value_ok (snd kv) /\ P) True m
  | _ => True
  end.

(** The numbers of a value read back: the text the encoder writes for each
    is a number literal of JSON and parses to the same float. *)
Fixpoint reads_back `{Float64} (v : value) : Prop :=
  match v with
  | VNumber f =>
      scan_number (FormatFloat f) = Some (FormatFloat f, EmptyString)
      /\ ParseFloat (FormatFloat f) = Some f
  | VArray l => fold_right (fun v P => reads_back v /\ P) True l
  | VObject m => fold_right (fun kv P => reads_back (snd kv) /\ P) True m
  | _ => True
  end.

(** The syntax tree of the text the encoder writes for a value. *)
Fixpoint json_of `{Float64} (v : value) : json :=
  match v with
  | VNull => JNull
  | VBool b => JBool b
  | VNumber f => JNumber (FormatFloat f)
  | VString s => JString s
  | VArray l => JArray (map json_of l)
  | VObject m => JObject (map (fun kv => (fst kv, json_of (snd kv))) m)
  end.

(** The fuel that suffices to parse the text of a value. *)
Fixpoint weight `{Float64} (v : value) : nat :=
  match v with
  | VArray l => S (fold_right (fun v n => S (weight v + n)) O l)
  | VObject m => S (fold_right (fun kv n => S (weight (snd kv) + n)) O m)
  | _ => 1
  end.

(** What may follow a number literal: nothing, or a character that no
    number literal continues with. *)
Definition ends_number (rest : string) : Prop :=
  match rest with
  | EmptyString => True
  | String c _ =>
      is_digit c = false /\ code c <> 46 /\ code c <> 101 /\ code c <> 69
  end.

(** What follows a value in a text of the encoder: nothing, a comma, or a
    closing bracket or brace. *)
Definition delimited (rest : string) : Prop :=
  match rest with
  | EmptyString => True
  | String c _ => code c = 44 \/ code c = 93 \/ code c = 125
  end.

(** The characters a number literal starts with. *)
Definition number_heads : list ascii :=
  ["-"; "0"; "1"; "2"; "3"; "4"; "5"; "6"; "7"; "8"; "9"]%char.

(** The parser reads the text of a value back: with fuel for the value and
    before a delimiter, the text parses to the tree of the value and leaves
    what follows. *)
Definition parses_back `{Float64} (v : value) : Prop :=
  value_ok v -> reads_back v ->
  forall fuel rest,
    (weight v <= fuel)%nat -> delimited rest ->
    parse_value fuel (encode_value v +:+ rest) = Some (json_of v, rest).

(** The numbers of the map [NewDocument] decoded read back. *)
Definition numbers_read_back `{Float64}
    (bodyMap : option (list (string * value))) : Prop :=
  match bodyMap with
  | Some m => reads_back (VObject m)
  | None => True
  end.

End WellFormed.

(** ** engine/redis.buffer.go: the flusher task (lines 133 to 168) *)

(** The value of an [int64] expression: what overflows wraps around. *)
Definition int64 (z : Z) : Z := (z + 2 ^ 63) mod 2 ^ 64 - 2 ^ 63.

(** [time.Second]. *)
Definition time_Second : Duration := 1000000000.

(** What the [select] of line 152 receives first: the value [Close] sends
    on the channel [close], or the tick of the timer. *)
Inductive arrival : Type := Closed | Fired.

(** What one turn of the loop takes from its surroundings: the clock that
    [time.Since] reads on line 141; what the [select] receives, if the turn
    waits; the two readings of the clock and the two identifiers of the call
    of [Flush], if the turn makes one. *)
Record turn : Type := mkTurn {
  clock : Time;
  received : arrival;
  flush_now : Time;
  flush_since : Time;
  flush_outerID : UUID;
  flush_innerID : UUID
}.

(** What the task does beside its calls of [Flush]: the lines it prints and
    the timers it makes and waits on. *)
Inductive action : Type :=
| Printf (line : string)
| NewTimer (d : Duration).

Inductive status : Type := Running | Returned.

Definition newline : string := String (ascii_of_nat 10) "".

(** The function [Flusher] returns, run for the turns of [turns]: the
    status is [Running] when the loop is still at work after the last of
    them, [Returned] when the task has received from [close] and ended. *)
Fixpoint Flusher `{TimeLayout} `{PipeCodec} (turns : list turn) (s : St)
  : status * list action * St :=
  match turns with
  | [] => (Running, [], s)
  | t :: turns' =>
      let b := fst s in
      let waitFor :=
        int64 (FlushPeriod (collection b) - Time_Sub (clock t) (flushedAt b)) in
      let flush :=
        Flush (flush_now t) (flush_since t) (flush_outerID t) (flush_innerID t) in
      let continue (acts : list action) (s' : St) :=
        let '(st, acts', s'') := Flusher turns' s' in (st, acts ++ acts', s'') in
      if waitFor <=? 0 then
        match flush s with
        | (Err e, s') =>
            continue [Printf ("Flush." +:+ e +:+ ")" +:+ newline);
                      NewTimer time_Second] s'
        | (Ok _, s') => continue [] s'
        end
      else
        match received t with
        | Closed => (Returned, [NewTimer waitFor], s)
        | Fired =>
            match flush s with
            | (Err e, s') =>
                continue [NewTimer waitFor;
                          Printf ("Flush." +:+ e +:+ ")" +:+ newline)] s'
            | (Ok _, s') => continue [NewTimer waitFor] s'
            end
        end
  end.

Module Sample6.

(** Two turns of the flusher of the sample buffer, ten and eleven seconds
    after the buffer was made, with a value waiting on [close]. *)
Definition turns : list turn :=
  [ mkTurn (Sample.t0 + 10 * Sample.second) Closed
           (Sample.t0 + 10 * Sample.second) (Sample.t0 + 10 * Sample.second)
           Sample.id1 Sample.id2;
    mkTurn (Sample.t0 + 11 * Sample.second) Closed
           (Sample.t0 + 11 * Sample.second) (Sample.t0 + 11 * Sample.second)
           Sample.id2 Sample.id1 ].

End Sample6.

Module Sample7.

(** A buffer whose field [flushedAt] is a minute behind the time stored at
    the time key of the sample store: another instance has flushed since. *)
Definition stale_buffer : redisBuffer :=
  set_flushedAt Sample.buffer (Sample.t0 - 60 * Sample.second).

(** A turn three seconds after the stored time, and one a second later at
    which a value waits on [close]. *)
Definition turns : list turn :=
  [ mkTurn (Sample.t0 + 3 * Sample.second) Fired
           (Sample.t0 + 3 * Sample.second) (Sample.t0 + 3 * Sample.second)
           Sample.id1 Sample.id2;
    mkTurn (Sample.t0 + 4 * Sample.second) Closed
           (Sample.t0 + 4 * Sample.second) (Sample.t0 + 4 * Sample.second)
           Sample.id2 Sample.id1 ].

End Sample7.

(** ** The entries of a decoded map *)

(** [m[k]]: the value of the map at the key [k]. *)
Fixpoint map_get {A} (k : string) (m : list (string * A)) : option A :=
  match m with
  | [] => None
  | (k', v) :: m' => if String.eqb k k' then Some v else map_get k m'
  end.

(** The member written last under the key [k] in the text of an object,
    whose members are [ms] in the order of the text. *)
Definition last_member {A} (k : string) (ms : list (string * A)) : option A :=
  map_get k (rev ms).

Module Sample8.

(** The members of the sample text [Sample4.loose], as the parser reads
    them. *)
Definition members : list (string * JSON.json) :=
  match JSON.parse (string_of_list_byte Sample4.loose) with
  | Some (JSON.JObject ms) => ms
  | _ => []
  end.

End Sample8.

(** * Properties *)

(** ** Round trips on a reliable wire *)

Lemma roundtrip_db_on_fault {A} c (exec : gmap string rvalue -> result A * gmap string rvalue) r e fs :
  faults r = Some e :: fs ->
  roundtrip c exec r = (Err e, mkRedis (db r) fs (sent r ++ [c])).
Proof. intros Hf. unfold roundtrip. now rewrite Hf. Qed.

Lemma roundtrip_reached {A} c (exec : gmap string rvalue -> result A * gmap string rvalue) r :
  hd None (faults r) = None ->
  roundtrip c exec r =
    (fst (exec (db r)), mkRedis (snd (exec (db r))) (tl (faults r)) (sent r ++ [c])).
Proof.
  intros Hf. unfold roundtrip.
  destruct (faults r) as [|[e|] fs]; simpl in *; try discriminate;
    now destruct (exec (db r)).
Qed.

(** A read leaves the keyspace as it is, whatever the wire does. *)
Lemma Get_db key r : db (snd (Get key r)) = db r.
Proof.
  unfold Get, roundtrip.
  destruct (faults r) as [|[e|] fs]; simpl; try reflexivity;
    destruct (db r !! key) as [[]|]; reflexivity.
Qed.

Lemma Watch_cmd_db keys r : db (snd (Watch_cmd keys r)) = db r.
Proof.
  unfold Watch_cmd, roundtrip. destruct (faults r) as [|[e|] fs]; reflexivity.
Qed.

Lemma Unwatch_db r : db (snd (Unwatch r)) = db r.
Proof.
  unfold Unwatch, roundtrip. destruct (faults r) as [|[e|] fs]; reflexivity.
Qed.

Lemma Keys_db prefix r : db (snd (Keys prefix r)) = db r.
Proof.
  unfold Keys, roundtrip. destruct (faults r) as [|[e|] fs]; reflexivity.
Qed.

(** GET of an absent key never succeeds: the wire fails, or the client
    reports [redis.Nil]. *)
Lemma Get_absent key r :
  db r !! key = None -> exists e, fst (Get key r) = Err e.
Proof.
  intros Hk. unfold Get, roundtrip.
  destruct (faults r) as [|[e|] fs]; simpl; rewrite ?Hk; eauto.
Qed.

(** ** The time key is absent: [Flush] fails and writes nothing *)

Section FlushAbsentTimeKey.
Context `{TimeLayout} `{PipeCodec}.

Lemma Flush_fn_absent now now' pipeID b r :
  db r !! timeKey b = None ->
  exists e r', Flush_fn now now' pipeID (b, r) = (Err e, (b, r'))
               /\ db r' = db r.
Proof.
  intros Hk. unfold Flush_fn, bind, this, wrap, tx. simpl.
  destruct (Get_absent (timeKey b) r Hk) as [e He].
  pose proof (Get_db (timeKey b) r) as Hd.
  destruct (Get (timeKey b) r) as [[s|e'] r1]; simpl in *; [discriminate|].
  eauto.
Qed.

Lemma Client_Watch_absent now now' pipeID keys b r :
  db r !! timeKey b = None ->
  exists e r', Client_Watch (Flush_fn now now' pipeID) keys (b, r) = (Err e, (b, r'))
               /\ db r' = db r.
Proof.
  intros Hk. unfold Client_Watch.
  assert (Hw : exists x r1, (match keys with [] => ret tt | _ => tx (Watch_cmd keys) end) (b, r)
                    = (x, (b, r1)) /\ db r1 = db r).
  { destruct keys as [|k ks]; [exists (Ok tt), r; now split|].
    unfold tx; simpl. pose proof (Watch_cmd_db (k :: ks) r) as Hd.
    destruct (Watch_cmd (k :: ks) r) as [x r1]. simpl in Hd. eauto. }
  destruct Hw as (x & r1 & -> & Hd1). destruct x as [[]|e].
  - destruct (Flush_fn_absent now now' pipeID b r1) as (e & r2 & -> & Hd2);
      [now rewrite Hd1|].
    unfold tx; simpl. pose proof (Unwatch_db r2) as Hd3.
    destruct (Unwatch r2) as [x r3]. simpl in *. exists e, r3.
    split; [reflexivity|]. now rewrite Hd3, Hd2.
  - unfold tx; simpl. pose proof (Unwatch_db r1) as Hd3.
    destruct (Unwatch r1) as [x r3]. simpl in *. exists e, r3.
    split; [reflexivity|]. now rewrite Hd3.
Qed.

End FlushAbsentTimeKey.

(** C5. If the time key is absent from the store, [Flush] returns an error
    and leaves the keyspace as it was (no pipe, the buffer list and the time
    key untouched), and the buffer too; the constructor sets the field
    [flushedAt] of the buffer to its reading of the clock and writes no key
    of the store, the time key included. *)
Theorem Flush_absent_time_key `{TimeLayout} `{PipeCodec}
    (now now' : Time) (outerID innerID : UUID) (b : redisBuffer) (r : Redis) :
  db r !! timeKey b = None ->
  (exists e r', Flush now now' outerID innerID (b, r) = (Err e, (b, r'))
                /\ db r' = db r)
  /\ (forall collec cs t r0,
        flushedAt (fst (RedisBuffer collec cs t r0)) = t
        /\ db (snd (RedisBuffer collec cs t r0)) = db r0).
Proof.
  intros Hk. split.
  - unfold Flush, wrap, bind, this. simpl.
    destruct (Client_Watch_absent now now' innerID (Flush_watched b outerID) b r Hk)
      as (e & r' & -> & Hd).
    eauto.
  - intros collec cs t r0. split; [reflexivity|].
    unfold RedisBuffer, redisConveyAll. simpl. apply Keys_db.
Qed.

Lemma Flush_absent_time_key_witness :
  db Sample.empty_store !! timeKey Sample.buffer = None
  /\ exists e r',
       @Flush RFC3339.layout Wire.codec (Sample.t0 + 11 * Sample.second)
         (Sample.t0 + 11 * Sample.second) Sample.id1 Sample.id2
         (Sample.buffer, Sample.empty_store) = (Err e, (Sample.buffer, r'))
       /\ db r' = db Sample.empty_store.
Proof.
  split; [reflexivity|].
  apply (@Flush_absent_time_key RFC3339.layout Wire.codec). reflexivity.
Defined.

(** ** Commands on a wire that does not fail *)

Section Reliable.
Variables (d : gmap string rvalue) (log : list command).

Lemma Watch_cmd_reliable keys :
  Watch_cmd keys (mkRedis d [] log) = (Ok tt, mkRedis d [] (log ++ [WATCH keys])).
Proof. reflexivity. Qed.

Lemma Unwatch_reliable :
  Unwatch (mkRedis d [] log) = (Ok tt, mkRedis d [] (log ++ [UNWATCH])).
Proof. reflexivity. Qed.

Lemma Get_reliable key s :
  d !! key = Some (RString s) ->
  Get key (mkRedis d [] log) = (Ok s, mkRedis d [] (log ++ [GET key])).
Proof. intros Hk. unfold Get, roundtrip. simpl. now rewrite Hk. Qed.

Lemma LLen_reliable_absent key :
  d !! key = None ->
  LLen key (mkRedis d [] log) = (Ok 0, mkRedis d [] (log ++ [LLEN key])).
Proof. intros Hk. unfold LLen, roundtrip. simpl. now rewrite Hk. Qed.

Lemma LLen_reliable key l :
  d !! key = Some (RList l) ->
  LLen key (mkRedis d [] log)
  = (Ok (Z.of_nat (length l)), mkRedis d [] (log ++ [LLEN key])).
Proof. intros Hk. unfold LLen, roundtrip. simpl. now rewrite Hk. Qed.

Lemma Set_reliable key val :
  Set_ key val (mkRedis d [] log)
  = (Ok tt, mkRedis (<[key := RString val]> d) [] (log ++ [SET key val])).
Proof. reflexivity. Qed.

Lemma HSet_reliable_absent key field val :
  d !! key = None ->
  HSet key field val (mkRedis d [] log)
  = (Ok true, mkRedis (<[key := RHash {[field := val]}]> d) []
                      (log ++ [HSET key field val])).
Proof. intros Hk. unfold HSet, roundtrip. simpl. now rewrite Hk. Qed.

Lemma HSet_reliable key field val h :
  d !! key = Some (RHash h) ->
  HSet key field val (mkRedis d [] log)
  = (Ok (bool_decide (h !! field = None)),
     mkRedis (<[key := RHash (<[field := val]> h)]> d) []
             (log ++ [HSET key field val])).
Proof. intros Hk. unfold HSet, roundtrip. simpl. now rewrite Hk. Qed.

Lemma HGet_reliable key field h v :
  d !! key = Some (RHash h) -> h !! field = Some v ->
  HGet key field (mkRedis d [] log)
  = (Ok v, mkRedis d [] (log ++ [HGET key field])).
Proof. intros Hk Hf. unfold HGet, roundtrip. simpl. now rewrite Hk, Hf. Qed.

End Reliable.

Lemma set_flushedAt_same b : set_flushedAt b (flushedAt b) = b.
Proof. now destruct b. Qed.

Lemma Time_Sub_lt (t u : Time) (p : Duration) :
  minDuration < p <= maxDuration -> (Time_Sub t u < p <-> t - u < p).
Proof.
  unfold Time_Sub, minDuration, maxDuration. intros Hp.
  destruct (Z.ltb_spec (t - u) (- 2 ^ 63)); [lia|].
  destruct (Z.ltb_spec (2 ^ 63 - 1) (t - u)); lia.
Qed.

(** ** The decision of [Flush] on a wire that does not fail *)

Section FlushDecision.
Context `{TimeLayout} `{PipeCodec}.
Variables (now now' : Time) (outerID innerID : UUID).
Variables (b : redisBuffer) (r : Redis) (s : string) (t : Time).
Hypothesis wire : faults r = [].
Hypothesis stored : db r !! timeKey b = Some (RString s).
Hypothesis parsed : stored_flushedAt b s = Ok t.

(** The first lines of the function literal: GET, then the assignment. *)
Lemma Flush_fn_head (k : M St unit) :
  (b0 <- this ;;
   flushedAtStr <- wrap "(GET collection.flushedAt)." (tx (Get (timeKey b0))) ;;
   (if String.eqb flushedAtStr "" then ret tt
    else
      match time_Parse flushedAtStr with
      | Ok t => assign_flushedAt t
      | Err e => assign_flushedAt zero_Time ;;; fail ("parseFlushedAtStr." +:+ e)
      end) ;;; k)%go (b, mkRedis (db r) [] (sent r ++ [WATCH (Flush_watched b outerID)]))
  = k (set_flushedAt b t,
       mkRedis (db r) [] ((sent r ++ [WATCH (Flush_watched b outerID)])
                            ++ [GET (timeKey b)])).
Proof.
  unfold bind at 1, this at 1. cbn [fst snd].
  unfold bind at 1, wrap at 1, tx at 1. cbn [fst snd].
  rewrite (Get_reliable _ _ _ s stored).
  unfold bind at 1. unfold stored_flushedAt in parsed.
  destruct (String.eqb s "").
  - injection parsed as <-. unfold ret at 1. now rewrite set_flushedAt_same.
  - rewrite parsed. reflexivity.
Qed.

Lemma Flush_unfold :
  Flush now now' outerID innerID (b, r)
  = let '(err, s2) :=
      Flush_fn now now' innerID
        (b, mkRedis (db r) [] (sent r ++ [WATCH (Flush_watched b outerID)])) in
    let '(_, s3) := tx Unwatch s2 in
    (match err with Ok a => Ok a | Err e => Err ("WATCH." +:+ e) end, s3).
Proof.
  destruct r as [d fs log0]. simpl in wire. subst fs.
  unfold Flush, wrap, bind, this, Client_Watch. cbn [fst snd].
  unfold Flush_watched at 1 2. unfold tx at 1. cbn [fst snd].
  rewrite Watch_cmd_reliable. cbn [db sent].
  fold (Flush_watched b outerID).
  destruct (Flush_fn now now' innerID _) as [[[]|e] s2];
    destruct (tx Unwatch s2); reflexivity.
Qed.

(** Less than the period has passed: nothing is written. *)
Lemma Flush_too_early :
  Time_Sub now' t < FlushPeriod (collection b) ->
  exists r', Flush now now' outerID innerID (b, r) = (Ok tt, (set_flushedAt b t, r'))
             /\ db r' = db r.
Proof.
  intros Hlt. rewrite Flush_unfold. unfold Flush_fn.
  rewrite Flush_fn_head.
  unfold bind at 1, this at 1.
  cbn [fst snd flushedAt set_flushedAt collection consumers bufferKey timeKey
       pipeKeyPrefix].
  apply Z.ltb_lt in Hlt. rewrite Hlt. unfold ret, tx. cbn [fst snd].
  rewrite Unwatch_reliable. eexists. split; reflexivity.
Qed.

(** The period has passed and the buffer list is empty: the time key is
    set and nothing else. *)
Lemma Flush_empty_tick :
  FlushPeriod (collection b) <= Time_Sub now' t ->
  buffer_empty b r ->
  exists r', Flush now now' outerID innerID (b, r) = (Ok tt, (set_flushedAt b now, r'))
             /\ db r' = <[timeKey b := RString (time_Format now)]> (db r).
Proof.
  intros Hge Hempty. rewrite Flush_unfold. unfold Flush_fn.
  rewrite Flush_fn_head.
  unfold bind at 1, this at 1.
  cbn [fst snd flushedAt set_flushedAt collection consumers bufferKey timeKey
       pipeKeyPrefix].
  apply Z.ltb_ge in Hge. rewrite Hge.
  unfold bind at 1, wrap at 1, tx at 1. cbn [fst snd bufferKey].
  assert (Hlen : LLen (bufferKey b)
            (mkRedis (db r) [] ((sent r ++ [WATCH (Flush_watched b outerID)]) ++ [GET (timeKey b)]))
          = (Ok 0, mkRedis (db r) [] (((sent r ++ [WATCH (Flush_watched b outerID)])
                                          ++ [GET (timeKey b)]) ++ [LLEN (bufferKey b)]))).
  { destruct Hempty as [He|He].
    - now apply LLen_reliable_absent.
    - now rewrite (LLen_reliable _ _ _ [] He). }
  rewrite Hlen. cbn [Z.eqb].
  unfold bind at 1, wrap at 1, tx at 1. cbn [fst snd timeKey].
  rewrite Set_reliable. unfold assign_flushedAt, tx. cbn [fst snd].
  rewrite Unwatch_reliable. eexists. split; reflexivity.
Qed.

End FlushDecision.

(** ** Texts of keys and integers *)

Lemma append_nil_l (s : string) : "" +:+ s = s.
Proof. reflexivity. Qed.

Lemma append_cons (c : ascii) (s t : string) :
  String c s +:+ t = String c (s +:+ t).
Proof. reflexivity. Qed.

Lemma append_nil_r (s : string) : s +:+ "" = s.
Proof.
  induction s as [|c s IH]; [reflexivity|]. rewrite append_cons. now rewrite IH.
Qed.

Lemma append_length (s1 s2 : string) :
  String.length (s1 +:+ s2) = (String.length s1 + String.length s2)%nat.
Proof.
  induction s1 as [|c s1 IH]; [reflexivity|].
  rewrite append_cons. simpl. now rewrite IH.
Qed.

Lemma append_inj_l (s x y : string) : s +:+ x = s +:+ y -> x = y.
Proof.
  induction s as [|c s IH]; [now rewrite !append_nil_l|].
  rewrite !append_cons. intros Heq. injection Heq. auto.
Qed.

Lemma append_ne_self (s x : string) : x <> "" -> s +:+ x <> s.
Proof.
  intros Hx Heq. apply (f_equal String.length) in Heq.
  rewrite append_length in Heq. destruct x; [congruence|]. simpl in Heq. lia.
Qed.

Lemma append_assoc (s1 s2 s3 : string) : (s1 +:+ s2) +:+ s3 = s1 +:+ (s2 +:+ s3).
Proof.
  induction s1 as [|c s1 IH]; [reflexivity|].
  rewrite !append_cons. now rewrite IH.
Qed.

Lemma string_of_uint_digit (u : Decimal.uint) :
  exists c t, NilZero.string_of_uint u = String c t
              /\ c <> "+"%char /\ c <> "-"%char.
Proof.
  destruct u; simpl; eexists _, _; (split; [reflexivity|split; discriminate]).
Qed.

Lemma Pos_to_uint_nonnil p : Pos.to_uint p <> Decimal.Nil.
Proof.
  intros Heq. pose proof (DecimalPos.Unsigned.of_to p) as Hp.
  rewrite Heq in Hp. discriminate.
Qed.

Lemma Atoi_unsigned (u : Decimal.uint) :
  u <> Decimal.Nil ->
  Atoi (NilZero.string_of_uint u)
  = if (int_min <=? Z.of_uint u) && (Z.of_uint u <=? int_max)
    then Ok (Z.of_uint u) else Err ErrRange.
Proof.
  intros Hu. unfold Atoi.
  destruct (string_of_uint_digit u) as (c & t & Heq & Hp & Hm).
  pose proof (NilZero.usu u Hu) as Husu. rewrite Heq in *.
  destruct c as [[] [] [] [] [] [] [] []]; try congruence; now rewrite Husu.
Qed.

(** The integer a client wrote is the integer [Atoi] reads. *)
Lemma Atoi_Itoa (n : Z) : int_min <= n <= int_max -> Atoi (Itoa n) = Ok n.
Proof.
  intros Hn. unfold Itoa. pose proof (DecimalZ.of_to n) as Hz.
  destruct n as [|p|p]; simpl Z.to_int in *.
  - reflexivity.
  - simpl NilZero.string_of_int. rewrite Atoi_unsigned by apply Pos_to_uint_nonnil.
    simpl in Hz. rewrite Hz.
    destruct (Z.leb_spec int_min (Z.pos p)), (Z.leb_spec (Z.pos p) int_max);
      simpl; try lia; reflexivity.
  - simpl in Hz. unfold Atoi. simpl NilZero.string_of_int.
    cbv iota beta.
    change (String (Ascii true false true true false true false false) ?s)
      with (String "-" s).
    rewrite (NilZero.usu _ (Pos_to_uint_nonnil p)). cbv iota beta. rewrite Hz.
    destruct (Z.leb_spec int_min (Z.neg p)), (Z.leb_spec (Z.neg p) int_max);
      simpl; try lia; reflexivity.
Qed.

(** ** The period has passed and the buffer list is empty *)

(** C6. When [Flush] runs on a wire that does not fail, with at least the
    flush period passed since [flushedAt] and an empty buffer list, it
    returns no error, sets [flushedAt] to [now] in the store and in the
    buffer, changes no other key (so no pipe is made), and leaves the buffer
    list empty. *)
Theorem Flush_empty_buffer `{TimeLayout} `{PipeCodec}
    (now now' : Time) (outerID innerID : UUID) (b : redisBuffer) (r : Redis)
    (s : string) (t : Time) :
  faults r = [] ->
  db r !! timeKey b = Some (RString s) ->
  stored_flushedAt b s = Ok t ->
  FlushPeriod (collection b) <= Time_Sub now' t ->
  buffer_empty b r ->
  exists r',
    Flush now now' outerID innerID (b, r) = (Ok tt, (set_flushedAt b now, r'))
    /\ db r' !! timeKey b = Some (RString (time_Format now))
    /\ (forall k, k <> timeKey b -> db r' !! k = db r !! k)
    /\ buffer_empty b r'.
Proof.
  intros wire stored parsed due empty.
  destruct (Flush_empty_tick now now' outerID innerID b r s t wire stored parsed
              due empty) as (r' & HF & Hdb).
  exists r'. split; [exact HF|]. rewrite Hdb. split; [apply lookup_insert_eq|].
  split.
  - intros k Hk. now rewrite lookup_insert_ne.
  - unfold buffer_empty in *. rewrite Hdb.
    assert (Hne : timeKey b <> bufferKey b) by (destruct empty; congruence).
    now rewrite lookup_insert_ne.
Qed.

Lemma Flush_empty_buffer_witness :
  let now := Sample.t0 + 10 * Sample.second in
  exists r',
    @Flush RFC3339.layout Wire.codec now now Sample.id1 Sample.id2
      (Sample.buffer, Sample.idle_store)
    = (Ok tt, (set_flushedAt Sample.buffer now, r'))
    /\ db r' !! "bulklog.logs.flushedAt" = Some (RString "2026-10-31T11:55:10Z")
    /\ (forall k, k <> "bulklog.logs.flushedAt" ->
                  db r' !! k = db Sample.idle_store !! k)
    /\ buffer_empty Sample.buffer r'.
Proof.
  intros now.
  apply (@Flush_empty_buffer RFC3339.layout Wire.codec now now Sample.id1
           Sample.id2 Sample.buffer Sample.idle_store
           (RFC3339.Format Sample.t0) Sample.t0).
  - reflexivity.
  - reflexivity.
  - reflexivity.
  - vm_compute. discriminate.
  - left. reflexivity.
Defined.

(** C7, as the claim words the cadence: refuted. A flush was recorded at
    11:55:00 and the period is ten seconds; a call that reads the clock at
    11:55:09 and, after the round trips of WATCH and GET, again at 11:55:10
    finds the period passed and records 11:55:09, nine seconds after the
    recorded flush. *)
Lemma cadence_counterexample :
  ~ @cadence_at_least_period RFC3339.layout Wire.codec.
Proof.
  intros Hc.
  specialize (Hc (Sample.t0 + 9 * Sample.second) (Sample.t0 + 10 * Sample.second)
                 Sample.id1 Sample.id2 Sample.buffer Sample.idle_store
                 (RFC3339.Format Sample.t0) Sample.t0).
  cbv zeta in Hc.
  assert (Hbad : FlushPeriod (collection Sample.buffer)
                 <= Sample.t0 + 9 * Sample.second - Sample.t0).
  { apply Hc.
    - reflexivity.
    - vm_compute. discriminate.
    - reflexivity.
    - reflexivity.
    - reflexivity.
    - vm_compute. discriminate. }
  vm_compute in Hbad. apply Hbad. reflexivity.
Qed.

(** C7, amended. When [Flush] runs on a wire that does not fail with less
    than the flush period passed since the stored [flushedAt], it writes
    nothing (no pipe, the buffer list and the stored [flushedAt] as they
    were) and returns no error. Consequently a call that changes the store
    read, at its check, a clock at least the flush period past the stored
    [flushedAt]; the time it records is the earlier reading [now], which lies
    at least the flush period less the delay between the two readings past
    the stored one. *)
Theorem Flush_before_period `{TimeLayout} `{PipeCodec}
    (now now' : Time) (outerID innerID : UUID) (b : redisBuffer) (r : Redis)
    (s : string) (t : Time) :
  faults r = [] ->
  db r !! timeKey b = Some (RString s) ->
  stored_flushedAt b s = Ok t ->
  (Time_Sub now' t < FlushPeriod (collection b) ->
     exists r', Flush now now' outerID innerID (b, r)
                = (Ok tt, (set_flushedAt b t, r'))
                /\ db r' = db r)
  /\ (db (snd (snd (Flush now now' outerID innerID (b, r)))) <> db r ->
      FlushPeriod (collection b) <= Time_Sub now' t
      /\ (minDuration < FlushPeriod (collection b) ->
          FlushPeriod (collection b) - (now' - now) <= now - t)).
Proof.
  intros wire stored parsed. split.
  - intros Hlt. now apply (Flush_too_early now now' outerID innerID b r s t).
  - intros Hch.
    assert (Hge : FlushPeriod (collection b) <= Time_Sub now' t).
    { destruct (Z.le_gt_cases (FlushPeriod (collection b)) (Time_Sub now' t))
        as [Hle|Hlt]; [exact Hle|].
      destruct (Flush_too_early now now' outerID innerID b r s t wire stored
                  parsed Hlt) as (r' & HF & Hdb).
      rewrite HF in Hch. now elim Hch. }
    split; [exact Hge|]. intros Hmin. revert Hge. unfold Time_Sub.
    destruct (Z.ltb_spec (now' - t) minDuration); [lia|].
    destruct (Z.ltb_spec maxDuration (now' - t)); [|lia].
    unfold maxDuration in *. intros Hle. lia.
Qed.

Lemma Flush_before_period_witness :
  let now := Sample.t0 + 9 * Sample.second in
  (Time_Sub now Sample.t0 < FlushPeriod Sample.logs ->
     exists r', @Flush RFC3339.layout Wire.codec now now Sample.id1 Sample.id2
                  (Sample.buffer, Sample.store)
                = (Ok tt, (set_flushedAt Sample.buffer Sample.t0, r'))
                /\ db r' = db Sample.store)
  /\ (db (snd (snd (@Flush RFC3339.layout Wire.codec now now Sample.id1
                      Sample.id2 (Sample.buffer, Sample.store))))
      <> db Sample.store ->
      FlushPeriod Sample.logs <= Time_Sub now Sample.t0
      /\ (minDuration < FlushPeriod Sample.logs ->
          FlushPeriod Sample.logs - (now - now) <= now - Sample.t0)).
Proof.
  intros now.
  apply (@Flush_before_period RFC3339.layout Wire.codec now now Sample.id1
           Sample.id2 Sample.buffer Sample.store
           (RFC3339.Format Sample.t0) Sample.t0).
  - reflexivity.
  - reflexivity.
  - reflexivity.
Defined.

(** ** One attempt for each call of [Flush] *)

Lemma watches_snoc log c :
  watches (log ++ [c]) = (watches log + if is_WATCH c then 1 else 0)%nat.
Proof.
  unfold watches. rewrite List.filter_app, length_app. simpl.
  now destruct (is_WATCH c).
Qed.

Lemma quiet_roundtrip {A} c (exec : gmap string rvalue -> result A * gmap string rvalue) :
  is_WATCH c = false -> quiet sent (roundtrip c exec).
Proof.
  intros Hc r. unfold roundtrip.
  destruct (faults r) as [|[e|] fs]; try destruct (exec (db r));
    simpl; rewrite watches_snoc, Hc; lia.
Qed.

Lemma quiet_ret {S A} (log : S -> list command) (a : A) : quiet log (ret a).
Proof. intros s. reflexivity. Qed.

Lemma quiet_fail {S A} (log : S -> list command) e : quiet log (@fail S A e).
Proof. intros s. reflexivity. Qed.

Lemma quiet_liftR {S A} (log : S -> list command) (x : result A) :
  quiet log (liftR x).
Proof. intros s. reflexivity. Qed.

Lemma quiet_bind {S A B} (log : S -> list command) (m : M S A) (k : A -> M S B) :
  quiet log m -> (forall a, quiet log (k a)) -> quiet log (bind m k).
Proof.
  intros Hm Hk s. unfold bind. specialize (Hm s).
  destruct (m s) as [[a|e] s']; simpl in *; [|exact Hm].
  now rewrite Hk.
Qed.

Lemma quiet_wrap {S A} (log : S -> list command) prefix (m : M S A) :
  quiet log m -> quiet log (wrap prefix m).
Proof.
  intros Hm s. unfold wrap. specialize (Hm s).
  destruct (m s) as [[a|e] s']; exact Hm.
Qed.

Lemma quiet_forM_ {S A} (log : S -> list command) (l : list A) (f : A -> M S unit) :
  (forall a, quiet log (f a)) -> quiet log (forM_ l f).
Proof.
  intros Hf. induction l as [|x l IH]; simpl.
  - apply quiet_ret.
  - apply quiet_bind; [apply Hf|intros _; exact IH].
Qed.

Lemma quiet_tx {A} (m : M Redis A) :
  quiet sent m -> quiet (fun s : St => sent (snd s)) (tx m).
Proof.
  intros Hm s. unfold tx. specialize (Hm (snd s)).
  destruct (m (snd s)) as [a r']. exact Hm.
Qed.

Lemma quiet_this : quiet (fun s : St => sent (snd s)) this.
Proof. intros s. reflexivity. Qed.

Lemma quiet_assign t : quiet (fun s : St => sent (snd s)) (assign_flushedAt t).
Proof. intros s. reflexivity. Qed.

Ltac quiet_step :=
  first [ apply quiet_bind; [|intros ?]
        | apply quiet_wrap | apply quiet_tx | apply quiet_forM_; intros ?
        | apply quiet_ret | apply quiet_fail | apply quiet_liftR
        | apply quiet_this | apply quiet_assign
        | apply quiet_roundtrip; reflexivity ].

Section Quiet.
Context `{TimeLayout} `{PipeCodec}.

Lemma quiet_newRedisPipe pipeKey fp rp now :
  quiet sent (newRedisPipe pipeKey fp rp now).
Proof.
  unfold newRedisPipe, HSet. repeat quiet_step.
Qed.

Lemma quiet_addRedisPipeConsumers pipeKey cs :
  quiet sent (addRedisPipeConsumers pipeKey cs).
Proof.
  unfold addRedisPipeConsumers, HSet, HGet. repeat quiet_step.
Qed.

Lemma quiet_flushBuffer2RedisPipe bufferKey pipeKey :
  quiet sent (flushBuffer2RedisPipe bufferKey pipeKey).
Proof.
  unfold flushBuffer2RedisPipe, DrainListInto. repeat quiet_step.
Qed.

Lemma quiet_Flush_fn now now' pipeID :
  quiet (fun s : St => sent (snd s)) (Flush_fn now now' pipeID).
Proof.
  unfold Flush_fn.
  apply quiet_bind; [apply quiet_this|intros b].
  apply quiet_bind; [unfold Get; repeat quiet_step|intros s].
  apply quiet_bind.
  { destruct (String.eqb s ""); [apply quiet_ret|].
    destruct (time_Parse s); repeat quiet_step. }
  intros _. apply quiet_bind; [apply quiet_this|intros b'].
  destruct (Time_Sub now' (flushedAt b') <? FlushPeriod (collection b'));
    [apply quiet_ret|].
  apply quiet_bind; [unfold LLen; repeat quiet_step|intros n].
  destruct (n =? 0).
  - unfold Set_. repeat quiet_step.
  - apply quiet_bind; [apply quiet_wrap, quiet_tx, quiet_newRedisPipe|intros _].
    apply quiet_bind;
      [apply quiet_wrap, quiet_tx, quiet_addRedisPipeConsumers|intros _].
    apply quiet_bind;
      [apply quiet_wrap, quiet_tx, quiet_flushBuffer2RedisPipe|intros _].
    unfold Set_. repeat quiet_step.
Qed.

End Quiet.

(** C2, as the claim words it: refuted. On a wire that lets WATCH pass and
    fails the GET that follows, [Flush] returns the failure of this first
    attempt; the transaction run again would have succeeded. *)
Lemma retries_counterexample :
  ~ @retries_before_failure RFC3339.layout Wire.codec.
Proof.
  intros Hr.
  specialize (Hr (Sample.t0 + 11 * Sample.second) (Sample.t0 + 11 * Sample.second)
                 Sample.id1 Sample.id2 (Sample.buffer, Sample2.flaky_store)).
  vm_compute in Hr. discriminate.
Qed.

(** C2, amended. [Flush] makes one attempt: each call sends WATCH once,
    whatever the wire does, and when the transaction fails the error of this
    attempt is returned to the caller at once, under the prefix [WATCH.];
    there is no retry and no back-off inside [Flush]. *)
Theorem Flush_single_attempt `{TimeLayout} `{PipeCodec}
    (now now' : Time) (outerID innerID : UUID) (s : St) :
  watches (sent (snd (snd (Flush now now' outerID innerID s))))
  = S (watches (sent (snd s)))
  /\ fst (Flush now now' outerID innerID s)
     = match fst (Client_Watch (Flush_fn now now' innerID)
                               (Flush_watched (fst s) outerID) s) with
       | Ok a => Ok a
       | Err e => Err ("WATCH." +:+ e)
       end.
Proof.
  split.
  - unfold Flush, wrap, bind, this. cbn [fst snd].
    assert (Hw : watches (sent (snd (snd (Client_Watch (Flush_fn now now' innerID)
                                  (Flush_watched (fst s) outerID) s))))
                 = S (watches (sent (snd s)))).
    { unfold Client_Watch, Flush_watched. unfold tx at 1.
      assert (Hwatch : forall keys r, watches (sent (snd (Watch_cmd keys r)))
                                      = S (watches (sent r))).
      { intros keys r. unfold Watch_cmd, roundtrip.
        destruct (faults r) as [|[e|] fs]; simpl; rewrite watches_snoc; simpl; lia. }
      specialize (Hwatch (Flush_watched (fst s) outerID) (snd s)).
      unfold Flush_watched in Hwatch.
      destruct (Watch_cmd _ (snd s)) as [[[]|e] r1]; simpl in Hwatch.
      - pose proof (quiet_Flush_fn now now' innerID (fst s, r1)) as Hq.
        destruct (Flush_fn now now' innerID (fst s, r1)) as [err s2].
        pose proof (quiet_tx Unwatch (quiet_roundtrip UNWATCH _ eq_refl) s2) as Hu.
        destruct (tx Unwatch s2) as [u s3]. simpl in *. congruence.
      - pose proof (quiet_tx Unwatch (quiet_roundtrip UNWATCH _ eq_refl) (fst s, r1)) as Hu.
        destruct (tx Unwatch (fst s, r1)) as [u s3]. simpl in *. congruence. }
    destruct (Client_Watch _ _ s) as [[a|e] s']; exact Hw.
  - unfold Flush, wrap, bind, this. cbn [fst snd].
    destruct (Client_Watch _ _ s) as [[a|e] s']; reflexivity.
Qed.

(** ** The text of a UUID *)

Lemma unhex_hexdigit (n : N) : (n < 16)%N -> unhex (hexdigit n) = n.
Proof.
  intros Hn. rewrite <- (N2Nat.id n).
  assert (Hk : (N.to_nat n < 16)%nat) by lia.
  generalize dependent (N.to_nat n). clear. intros k Hk.
  do 16 (destruct k as [|k]; [reflexivity|]). lia.
Qed.

Lemma to_N_lt_256 (b : byte) : (Byte.to_N b < 256)%N.
Proof. pose proof (Byte.to_N_bounded b). lia. Qed.

Lemma hex_byte_inj (b b' : byte) : hex_byte b = hex_byte b' -> b = b'.
Proof.
  unfold hex_byte. intros Heq. injection Heq as Hhi Hlo.
  pose proof (to_N_lt_256 b) as Hb. pose proof (to_N_lt_256 b') as Hb'.
  apply (f_equal unhex) in Hhi, Hlo.
  rewrite !unhex_hexdigit in Hhi, Hlo
    by (try apply N.mod_lt; try apply N.Div0.div_lt_upper_bound; lia).
  assert (Hn : Byte.to_N b = Byte.to_N b').
  { rewrite (N.div_mod (Byte.to_N b) 16), (N.div_mod (Byte.to_N b') 16) by lia.
    congruence. }
  apply (f_equal Byte.of_N) in Hn. rewrite !Byte.of_to_N in Hn. congruence.
Qed.

Ltac uuid_bytes u Hu :=
  unfold wf_UUID in Hu;
  do 16 (destruct u as [|? u]; [discriminate Hu|]);
  destruct u; [|discriminate Hu]; clear Hu.

Lemma UUID_String_length (u : UUID) :
  wf_UUID u -> String.length (UUID_String u) = 36%nat.
Proof. intros Hu. uuid_bytes u Hu. reflexivity. Qed.

Lemma UUID_String_inj (u u' : UUID) :
  wf_UUID u -> wf_UUID u' -> UUID_String u = UUID_String u' -> u = u'.
Proof.
  intros Hu Hu' Heq. uuid_bytes u Hu. uuid_bytes u' Hu'.
  cbv [UUID_String hex_Encode take drop fold_right] in Heq.
  rewrite ?append_cons, ?append_nil_l in Heq.
  unfold hex_byte in Heq. rewrite ?append_cons, ?append_nil_l in Heq.
  injection Heq as ?; intros.
  repeat match goal with
         | |- ?x :: _ = ?y :: _ =>
             assert (x = y) as -> by (apply hex_byte_inj; unfold hex_byte; congruence);
             f_equal
         end.
Qed.

Lemma append_inj_len (a b x y : string) :
  String.length a = String.length b -> a +:+ x = b +:+ y -> a = b /\ x = y.
Proof.
  revert b. induction a as [|c a IH]; intros [|c' b] Hlen Heq;
    try discriminate Hlen.
  - now split.
  - rewrite !append_cons in Heq. injection Heq as -> Heq.
    injection Hlen as Hlen. destruct (IH b Hlen Heq) as [-> ->]. now split.
Qed.

(** ** The watched keys and the keys of the pipe *)

Section WatchedKeys.
Variables (name : string) (outerID innerID : UUID).
Hypothesis wf_outer : wf_UUID outerID.
Hypothesis wf_inner : wf_UUID innerID.
Hypothesis distinct : outerID <> innerID.

Let U := UUID_String innerID.
Let V := UUID_String outerID.

Lemma U_ne_V : U <> V.
Proof.
  intros Heq. apply distinct. symmetry. now apply UUID_String_inj.
Qed.

Lemma UV_suffix (x y : string) : U +:+ x = V +:+ y -> False.
Proof.
  intros Heq. apply append_inj_len in Heq.
  - destruct Heq as [Heq _]. now apply U_ne_V.
  - unfold U, V. now rewrite !UUID_String_length.
Qed.

Lemma pipe_key_unwatched (x : string) :
  let prefix := "bulklog." +:+ name +:+ ".pipes" in
  let watched := ["bulklog." +:+ name +:+ ".buffer";
                  "bulklog." +:+ name +:+ ".flushedAt";
                  prefix +:+ "." +:+ V;
                  (prefix +:+ "." +:+ V) +:+ ".consumers";
                  (prefix +:+ "." +:+ V) +:+ ".buffer"] in
  (prefix +:+ "." +:+ U) +:+ x ∉ watched.
Proof.
  intros prefix watched Hin. subst prefix watched.
  rewrite !append_assoc in Hin.
  repeat (apply elem_of_cons in Hin; destruct Hin as [Heq|Hin]);
    [..|now apply elem_of_nil in Hin];
    do 2 apply append_inj_l in Heq;
    rewrite ?append_cons, ?append_nil_l in Heq;
    try discriminate Heq;
    repeat (injection Heq as Heq).
  - apply (UV_suffix x ""). now rewrite append_nil_r.
  - now apply (UV_suffix x ".consumers").
  - now apply (UV_suffix x ".buffer").
Qed.

End WatchedKeys.

(** C1. The claim fails on the code: [Flush] draws an identifier on line 66
    and makes the watched pipe keys from it, and the function literal draws
    another on line 103 and makes the pipe from that one. For a buffer made
    by the constructor and two distinct identifiers, no key of the pipe the
    transaction creates is in the watch set. *)
Theorem Flush_watch_misses_pipe (collec : Collection) (cs : gset string)
    (t : Time) (r0 : Redis) (outerID innerID : UUID) :
  wf_UUID outerID -> wf_UUID innerID -> outerID <> innerID ->
  let b := fst (RedisBuffer collec cs t r0) in
  forall k, k ∈ pipe_keys b innerID -> k ∉ Flush_watched b outerID.
Proof.
  intros Ho Hi Hne b k Hk.
  pose proof (pipe_key_unwatched (Name collec) outerID innerID Ho Hi Hne) as Hu.
  cbv zeta in Hu. unfold pipe_keys, Flush_watched, b, RedisBuffer in *.
  cbn [fst pipeKeyPrefix bufferKey timeKey] in *.
  repeat (apply elem_of_cons in Hk; destruct Hk as [->|Hk]);
    [| | |now apply elem_of_nil in Hk].
  - specialize (Hu ""). now rewrite append_nil_r in Hu.
  - apply Hu.
  - apply Hu.
Qed.

Lemma Flush_watch_misses_pipe_witness :
  "bulklog.logs.pipes.11121314-1516-1718-191a-1b1c1d1e1f20.buffer"
    ∈ pipe_keys Sample.buffer Sample.id2
  /\ "bulklog.logs.pipes.11121314-1516-1718-191a-1b1c1d1e1f20.buffer"
       ∉ Flush_watched Sample.buffer Sample.id1.
Proof.
  assert (Hin : "bulklog.logs.pipes.11121314-1516-1718-191a-1b1c1d1e1f20.buffer"
                  ∈ pipe_keys Sample.buffer Sample.id2).
  { vm_compute. do 2 apply list_elem_of_further. apply list_elem_of_here. }
  split; [exact Hin|].
  apply (Flush_watch_misses_pipe Sample.logs Sample.sinks Sample.t0
           Sample.empty_store Sample.id1 Sample.id2).
  - reflexivity.
  - reflexivity.
  - discriminate.
  - exact Hin.
Defined.

(** The sample flush: the command sent first watches the keys made from the
    first identifier, and the pipe is made under the second. *)
Example Flush_sample_watch :
  let now := Sample.t0 + 11 * Sample.second in
  let r' := snd (snd (@Flush RFC3339.layout Wire.codec now now Sample.id1
                        Sample.id2 (Sample.buffer, Sample.store))) in
  hd_error (sent r')
  = Some (WATCH ["bulklog.logs.buffer"; "bulklog.logs.flushedAt";
                 "bulklog.logs.pipes.01020304-0506-0708-090a-0b0c0d0e0f10";
                 "bulklog.logs.pipes.01020304-0506-0708-090a-0b0c0d0e0f10.consumers";
                 "bulklog.logs.pipes.01020304-0506-0708-090a-0b0c0d0e0f10.buffer"])
  /\ db r' !! "bulklog.logs.pipes.11121314-1516-1718-191a-1b1c1d1e1f20.buffer"
     = Some (RList ["ZDE="; "ZDI="])
  /\ db r' !! "bulklog.logs.pipes.01020304-0506-0708-090a-0b0c0d0e0f10.buffer"
     = None.
Proof. vm_compute. repeat split. Qed.

(** ** base64: decoding undoes encoding *)

Lemma list_ind_by_three {A} (P : list A -> Prop) :
  P [] -> (forall a, P [a]) -> (forall a b, P [a; b]) ->
  (forall a b c l, P l -> P (a :: b :: c :: l)) ->
  forall l, P l.
Proof.
  intros H0 H1 H2 H3.
  assert (Hall : forall l, P l /\ (forall a, P (a :: l)) /\ (forall a b, P (a :: b :: l))).
  { induction l as [|x l (IH0 & IH1 & IH2)].
    - auto.
    - split; [apply IH1|]. split; [intros a; apply IH2|].
      intros a b. now apply H3. }
  intros l. apply Hall.
Qed.

Lemma byteZ_range (b : byte) : 0 <= byteZ b < 256.
Proof. unfold byteZ. pose proof (to_N_lt_256 b). lia. Qed.

Lemma Zbyte_byteZ (b : byte) (q : Z) : Zbyte (q * 256 + byteZ b) = b.
Proof.
  unfold Zbyte. pose proof (byteZ_range b) as Hb.
  replace ((q * 256 + byteZ b) mod 256) with (byteZ b)
    by (rewrite Z.add_comm, Z.mod_add by lia; now rewrite Z.mod_small).
  unfold byteZ. rewrite N2Z.id. now rewrite Byte.of_to_N.
Qed.

Lemma enc6_not_newline (n : Z) : is_newline (enc6 n) = false.
Proof.
  unfold enc6. generalize (Z.to_nat n). intros k.
  do 64 (destruct k as [|k]; [reflexivity|]). reflexivity.
Qed.

Lemma dec6_enc6 (n : Z) : 0 <= n < 64 -> dec6 (enc6 n) = Some n.
Proof.
  intros Hn. rewrite <- (Z2Nat.id n) by lia.
  assert (Hk : (Z.to_nat n < 64)%nat) by lia.
  generalize dependent (Z.to_nat n). clear. intros k Hk.
  do 64 (destruct k as [|k]; [reflexivity|]). lia.
Qed.

Lemma dec6_padding : dec6 StdPadding = None.
Proof. reflexivity. Qed.

Lemma strip_newlines_EncodeToString :
  forall src, strip_newlines (EncodeToString src) = EncodeToString src.
Proof.
  induction src as [| a | a b | a b c rest IH] using list_ind_by_three;
    cbn [EncodeToString strip_newlines]; rewrite ?enc6_not_newline;
    cbn [is_newline strip_newlines StdPadding Ascii.eqb Bool.eqb orb];
    rewrite ?IH; reflexivity.
Qed.

Lemma sextet_range (v k : Z) : 0 <= v / k mod 64 < 64.
Proof. apply Z.mod_pos_bound. lia. Qed.

Lemma sextets_join (v : Z) :
  0 <= v < 16777216 ->
  (v / 262144 mod 64) * 262144 + (v / 4096 mod 64) * 4096
  + (v / 64 mod 64) * 64 + v mod 64 = v.
Proof. intros Hv. Z.div_mod_to_equations. lia. Qed.

Lemma decode_quanta_EncodeToString :
  forall src, decode_quanta (EncodeToString src) = Ok src.
Proof.
  induction src as [| a | a b | a b c rest IH] using list_ind_by_three.
  - reflexivity.
  - cbn [EncodeToString decode_quanta]. cbv zeta.
    pose proof (byteZ_range a) as Ha.
    rewrite !dec6_enc6 by apply Z.mod_pos_bound, eq_refl.
    rewrite dec6_padding. cbn [Ascii.eqb Bool.eqb StdPadding String.eqb andb].
    replace ((byteZ a * 65536 / 262144 mod 64 * 262144
              + byteZ a * 65536 / 4096 mod 64 * 4096) / 65536)
      with (0 * 256 + byteZ a) by (Z.div_mod_to_equations; lia).
    now rewrite Zbyte_byteZ.
  - cbn [EncodeToString decode_quanta]. cbv zeta.
    pose proof (byteZ_range a) as Ha. pose proof (byteZ_range b) as Hb.
    rewrite !dec6_enc6 by apply Z.mod_pos_bound, eq_refl.
    rewrite dec6_padding. cbn [Ascii.eqb Bool.eqb StdPadding String.eqb andb].
    set (val := byteZ a * 65536 + byteZ b * 256).
    assert (Hj : val / 262144 mod 64 * 262144 + val / 4096 mod 64 * 4096
                 + val / 64 mod 64 * 64 = val).
    { subst val. Z.div_mod_to_equations. lia. }
    rewrite Hj. subst val.
    replace ((byteZ a * 65536 + byteZ b * 256) / 65536) with (0 * 256 + byteZ a)
      by (Z.div_mod_to_equations; lia).
    replace ((byteZ a * 65536 + byteZ b * 256) / 256) with (byteZ a * 256 + byteZ b)
      by (Z.div_mod_to_equations; lia).
    now rewrite !Zbyte_byteZ.
  - cbn [EncodeToString decode_quanta]. cbv zeta.
    pose proof (byteZ_range a) as Ha. pose proof (byteZ_range b) as Hb.
    pose proof (byteZ_range c) as Hc.
    rewrite !dec6_enc6 by apply Z.mod_pos_bound, eq_refl.
    rewrite IH. set (val := byteZ a * 65536 + byteZ b * 256 + byteZ c).
    rewrite (sextets_join val) by (subst val; lia). subst val.
    replace ((byteZ a * 65536 + byteZ b * 256 + byteZ c) / 65536)
      with (0 * 256 + byteZ a) by (Z.div_mod_to_equations; lia).
    replace ((byteZ a * 65536 + byteZ b * 256 + byteZ c) / 256)
      with (byteZ a * 256 + byteZ b) by (Z.div_mod_to_equations; lia).
    replace (byteZ a * 65536 + byteZ b * 256 + byteZ c)
      with ((byteZ a * 256 + byteZ b) * 256 + byteZ c) by lia.
    now rewrite !Zbyte_byteZ.
Qed.

Lemma DecodeString_EncodeToString (src : list byte) :
  DecodeString (EncodeToString src) = Ok src.
Proof.
  unfold DecodeString. rewrite strip_newlines_EncodeToString.
  apply decode_quanta_EncodeToString.
Qed.

(** ** Append *)

Lemma RPush_ok key val r n r' :
  RPush key val r = (Ok n, r') ->
  exists l, match db r !! key with
            | None => l = []
            | Some (RList l0) => l = l0
            | Some _ => False
            end
            /\ db r' = <[key := RList (l ++ [val])]> (db r).
Proof.
  unfold RPush, roundtrip.
  destruct (faults r) as [|[e|] fs]; [| discriminate |];
    (destruct (db r !! key) as [[s|l|h]|] eqn:Hk; intros Heq;
     try discriminate Heq; injection Heq as _ <-; simpl;
     [exists l | exists []]; now split).
Qed.

Lemma RPush_err key val r e r' :
  RPush key val r = (Err e, r') -> db r' = db r.
Proof.
  unfold RPush, roundtrip.
  destruct (faults r) as [|[e0|] fs];
    try (destruct (db r !! key) as [[s|l|h]|]);
    intros Heq; try discriminate Heq; injection Heq as _ <-; reflexivity.
Qed.

Section Appends.
Context `{Gob}.

Lemma Append_ok b doc r r' :
  Append b doc r = (Ok tt, r') ->
  exists buf l,
    gob_Encode doc = Ok buf
    /\ buffer_docs b r = Some l
    /\ db r' = <[bufferKey b := RList (l ++ [EncodeToString buf])]> (db r).
Proof.
  unfold Append. destruct (gob_Encode doc) as [buf|e]; [|discriminate].
  unfold wrap, bind, ret.
  destruct (RPush (bufferKey b) (EncodeToString buf) r) as [[n|e] r1] eqn:Hp;
    [|discriminate].
  intros Heq. injection Heq as <-.
  destruct (RPush_ok _ _ _ _ _ Hp) as (l & Hl & Hdb).
  exists buf, l. split; [reflexivity|]. split; [|exact Hdb].
  unfold buffer_docs. destruct (db r !! bufferKey b) as [[s|l0|h]|];
    try contradiction; congruence.
Qed.

Lemma Append_err b doc r e r' :
  Append b doc r = (Err e, r') ->
  db r' = db r
  /\ (gob_Encode doc = Err e
      \/ exists buf e',
           gob_Encode doc = Ok buf
           /\ fst (RPush (bufferKey b) (EncodeToString buf) r) = Err e'
           /\ e = "(RPUSH collection.buffer docBase64)." +:+ e').
Proof.
  unfold Append. destruct (gob_Encode doc) as [buf|e0].
  - unfold wrap, bind, ret.
    destruct (RPush (bufferKey b) (EncodeToString buf) r) as [[n|e1] r1] eqn:Hp;
      [discriminate|].
    intros Heq. injection Heq as <- <-. split; [now apply RPush_err in Hp|].
    right. exists buf, e1. now rewrite Hp.
  - intros Heq. injection Heq as <- <-. split; [reflexivity|now left].
Qed.

Lemma AppendAll_ok b docs : forall r r' l,
  AppendAll b docs r = (Ok tt, r') ->
  buffer_docs b r = Some l ->
  exists bufs,
    Forall2 (fun doc buf => gob_Encode doc = Ok buf) docs bufs
    /\ buffer_docs b r' = Some (l ++ map EncodeToString bufs)
    /\ (forall k, k <> bufferKey b -> db r' !! k = db r !! k).
Proof.
  unfold AppendAll. induction docs as [|doc docs IH]; intros r r' l; simpl.
  - unfold ret. intros Heq Hl. injection Heq as <-. exists [].
    split; [constructor|]. rewrite app_nil_r. now split.
  - unfold bind. destruct (Append b doc r) as [[[]|e] r1] eqn:Ha; [|discriminate].
    intros Hrest Hl.
    destruct (Append_ok _ _ _ _ Ha) as (buf & l0 & Henc & Hl0 & Hdb).
    assert (l0 = l) as -> by congruence.
    assert (Hl1 : buffer_docs b r1 = Some (l ++ [EncodeToString buf])).
    { unfold buffer_docs. rewrite Hdb. now rewrite lookup_insert_eq. }
    destruct (IH r1 r' _ Hrest Hl1) as (bufs & Hall & Hfinal & Hother).
    exists (buf :: bufs). split; [now constructor|]. split.
    + rewrite Hfinal. simpl. now rewrite <- app_assoc.
    + intros k Hk. rewrite (Hother k Hk). rewrite Hdb. now rewrite lookup_insert_ne.
Qed.

End Appends.

(** C8. A successful [Append] pushes one element, the base64 text of the gob
    serialization of the document, onto the tail of the buffer list and
    changes no other key; a run of successful appends leaves the buffer list
    holding their texts after what it held, in the order of the appends; and
    [Append] fails only when the encoding fails or the RPUSH fails, writing
    nothing in either case. *)
Theorem Append_pushes_one `{Gob} (b : redisBuffer) (r : Redis) :
  (forall doc r',
     Append b doc r = (Ok tt, r') ->
     exists buf l,
       gob_Encode doc = Ok buf
       /\ buffer_docs b r = Some l
       /\ db r' = <[bufferKey b := RList (l ++ [EncodeToString buf])]> (db r))
  /\ (forall docs r' l,
        AppendAll b docs r = (Ok tt, r') ->
        buffer_docs b r = Some l ->
        exists bufs,
          Forall2 (fun doc buf => gob_Encode doc = Ok buf) docs bufs
          /\ buffer_docs b r' = Some (l ++ map EncodeToString bufs)
          /\ (forall k, k <> bufferKey b -> db r' !! k = db r !! k))
  /\ (forall doc e r',
        Append b doc r = (Err e, r') ->
        db r' = db r
        /\ (gob_Encode doc = Err e
            \/ exists buf e',
                 gob_Encode doc = Ok buf
                 /\ fst (RPush (bufferKey b) (EncodeToString buf) r) = Err e'
                 /\ e = "(RPUSH collection.buffer docBase64)." +:+ e')).
Proof.
  split; [|split].
  - intros doc r'. apply Append_ok.
  - intros docs r' l. apply AppendAll_ok.
  - intros doc e r'. apply Append_err.
Qed.

Lemma Append_pushes_one_witness :
  exists r' bufs,
    @AppendAll Tagged.gob Sample.buffer [Sample3.doc1; Sample3.doc2] Sample.store
    = (Ok tt, r')
    /\ Forall2 (fun doc buf => Tagged.encode doc = Ok buf)
               [Sample3.doc1; Sample3.doc2] bufs
    /\ buffer_docs Sample.buffer r'
       = Some (["ZDE="; "ZDI="] ++ map EncodeToString bufs)
    /\ (forall k, k <> "bulklog.logs.buffer" ->
                  db r' !! k = db Sample.store !! k).
Proof.
  eexists. 
  destruct (@Append_pushes_one Tagged.gob Sample.buffer Sample.store)
    as (_ & Hall & _).
  destruct (Hall [Sample3.doc1; Sample3.doc2] _ ["ZDE="; "ZDI="] eq_refl eq_refl)
    as (bufs & H1 & H2 & H3).
  exists bufs. split; [reflexivity|]. split; [exact H1|]. split; [exact H2|exact H3].
Defined.

(** ** NewDocument: which texts are refused *)

Section JsonInduction.
Import JSON.
Variable P : json -> Prop.
Hypothesis Hnull : P JNull.
Hypothesis Hbool : forall b, P (JBool b).
Hypothesis Hnumber : forall lit, P (JNumber lit).
Hypothesis Hstring : forall s, P (JString s).
Hypothesis Harray : forall l, Forall P l -> P (JArray l).
Hypothesis Hobject : forall ms, Forall (fun kv => P (snd kv)) ms -> P (JObject ms).

Lemma json_nested_ind (j : json) : P j.
Proof.
  revert j. fix IH 1. intros [| b | lit | s | l | ms].
  - exact Hnull.
  - apply Hbool.
  - apply Hnumber.
  - apply Hstring.
  - apply Harray. induction l as [|j l IHl]; constructor; [apply IH|exact IHl].
  - apply Hobject. induction ms as [|kv ms IHms]; constructor;
      [apply IH|exact IHms].
Qed.

End JsonInduction.

Section Refusals.
Context `{Float64}.
Import JSON GoJSON.

Lemma decode_members_fits (ms : list (string * json)) :
  Forall (fun kv => is_Some (decode_value (snd kv)) <-> fits (snd kv) = true) ms ->
  forall acc,
    is_Some (decode_members decode_value ms acc)
    <-> forallb (fun kv => fits (snd kv)) ms = true.
Proof.
  induction 1 as [|[k j] ms Hj _ IH]; intros acc; simpl.
  - split; eauto.
  - simpl in Hj. destruct (decode_value j) as [v|].
    + rewrite (proj1 Hj) by eauto. simpl. apply IH.
    + destruct (fits j); [|split; [intros [? ?]; discriminate|discriminate]].
      destruct (proj2 Hj eq_refl); discriminate.
Qed.

Lemma decode_elements_fits (l : list json) :
  Forall (fun j => is_Some (decode_value j) <-> fits j = true) l ->
  is_Some (decode_elements decode_value l) <-> forallb fits l = true.
Proof.
  induction 1 as [|j l Hj _ IH]; simpl; [split; eauto|].
  destruct (decode_value j) as [v|].
  - rewrite (proj1 Hj) by eauto. simpl. rewrite <- IH.
    destruct (decode_elements decode_value l); split; eauto;
      intros [? ?]; discriminate.
  - destruct (fits j); [|split; [intros [? ?]; discriminate|discriminate]].
    destruct (proj2 Hj eq_refl); discriminate.
Qed.

Lemma decode_fits (j : json) : is_Some (decode_value j) <-> fits j = true.
Proof.
  induction j as [| b | lit | s | l IH | ms IH] using json_nested_ind;
    try (simpl; split; eauto; fail).
  - simpl. destruct (ParseFloat lit); split; eauto; try discriminate.
    intros [? ?]; discriminate.
  - cbn [decode_value fits]. rewrite <- (decode_elements_fits l IH).
    destruct (decode_elements decode_value l); split; eauto;
      intros [? ?]; discriminate.
  - cbn [decode_value fits]. rewrite <- (decode_members_fits ms IH []).
    destruct (decode_members decode_value ms []); split; eauto;
      intros [? ?]; discriminate.
Qed.

Lemma decode_object (ms : list (string * json)) :
  match decode_value (JObject ms) with
  | Some (VObject _) => fits (JObject ms) = true
  | Some _ => False
  | None => fits (JObject ms) = false
  end.
Proof.
  pose proof (decode_fits (JObject ms)) as Hf.
  destruct (decode_value (JObject ms)) as [v|] eqn:Hd.
  - cbn [decode_value] in Hd.
    destruct (decode_members decode_value ms []); [|discriminate].
    injection Hd as <-. apply Hf. eauto.
  - destruct (fits (JObject ms)); [|reflexivity].
    destruct (proj2 Hf eq_refl); discriminate.
Qed.

End Refusals.

(** C3, as the claim words it: refuted. The text [null] is valid JSON whose
    top-level value is no object, and [NewDocument] returns a document for
    it, with the body [null]: [json.Unmarshal] leaves a map alone on [null]
    and reports no error. The text holds no number. *)
Lemma NewDocument_null_counterexample :
  ~ @rejects_exactly_non_objects Binary64.codec.
Proof.
  intros Hc.
  specialize (Hc Sample.t0 Sample.id1 "logs" "access"
                 (list_byte_of_string "null")).
  destruct Hc as [_ Hc]. specialize (Hc eq_refl). discriminate Hc.
Qed.

(** C3, amended. [NewDocument] returns the error when the text does not
    parse as JSON, when its top-level value is an array, a string, a number
    or a boolean, and when it is an object in which a number does not fit
    [float64]; for every other text that is a JSON object it returns a
    document, with the identifier, the time and the names it was given, and
    no error. (Nothing is said of the text [null].) *)
Theorem NewDocument_refusals `{Float64} (now : Time) (id : UUID)
    (collectionName schemaName : string) (body : list byte) :
  match JSON.parse (string_of_list_byte body) with
  | None =>
      NewDocument now id collectionName schemaName body = Err ErrUnparsableJSON
  | Some JSON.JNull => True
  | Some (JSON.JObject ms) =>
      if fits (JSON.JObject ms)
      then exists doc,
             NewDocument now id collectionName schemaName body = Ok doc
             /\ ID doc = id /\ PostedAt doc = now
             /\ CollectionName doc = collectionName
             /\ SchemaName doc = schemaName
      else NewDocument now id collectionName schemaName body
           = Err ErrUnparsableJSON
  | Some _ =>
      NewDocument now id collectionName schemaName body = Err ErrUnparsableJSON
  end.
Proof.
  unfold NewDocument, GoJSON.Unmarshal.
  destruct (JSON.parse (string_of_list_byte body)) as [[| b | lit | s | l | ms]|];
    try reflexivity; try exact I.
  pose proof (decode_object ms) as Hd.
  destruct (GoJSON.decode_value (JSON.JObject ms)) as [[| | | | |m]|];
    try contradiction; rewrite Hd; [|reflexivity].
  simpl. eexists. repeat split.
Qed.

(** An object whose number is beyond the largest float is refused, and a
    loosely written object comes out in the form of the encoder. *)
Example NewDocument_samples :
  @NewDocument Binary64.codec Sample.t0 Sample.id1 "logs" "access" Sample4.huge
  = Err ErrUnparsableJSON
  /\ @NewDocument Binary64.codec Sample.t0 Sample.id1 "logs" "access" Sample4.loose
     = Ok (mkDocument Sample.id1 Sample.t0 "logs" "access" Sample4.canonical).
Proof. split; vm_compute; reflexivity. Qed.

(** ** UTF-8: decoding an encoded rune *)

Section Utf8Facts.
Import UTF8 WellFormed.

Lemma code_range (c : ascii) : 0 <= code c < 256.
Proof. unfold code. pose proof (N_ascii_bounded c). lia. Qed.

Lemma code_chr (n : Z) : 0 <= n < 256 -> code (chr n) = n.
Proof.
  intros Hn. unfold code, chr. rewrite N_ascii_embedding by lia. lia.
Qed.

Lemma chr_code (c : ascii) : chr (code c) = c.
Proof. unfold code, chr. rewrite N2Z.id. apply ascii_N_embedding. Qed.

Lemma code_inj (c c' : ascii) : code c = code c' -> c = c'.
Proof. intros Heq. rewrite <- (chr_code c), <- (chr_code c'). now rewrite Heq. Qed.

Lemma between_spec (lo n hi : Z) : between lo n hi = true <-> lo <= n <= hi.
Proof. unfold between. rewrite andb_true_iff, !Z.leb_le. tauto. Qed.

Lemma between_true (lo n hi : Z) : lo <= n <= hi -> between lo n hi = true.
Proof. apply between_spec. Qed.

Lemma between_false (lo n hi : Z) : n < lo \/ hi < n -> between lo n hi = false.
Proof.
  intros Hn. destruct (between lo n hi) eqn:Hb; [|reflexivity].
  apply between_spec in Hb. lia.
Qed.

Lemma EncodeRune_encoded (r : Z) :
  WellFormed.wide r -> encoded r (EncodeRune r).
Proof.
  intros [Hr Hs]. unfold EncodeRune.
  rewrite (between_false 0 r 127) by lia.
  destruct (Z.le_gt_cases r 2047) as [H2|H2].
  { rewrite (between_true 128 r 2047) by lia. unfold encode2.
    apply encoded2; Z.div_mod_to_equations; lia. }
  rewrite (between_false 128 r 2047) by lia.
  rewrite (between_false 55296 r 57343) by lia.
  destruct (Z.le_gt_cases r 65535) as [H3|H3].
  { rewrite (between_true 2048 r 65535) by lia. unfold encode3.
    apply encoded3; Z.div_mod_to_equations; lia. }
  rewrite (between_false 2048 r 65535) by lia.
  rewrite (between_true 65536 r 1114111) by lia. unfold encode4.
  apply encoded4; Z.div_mod_to_equations; lia.
Qed.

Lemma DecodeRune_encoded (r : Z) (e s : string) :
  encoded r e ->
  DecodeRune (e +:+ s) = (r, String.length e)
  /\ (2 <= String.length e <= 4)%nat
  /\ sdrop (String.length e) (e +:+ s) = s
  /\ stake (String.length e) (e +:+ s) = e.
Proof.
  intros He. destruct He as [b0 b1 H0 H1 ->|b0 b1 b2 H0 H1 H2 Hlo Hhi ->
                            |b0 b1 b2 b3 H0 H1 H2 H3 Hlo Hhi ->];
    (split; [|split; [simpl; lia|split; reflexivity]]);
    rewrite ?append_cons, ?append_nil_l; unfold DecodeRune;
    rewrite !code_chr by lia.
  - destruct (Z.ltb_spec b0 128); [lia|].
    rewrite (between_true 194 b0 223), (between_true 128 b1 191) by lia.
    reflexivity.
  - destruct (Z.ltb_spec b0 128); [lia|].
    rewrite (between_false 194 b0 223), (between_true 224 b0 239) by lia.
    rewrite (between_true 128 b2 191) by lia.
    rewrite between_true; [reflexivity|].
    destruct (Z.eqb_spec b0 224), (Z.eqb_spec b0 237); lia.
  - destruct (Z.ltb_spec b0 128); [lia|].
    rewrite (between_false 194 b0 223), (between_false 224 b0 239),
      (between_true 240 b0 244) by lia.
    rewrite (between_true 128 b2 191), (between_true 128 b3 191) by lia.
    rewrite between_true; [reflexivity|].
    destruct (Z.eqb_spec b0 240), (Z.eqb_spec b0 244); lia.
Qed.

(** Every byte of the encoding of a wide rune is above the ASCII range. *)
Lemma encoded_high (r : Z) (e : string) :
  encoded r e -> Forall (fun c => 128 <= code c) (list_ascii_of_string e).
Proof.
  intros [b0 b1 H0 H1 _|b0 b1 b2 H0 H1 H2 _ _ _|b0 b1 b2 b3 H0 H1 H2 H3 _ _ _];
    simpl; repeat constructor; rewrite code_chr; lia.
Qed.

End Utf8Facts.


(** ** Strings of JSON: what [unquote] returns is well-formed *)

Section UnquoteFacts.
Import UTF8 WellFormed JSON.

Lemma utf8_EncodeRune (r : Z) (s : string) : utf8 s -> utf8 (EncodeRune r +:+ s).
Proof.
  intros Hs.
  assert (Hrep : utf8 (encode3 RuneError +:+ s)).
  { change (encode3 RuneError) with (EncodeRune RuneError).
    apply utf8_wide; [|exact Hs]. unfold wide, RuneError. lia. }
  destruct (Z.le_gt_cases 0 r) as [H0|H0].
  - destruct (Z.le_gt_cases r 127) as [H1|H1].
    + unfold EncodeRune. rewrite between_true by lia. rewrite append_cons, append_nil_l.
      apply utf8_ascii; [rewrite code_chr; lia|exact Hs].
    + destruct (Z.le_gt_cases r 1114111) as [H2|H2].
      * destruct (Z.le_gt_cases 55296 r) as [H3|H3];
          [destruct (Z.le_gt_cases r 57343) as [H4|H4]|].
        -- unfold EncodeRune.
           rewrite (between_false 0 r 127), (between_false 128 r 2047),
             (between_true 55296 r 57343) by lia. exact Hrep.
        -- apply utf8_wide; [unfold wide; lia|exact Hs].
        -- apply utf8_wide; [unfold wide; lia|exact Hs].
      * unfold EncodeRune.
        rewrite (between_false 0 r 127), (between_false 128 r 2047),
          (between_false 55296 r 57343), (between_false 2048 r 65535),
          (between_false 65536 r 1114111) by lia. exact Hrep.
  - unfold EncodeRune.
    rewrite (between_false 0 r 127), (between_false 128 r 2047),
      (between_false 55296 r 57343), (between_false 2048 r 65535),
      (between_false 65536 r 1114111) by lia. exact Hrep.
Qed.

Lemma unescape_ascii (e x : ascii) : unescape e = Some x -> code x < 128.
Proof.
  unfold unescape. intros Hx.
  repeat match type of Hx with
         | (if ?b then _ else _) = _ => destruct b eqn:?
         end; try discriminate Hx; injection Hx as <-;
    rewrite ?code_chr by lia; try lia.
Qed.

Lemma utf8_unquote (fuel : nat) : forall s, utf8 (unquote fuel s).
Proof.
  induction fuel as [|fuel IH]; intros s; simpl; [constructor|].
  destruct s as [|c s]; [constructor|].
  destruct (code c =? 92).
  - destruct s as [|e s]; [constructor|].
    destruct (code e =? 117).
    + destruct (getu4 _) as [rr|]; [|constructor].
      destruct (IsSurrogate rr).
      * match goal with |- context [if ?b then _ else _] => destruct b end;
          apply utf8_EncodeRune, IH.
      * apply utf8_EncodeRune, IH.
    + destruct (unescape e) as [x|] eqn:Hx; [|constructor].
      apply utf8_ascii; [now apply unescape_ascii in Hx|apply IH].
  - destruct (Z.ltb_spec (code c) 128).
    + apply utf8_ascii; [assumption|apply IH].
    + destruct (DecodeRune (String c s)) as [rr size].
      apply utf8_EncodeRune, IH.
Qed.

Lemma sdrop_length (n : nat) : forall s,
  String.length (sdrop n s) = (String.length s - n)%nat.
Proof.
  induction n as [|n IH]; intros [|c s]; simpl; try reflexivity. apply IH.
Qed.

Lemma DecodeRune_size (c : ascii) (s : string) :
  (1 <= snd (DecodeRune (String c s)))%nat.
Proof.
  unfold DecodeRune.
  repeat match goal with
         | |- context [if ?b then _ else _] => destruct b
         | |- context [match ?x with EmptyString => _ | String _ _ => _ end] =>
             destruct x
         end; simpl; lia.
Qed.

(** Fuel past the length of the literal changes nothing. *)
Lemma unquote_enough (f1 : nat) : forall f2 s,
  (String.length s <= f1)%nat -> (String.length s <= f2)%nat ->
  unquote f1 s = unquote f2 s.
Proof.
  induction f1 as [|f1 IH]; intros f2 s H1 H2.
  - destruct s; [|simpl in H1; lia]. now destruct f2.
  - destruct f2 as [|f2]; [destruct s; [reflexivity|simpl in H2; lia]|].
    destruct s as [|c s]; [reflexivity|]. simpl in H1, H2.
    cbn [unquote].
    destruct (code c =? 92).
    + destruct s as [|e s]; [reflexivity|]. simpl in H1, H2.
      destruct (code e =? 117).
      * destruct (getu4 _) as [rr|]; [|reflexivity].
        assert (Hd : forall n, (1 <= n)%nat ->
                  (String.length (sdrop n (String c (String e s))) <= f1)%nat
                  /\ (String.length (sdrop n (String c (String e s))) <= f2)%nat).
        { intros n Hn. rewrite sdrop_length. simpl. lia. }
        assert (Hdd : (String.length (sdrop 6 (sdrop 6 (String c (String e s)))) <= f1)%nat
                  /\ (String.length (sdrop 6 (sdrop 6 (String c (String e s)))) <= f2)%nat).
        { rewrite !sdrop_length. simpl. lia. }
        destruct (IsSurrogate rr).
        -- match goal with |- context [if ?b then _ else _] => destruct b end;
             f_equal; apply IH; first [apply Hd; lia | apply Hdd].
        -- f_equal. apply IH; apply Hd; lia.
      * destruct (unescape e); [|reflexivity]. f_equal. apply IH; lia.
    + destruct (code c <? 128).
      * f_equal. apply IH; lia.
      * pose proof (DecodeRune_size c s) as Hsz.
        destruct (DecodeRune (String c s)) as [rr size]. simpl in Hsz.
        f_equal. apply IH; rewrite sdrop_length; simpl; lia.
Qed.

End UnquoteFacts.


(** ** Strings of JSON: scanning and unquoting what the encoder quotes *)

Section QuoteFacts.
Import UTF8 WellFormed JSON GoJSON.

Lemma quote_body_enough (f1 : nat) : forall f2 s,
  (String.length s <= f1)%nat -> (String.length s <= f2)%nat ->
  quote_body f1 s = quote_body f2 s.
Proof.
  induction f1 as [|f1 IH]; intros f2 s H1 H2.
  - destruct s; [|simpl in H1; lia]. now destruct f2.
  - destruct f2 as [|f2]; [destruct s; [reflexivity|simpl in H2; lia]|].
    destruct s as [|c s]; [reflexivity|]. simpl in H1, H2.
    cbn [quote_body].
    destruct (code c <? 128).
    + f_equal. apply IH; lia.
    + pose proof (DecodeRune_size c s) as Hsz.
      destruct (DecodeRune (String c s)) as [rr size]. simpl in Hsz.
      destruct ((rr =? RuneError) && Nat.eqb size 1).
      * f_equal. apply IH; lia.
      * rewrite (IH f2 (sdrop size (String c s)))
          by (rewrite sdrop_length; simpl; lia).
        reflexivity.
Qed.

Ltac norm_append :=
  repeat match goal with
         | |- context [String ?c ?s +:+ ?t] =>
             change (String c s +:+ t) with (String c (s +:+ t))
         | |- context [EmptyString +:+ ?t] => change (EmptyString +:+ t) with t
         end.

Ltac ascii_cases c H :=
  destruct c as [[] [] [] [] [] [] [] []];
  try (exfalso; vm_compute in H; discriminate H);
  match goal with
  | |- context [escape_ascii ?c] =>
      let e := eval vm_compute in (escape_ascii c) in
      change (escape_ascii c) with e
  end;
  rewrite ?append_cons, ?append_nil_l.

Lemma scan_escape_ascii (c : ascii) (X : string) :
  code c < 128 ->
  scan_string (escape_ascii c +:+ X)
  = match scan_string X with
    | Some (raw, rest) => Some (escape_ascii c +:+ raw, rest)
    | None => None
    end.
Proof.
  intros H. ascii_cases c H; cbn; destruct (scan_string X) as [[raw rest]|];
    reflexivity.
Qed.

Lemma unquote_escape_ascii (c : ascii) (X : string) (f : nat) :
  code c < 128 ->
  (String.length (escape_ascii c +:+ X) <= f)%nat ->
  unquote f (escape_ascii c +:+ X) = String c (unquote (String.length X) X).
Proof.
  intros H. ascii_cases c H; intros Hlen; simpl in Hlen;
    (destruct f as [|f]; [lia|]); cbn;
    rewrite ?append_cons, ?append_nil_l; f_equal;
    apply unquote_enough; lia.
Qed.


Lemma scan_high (c : ascii) (X : string) :
  128 <= code c ->
  scan_string (String c X)
  = match scan_string X with
    | Some (raw, rest) => Some (String c raw, rest)
    | None => None
    end.
Proof.
  intros Hc. cbn [scan_string].
  destruct (Z.eqb_spec (code c) 34); [lia|].
  destruct (Z.eqb_spec (code c) 92); [lia|].
  destruct (Z.ltb_spec (code c) 32); [lia|]. reflexivity.
Qed.

Lemma scan_encoded (r : Z) (e X : string) :
  encoded r e ->
  scan_string (e +:+ X)
  = match scan_string X with
    | Some (raw, rest) => Some (e +:+ raw, rest)
    | None => None
    end.
Proof.
  intros He. pose proof (encoded_high r e He) as Hh.
  destruct He; simpl in Hh;
    repeat match goal with
           | H : Forall _ (_ :: _) |- _ => inversion H; subst; clear H
           end;
    rewrite ?append_cons, ?append_nil_l, !scan_high by assumption;
    destruct (scan_string X) as [[raw rest]|]; reflexivity.
Qed.

Lemma encoded_head (r : Z) (e : string) :
  encoded r e -> exists c e', e = String c e' /\ 128 <= code c.
Proof.
  intros He. pose proof (encoded_high r e He) as Hh.
  destruct He; simpl in Hh; inversion Hh; subst; eauto.
Qed.

Lemma quote_body_wide (r : Z) (s : string) (f : nat) :
  wide r ->
  quote_body (S f) (EncodeRune r +:+ s)
  = (if line_separator r
     then "\u202" +:+ String (hex4 (r mod 16)) ""
     else EncodeRune r) +:+ quote_body f s.
Proof.
  intros Hw. pose proof (EncodeRune_encoded r Hw) as He.
  destruct (DecodeRune_encoded r _ s He) as (Hdec & Hlen & Hdrop & Htake).
  destruct (encoded_head r _ He) as (c & e' & Heq & Hc).
  rewrite Heq in *. rewrite append_cons in *. cbn [quote_body].
  destruct (Z.ltb_spec (code c) 128); [lia|].
  rewrite Hdec. 
  replace (Nat.eqb (String.length (String c e')) 1) with false
    by (symmetry; apply Nat.eqb_neq; lia).
  rewrite andb_false_r. rewrite Hdrop, Htake.
  destruct (line_separator r); [|reflexivity].
  rewrite !append_cons, append_nil_l. reflexivity.
Qed.

Lemma unquote_wide (r : Z) (X : string) (f : nat) :
  wide r ->
  (String.length (EncodeRune r +:+ X) <= f)%nat ->
  unquote f (EncodeRune r +:+ X) = EncodeRune r +:+ unquote (String.length X) X.
Proof.
  intros Hw Hlen. pose proof (EncodeRune_encoded r Hw) as He.
  destruct (DecodeRune_encoded r _ X He) as (Hdec & Hl & Hdrop & Htake).
  destruct (encoded_head r _ He) as (c & e' & Heq & Hc).
  rewrite append_length in Hlen.
  rewrite Heq in *. rewrite append_cons in *. simpl in Hlen.
  destruct f as [|f]; [lia|]. cbn [unquote].
  destruct (Z.eqb_spec (code c) 92); [lia|].
  destruct (Z.ltb_spec (code c) 128); [lia|].
  rewrite Hdec, Hdrop, Heq. f_equal. apply unquote_enough; lia.
Qed.

Lemma unquote_line_separator (r : Z) (X : string) (f : nat) :
  line_separator r = true ->
  (6 + String.length X <= f)%nat ->
  unquote f (("\u202" +:+ String (hex4 (r mod 16)) "") +:+ X)
  = EncodeRune r +:+ unquote (String.length X) X.
Proof.
  unfold line_separator. rewrite orb_true_iff, !Z.eqb_eq.
  intros Hr Hlen. destruct f as [|f]; [lia|].
  destruct Hr as [-> | ->];
    match goal with
    | |- context [hex4 ?n] =>
        let h := eval vm_compute in (hex4 n) in change (hex4 n) with h
    end;
    match goal with
    | |- context [EncodeRune ?n] =>
        let h := eval vm_compute in (EncodeRune n) in change (EncodeRune n) with h
    end;
    rewrite ?append_cons, ?append_nil_l; cbn;
    rewrite ?append_cons, ?append_nil_l;
    rewrite (unquote_enough f (String.length X) X) by lia; reflexivity.
Qed.

Lemma scan_line_separator (r : Z) (X : string) :
  line_separator r = true ->
  scan_string (("\u202" +:+ String (hex4 (r mod 16)) "") +:+ X)
  = match scan_string X with
    | Some (raw, rest) =>
        Some (("\u202" +:+ String (hex4 (r mod 16)) "") +:+ raw, rest)
    | None => None
    end.
Proof.
  unfold line_separator. rewrite orb_true_iff, !Z.eqb_eq.
  intros [-> | ->];
    match goal with
    | |- context [hex4 ?n] =>
        let h := eval vm_compute in (hex4 n) in change (hex4 n) with h
    end;
    norm_append; cbn;
    destruct (scan_string X) as [[raw rest]|]; reflexivity.
Qed.

(** The text between the quotes of an encoded string scans up to the closing
    quote and unquotes to the string. *)
Lemma quoted_reads_back (s : string) :
  utf8 s ->
  forall rest,
    scan_string (quote_body (String.length s) s +:+ String dquote rest)
    = Some (quote_body (String.length s) s, rest)
    /\ Unquote (quote_body (String.length s) s) = s.
Proof.
  unfold Unquote.
  induction 1 as [|c s Hc Hs IH|r s Hw Hs IH]; intros rest.
  - split; reflexivity.
  - destruct (IH rest) as [IHs IHu]. cbn [String.length quote_body].
    apply Z.ltb_lt in Hc. rewrite Hc. apply Z.ltb_lt in Hc. split.
    + rewrite append_assoc, scan_escape_ascii by assumption. now rewrite IHs.
    + rewrite unquote_escape_ascii by (assumption || lia). now rewrite IHu.
  - destruct (IH rest) as [IHs IHu].
    pose proof (EncodeRune_encoded r Hw) as He.
    destruct (DecodeRune_encoded r _ s He) as (_ & Hl & _ & _).
    rewrite append_length.
    destruct (String.length (EncodeRune r)) as [|n] eqn:Hn; [lia|].
    cbn [Nat.add]. rewrite quote_body_wide by assumption.
    rewrite (quote_body_enough (n + String.length s) (String.length s) s) by lia.
    destruct (line_separator r) eqn:Hsep.
    + split.
      * rewrite append_assoc, scan_line_separator by assumption. now rewrite IHs.
      * rewrite unquote_line_separator; [now rewrite IHu|assumption|].
        rewrite append_length. simpl. lia.
    + split.
      * rewrite append_assoc, (scan_encoded r) by assumption. now rewrite IHs.
      * rewrite unquote_wide by (assumption || lia). now rewrite IHu.
Qed.

End QuoteFacts.


(** ** Numbers of JSON: a literal followed by a delimiter *)

Section NumberFacts.
Import UTF8 JSON WellFormed.

Lemma span_digits_app (s rest : string) : forall ds r,
  ends_number rest ->
  span_digits s = (ds, r) ->
  span_digits (s +:+ rest) = (ds, r +:+ rest).
Proof.
  induction s as [|c s IH]; intros ds r Hrest Hs.
  - injection Hs as <- <-. rewrite !append_nil_l.
    destruct rest as [|c t]; [reflexivity|]. simpl.
    destruct Hrest as [-> _]. reflexivity.
  - rewrite append_cons. simpl in *. destruct (is_digit c).
    + destruct (span_digits s) as [ds' r']. injection Hs as <- <-.
      now rewrite (IH ds' r' Hrest eq_refl).
    + injection Hs as <- <-. now rewrite append_cons.
Qed.

Lemma scan_int_app (s rest i r : string) :
  ends_number rest ->
  scan_int s = Some (i, r) ->
  scan_int (s +:+ rest) = Some (i, r +:+ rest).
Proof.
  intros Hrest. destruct s as [|c s]; [discriminate|]. rewrite append_cons.
  simpl. destruct (code c =? 48).
  - intros Heq. injection Heq as <- <-. reflexivity.
  - destruct (is_digit c); [|discriminate].
    destruct (span_digits s) as [ds r'] eqn:Hs. intros Heq.
    injection Heq as <- <-. now rewrite (span_digits_app s rest ds r' Hrest Hs).
Qed.

Lemma scan_frac_app (s rest f r : string) :
  ends_number rest ->
  scan_frac s = Some (f, r) ->
  scan_frac (s +:+ rest) = Some (f, r +:+ rest).
Proof.
  intros Hrest. destruct s as [|c s].
  - intros Heq. injection Heq as <- <-. rewrite !append_nil_l.
    destruct rest as [|c t]; [reflexivity|]. simpl.
    destruct Hrest as (_ & Hdot & _).
    destruct (Z.eqb_spec (code c) 46); [contradiction|reflexivity].
  - rewrite append_cons. simpl. destruct (code c =? 46).
    + destruct (span_digits s) as [ds r'] eqn:Hs.
      rewrite (span_digits_app s rest ds r' Hrest Hs).
      destruct ds; [discriminate|]. intros Heq. now injection Heq as <- <-.
    + intros Heq. injection Heq as <- <-. now rewrite append_cons.
Qed.

Lemma scan_exp_app (s rest e r : string) :
  ends_number rest ->
  scan_exp s = Some (e, r) ->
  scan_exp (s +:+ rest) = Some (e, r +:+ rest).
Proof.
  intros Hrest. destruct s as [|c s].
  - intros Heq. injection Heq as <- <-. rewrite !append_nil_l.
    destruct rest as [|c t]; [reflexivity|]. simpl.
    destruct Hrest as (_ & _ & He & HE).
    destruct (Z.eqb_spec (code c) 101); [contradiction|].
    destruct (Z.eqb_spec (code c) 69); [contradiction|reflexivity].
  - rewrite append_cons. simpl. destruct ((code c =? 101) || (code c =? 69)).
    + assert (Hsign : scan_sign (s +:+ rest)
                = (fst (scan_sign s), snd (scan_sign s) +:+ rest)
                \/ s = EmptyString).
      { destruct s as [|c' s]; [now right|left]. rewrite append_cons. simpl.
        destruct ((code c' =? 43) || (code c' =? 45)); reflexivity. }
      destruct Hsign as [Hsign| ->].
      * rewrite Hsign. destruct (scan_sign s) as [sg s']. simpl.
        destruct (span_digits s') as [ds r'] eqn:Hs.
        rewrite (span_digits_app s' rest ds r' Hrest Hs).
        destruct ds; [discriminate|]. intros Heq. now injection Heq as <- <-.
      * simpl. discriminate.
    + intros Heq. injection Heq as <- <-. now rewrite append_cons.
Qed.

(** A whole number literal, followed by what ends a number, scans as itself
    and leaves what follows. *)
Lemma scan_number_app (lit rest : string) :
  ends_number rest ->
  scan_number lit = Some (lit, EmptyString) ->
  scan_number (lit +:+ rest) = Some (lit, rest).
Proof.
  intros Hrest. unfold scan_number.
  assert (Hsplit : forall s,
             (match s +:+ rest with
              | String c t => if code c =? 45 then (String c "", t) else ("", s +:+ rest)
              | EmptyString => ("", s +:+ rest)
              end)
             = (let '(sg, s1) := match s with
                                | String c t => if code c =? 45 then (String c "", t) else ("", s)
                                | EmptyString => ("", s)
                                end in (sg, s1 +:+ rest))
             \/ s = EmptyString).
  { intros [|c s]; [now right|left]. rewrite append_cons.
    destruct (code c =? 45); [reflexivity|]. now rewrite append_cons. }
  destruct (Hsplit lit) as [Hs| ->]; [|discriminate].
  rewrite Hs.
  destruct (match lit with
            | String c t => if code c =? 45 then (String c "", t) else ("", lit)
            | EmptyString => ("", lit)
            end) as [sg s1].
  destruct (scan_int s1) as [[i s2]|] eqn:Hi; [|discriminate].
  rewrite (scan_int_app _ _ _ _ Hrest Hi).
  destruct (scan_frac s2) as [[f s3]|] eqn:Hf; [|discriminate].
  rewrite (scan_frac_app _ _ _ _ Hrest Hf).
  destruct (scan_exp s3) as [[e s4]|] eqn:He; [|discriminate].
  rewrite (scan_exp_app _ _ _ _ Hrest He).
  intros Heq. injection Heq as -> ->. reflexivity.
Qed.

(** A number literal starts with a minus or a digit. *)
Lemma scan_number_head (lit : string) :
  scan_number lit = Some (lit, EmptyString) ->
  exists c t, lit = String c t /\ (code c = 45 \/ is_digit c = true).
Proof.
  unfold scan_number. destruct lit as [|c t]; [discriminate|].
  intros Hs. exists c, t. split; [reflexivity|].
  destruct (Z.eqb_spec (code c) 45) as [|Hne]; [now left|right].
  simpl in Hs. destruct (Z.eqb_spec (code c) 48) as [H0|H0].
  - unfold is_digit. rewrite H0. reflexivity.
  - destruct (is_digit c); [reflexivity|discriminate].
Qed.

End NumberFacts.


(** ** The parser on the texts of the encoder *)

Section ValueInduction.
Context `{Float64}.
Import GoJSON.
Variable P : value -> Prop.
Hypothesis Hnull : P VNull.
Hypothesis Hbool : forall b, P (VBool b).
Hypothesis Hnumber : forall f, P (VNumber f).
Hypothesis Hstring : forall s, P (VString s).
Hypothesis Harray : forall l, Forall P l -> P (VArray l).
Hypothesis Hobject : forall m, Forall (fun kv => P (snd kv)) m -> P (VObject m).

Lemma value_nested_ind (v : value) : P v.
Proof.
  revert v. fix IH 1. intros [| b | f | s | l | m].
  - exact Hnull.
  - apply Hbool.
  - apply Hnumber.
  - apply Hstring.
  - apply Harray. induction l as [|v l IHl]; constructor; [apply IH|exact IHl].
  - apply Hobject. induction m as [|kv m IHm]; constructor; [apply IH|exact IHm].
Qed.

End ValueInduction.

Section ParserSteps.
Import UTF8 JSON WellFormed.

Lemma skip_space_head (c : ascii) (t : string) :
  is_space c = false -> skip_space (String c t) = String c t.
Proof. intros Hc. simpl. now rewrite Hc. Qed.

Lemma delimited_head (rest : string) :
  delimited rest -> skip_space rest = rest /\ ends_number rest.
Proof.
  destruct rest as [|c t]; [now split|]. intros Hc. simpl in Hc.
  assert (Hs : is_space c = false).
  { unfold is_space. destruct Hc as [-> | [-> | ->]]; reflexivity. }
  split; [now apply skip_space_head|]. simpl. unfold is_digit.
  destruct Hc as [-> | [-> | ->]]; repeat split; discriminate.
Qed.

Lemma parse_value_null f rest :
  parse_value (S f) ("null" +:+ rest) = Some (JNull, rest).
Proof. reflexivity. Qed.

Lemma parse_value_true f rest :
  parse_value (S f) ("true" +:+ rest) = Some (JBool true, rest).
Proof. reflexivity. Qed.

Lemma parse_value_false f rest :
  parse_value (S f) ("false" +:+ rest) = Some (JBool false, rest).
Proof. reflexivity. Qed.

Lemma parse_value_string f X :
  parse_value (S f) (String dquote X)
  = match scan_string X with
    | Some (raw, rest) => Some (JString (Unquote raw), rest)
    | None => None
    end.
Proof. reflexivity. Qed.

Lemma parse_value_array f X :
  parse_value (S f) (String "[" X)
  = match head_is 93 (skip_space X) with
    | Some rest => Some (JArray [], rest)
    | None => parse_elements f X []
    end.
Proof. reflexivity. Qed.

Lemma parse_value_object f X :
  parse_value (S f) (String "{" X)
  = match head_is 125 (skip_space X) with
    | Some rest => Some (JObject [], rest)
    | None => parse_members f X []
    end.
Proof. reflexivity. Qed.

Lemma parse_elements_step f s acc :
  parse_elements (S f) s acc
  = match parse_value f s with
    | None => None
    | Some (v, rest) =>
        match head_is 44 (skip_space rest) with
        | Some rest' => parse_elements f rest' (acc ++ [v])
        | None =>
            match head_is 93 (skip_space rest) with
            | Some rest' => Some (JArray (acc ++ [v]), rest')
            | None => None
            end
        end
    end.
Proof. reflexivity. Qed.

Lemma parse_members_step f X acc :
  parse_members (S f) (String dquote X) acc
  = match scan_string X with
    | None => None
    | Some (raw, s2) =>
        match head_is 58 (skip_space s2) with
        | None => None
        | Some s3 =>
            match parse_value f s3 with
            | None => None
            | Some (v, rest) =>
                match head_is 44 (skip_space rest) with
                | Some rest' =>
                    parse_members f rest' (acc ++ [(Unquote raw, v)])
                | None =>
                    match head_is 125 (skip_space rest) with
                    | Some rest' =>
                        Some (JObject (acc ++ [(Unquote raw, v)]), rest')
                    | None => None
                    end
                end
            end
        end
    end.
Proof. reflexivity. Qed.

Lemma head_is_other (n : Z) (c : ascii) (t : string) :
  code c <> n -> head_is n (String c t) = None.
Proof. intros Hc. simpl. now destruct (Z.eqb_spec (code c) n). Qed.

Lemma number_head_cases (c : ascii) :
  code c = 45 \/ is_digit c = true -> In c number_heads.
Proof.
  intros Hc.
  destruct c as [[] [] [] [] [] [] [] []];
    try (exfalso; destruct Hc as [Hc|Hc]; vm_compute in Hc; discriminate Hc);
    simpl; tauto.
Qed.

Lemma parse_value_number f c t :
  code c = 45 \/ is_digit c = true ->
  parse_value (S f) (String c t)
  = match scan_number (String c t) with
    | Some (lit, rest) => Some (JNumber lit, rest)
    | None => None
    end
  /\ is_space c = false /\ code c <> 93.
Proof.
  intros Hc. apply number_head_cases in Hc. unfold number_heads in Hc.
  simpl in Hc.
  repeat (destruct Hc as [<-|Hc]; [split; [reflexivity|split; [reflexivity|discriminate]]|]).
  contradiction.
Qed.

End ParserSteps.


Section ParseEncoded.
Context `{Float64}.
Import UTF8 JSON GoJSON WellFormed.

Lemma quote_app (s rest : string) :
  quote s +:+ rest
  = String dquote (quote_body (String.length s) s +:+ String dquote rest).
Proof.
  unfold quote. rewrite append_cons, append_assoc, append_cons, append_nil_l.
  reflexivity.
Qed.

(** An encoded value starts with a character that is neither white space
    nor a closing bracket. *)
Lemma encode_head (v : value) :
  reads_back v ->
  exists c t, encode_value v = String c t /\ is_space c = false
              /\ code c <> 93.
Proof.
  destruct v as [| [] | f | s | l | m]; intros Hr;
    try (eexists _, _; split; [reflexivity|split; [reflexivity|discriminate]]).
  destruct Hr as [Hscan _].
  destruct (scan_number_head _ Hscan) as (c & t & Heq & Hc).
  destruct (parse_value_number 0 c t Hc) as (_ & Hs & Hb).
  exists c, t. simpl. auto.
Qed.

Lemma parse_elements_encoded (v : value) (l : list value) :
  Forall parses_back (v :: l) ->
  fold_right (fun v P => value_ok v /\ P) True (v :: l) ->
  fold_right (fun v P => reads_back v /\ P) True (v :: l) ->
  forall fuel acc rest,
    (fold_right (fun v n => S (weight v + n)) O (v :: l) <= fuel)%nat ->
    parse_elements fuel (join "," (map encode_value (v :: l)) +:+ String "]" rest) acc
    = Some (JArray (acc ++ map json_of (v :: l)), rest).
Proof.
  revert v. induction l as [|v' l IH]; intros v Hall Hok Hrb fuel acc rest Hfuel.
  - inversion Hall as [|? ? Hv _]; subst. destruct Hok as [Hok _].
    destruct Hrb as [Hrb _]. simpl in Hfuel.
    destruct fuel as [|fuel]; [lia|]. rewrite parse_elements_step. simpl join.
    rewrite (Hv Hok Hrb fuel (String "]" rest)) by (simpl; auto; lia).
    reflexivity.
  - inversion Hall as [|? ? Hv Hall']; subst. destruct Hok as [Hok Hok'].
    destruct Hrb as [Hrb Hrb']. 
    cbn [fold_right] in Hfuel.
    destruct fuel as [|fuel]; [lia|]. rewrite parse_elements_step.
    change (join "," (map encode_value (v :: v' :: l)))
      with (encode_value v +:+ "," +:+ join "," (map encode_value (v' :: l))).
    rewrite !append_assoc. rewrite append_cons, append_nil_l.
    rewrite (Hv Hok Hrb fuel) by (simpl; auto; lia).
    rewrite skip_space_head by reflexivity. cbn [head_is].
    change (code "," =? 44) with true. cbv iota.
    rewrite (IH v' Hall' Hok' Hrb' fuel (acc ++ [json_of v]) rest)
      by (cbn [fold_right]; lia).
    rewrite <- app_assoc. reflexivity.
Qed.


Lemma parse_members_encoded (kv : string * value) (m : list (string * value)) :
  Forall (fun kv => parses_back (snd kv)) (kv :: m) ->
  fold_right (fun kv P => utf8 (fst kv) /\ value_ok (snd kv) /\ P) True (kv :: m) ->
  fold_right (fun kv P => reads_back (snd kv) /\ P) True (kv :: m) ->
  forall fuel acc rest,
    (fold_right (fun kv n => S (weight (snd kv) + n)) O (kv :: m) <= fuel)%nat ->
    parse_members fuel
      (join "," (map (fun kv => quote (fst kv) +:+ ":" +:+ encode_value (snd kv))
                     (kv :: m)) +:+ String "}" rest) acc
    = Some (JObject (acc ++ map (fun kv => (fst kv, json_of (snd kv))) (kv :: m)),
            rest).
Proof.
  revert kv. induction m as [|kv' m IH];
    intros [k v] Hall Hok Hrb fuel acc rest Hfuel.
  - inversion Hall as [|? ? Hv _]; subst. destruct Hok as (Hk & Hok & _).
    destruct Hrb as [Hrb _]. simpl in Hfuel, Hv, Hk, Hok, Hrb.
    destruct fuel as [|fuel]; [lia|]. cbn [join map fst snd].
    rewrite !append_assoc, quote_app, parse_members_step.
    destruct (quoted_reads_back k Hk (":" +:+ encode_value v +:+ String "}" rest))
      as [-> ->].
    rewrite append_cons, append_nil_l, skip_space_head by reflexivity.
    cbn [head_is]. change (code ":" =? 58) with true. cbv iota.
    rewrite (Hv Hok Hrb fuel (String "}" rest)) by (simpl; auto; lia).
    reflexivity.
  - inversion Hall as [|? ? Hv Hall']; subst. destruct Hok as (Hk & Hok & Hok').
    destruct Hrb as [Hrb Hrb']. simpl in Hv, Hk, Hok, Hrb.
    cbn [fold_right snd] in Hfuel.
    destruct fuel as [|fuel]; [lia|].
    change (join "," (map (fun kv => quote (fst kv) +:+ ":" +:+ encode_value (snd kv))
                          ((k, v) :: kv' :: m)))
      with ((quote k +:+ ":" +:+ encode_value v) +:+ "," +:+
            join "," (map (fun kv => quote (fst kv) +:+ ":" +:+ encode_value (snd kv))
                          (kv' :: m))).
    rewrite !append_assoc, quote_app, parse_members_step.
    match goal with
    | |- context [scan_string (_ +:+ String dquote ?X)] =>
        destruct (quoted_reads_back k Hk X) as [-> ->]
    end.
    rewrite append_cons, append_nil_l, skip_space_head by reflexivity.
    cbn [head_is]. change (code ":" =? 58) with true. cbv iota.
    rewrite append_cons, append_nil_l.
    rewrite (Hv Hok Hrb fuel) by (simpl; auto; lia).
    rewrite skip_space_head by reflexivity.
    cbn [head_is]. change (code "," =? 44) with true. cbv iota.
    rewrite (IH kv' Hall' Hok' Hrb' fuel (acc ++ [(k, json_of v)]) rest)
      by (cbn [fold_right]; lia).
    rewrite <- app_assoc. reflexivity.
Qed.

Lemma bracket_app (o cl : ascii) (J rest : string) :
  (String o "" +:+ J +:+ String cl "") +:+ rest = String o (J +:+ String cl rest).
Proof.
  rewrite !append_cons, !append_nil_l, append_assoc, append_cons, append_nil_l.
  reflexivity.
Qed.

Lemma join_head (x : string) (l : list string) (c : ascii) (t X : string) :
  x = String c t -> exists t', join "," (x :: l) +:+ X = String c t'.
Proof.
  intros ->. destruct l; cbn [join]; rewrite ?append_cons; eauto.
Qed.

(** The parser reads the text of the encoder back as the tree of the
    value. *)
Lemma parse_encoded (v : value) : parses_back v.
Proof.
  induction v as [| b | f | s | l IH | m IH] using value_nested_ind;
    intros Hok Hrb fuel rest Hfuel Hrest;
    (destruct fuel as [|fuel]; [simpl in Hfuel; lia|]).
  - apply parse_value_null.
  - destruct b; [apply parse_value_true|apply parse_value_false].
  - destruct Hrb as [Hscan Hparse]. cbn [encode_value json_of].
    destruct (scan_number_head _ Hscan) as (c & t & Heq & Hc).
    rewrite Heq, append_cons.
    destruct (parse_value_number fuel c (t +:+ rest) Hc) as (-> & _).
    rewrite <- append_cons, <- Heq.
    rewrite scan_number_app; [reflexivity| |assumption].
    now apply delimited_head.
  - cbn [encode_value json_of]. rewrite quote_app, parse_value_string.
    simpl in Hok. now destruct (quoted_reads_back s Hok rest) as [-> ->].
  - cbn [encode_value json_of]. rewrite bracket_app, parse_value_array.
    destruct l as [|v l]; [reflexivity|].
    assert (Hr1 : reads_back v) by (now destruct Hrb).
    destruct (encode_head v Hr1) as (c & t & Heq & Hs & Hb).
    destruct (join_head _ (map encode_value l) c t (String "]" rest) Heq)
      as [t' Ht'].
    change (encode_value v :: map encode_value l)
      with (map encode_value (v :: l)) in Ht'.
    cbn [weight] in Hfuel.
    rewrite (parse_elements_encoded v l IH Hok Hrb fuel [] rest) by lia.
    rewrite Ht', skip_space_head, head_is_other by assumption. reflexivity.
  - cbn [encode_value json_of]. rewrite bracket_app, parse_value_object.
    destruct m as [|[k v] m]; [reflexivity|].
    destruct Hok as [_ Hok].
    cbn [weight] in Hfuel.
    rewrite (parse_members_encoded (k, v) m IH Hok Hrb fuel [] rest) by lia.
    cbn [map join fst snd].
    destruct m; rewrite ?append_assoc, quote_app; reflexivity.
Qed.

End ParseEncoded.


(** ** The order of keys *)

Section KeyOrder.

Lemma ascii_compare_N (a b : ascii) :
  Ascii.compare a b = N.compare (N_of_ascii a) (N_of_ascii b).
Proof. reflexivity. Qed.

Lemma compare_lt_trans (a : string) : forall b c,
  String.compare a b = Lt -> String.compare b c = Lt -> String.compare a c = Lt.
Proof.
  induction a as [|x a IH]; intros [|y b] [|z c] H1 H2; simpl in *;
    try discriminate; try reflexivity.
  rewrite !ascii_compare_N in *.
  destruct (N.compare_spec (N_of_ascii x) (N_of_ascii y)),
           (N.compare_spec (N_of_ascii y) (N_of_ascii z)),
           (N.compare_spec (N_of_ascii x) (N_of_ascii z));
    try discriminate; try lia; try reflexivity.
  now apply (IH b c).
Qed.

Lemma compare_gt_lt (a b : string) :
  String.compare a b = Gt <-> String.compare b a = Lt.
Proof.
  rewrite (String.compare_antisym b a).
  destruct (String.compare a b); simpl; split; congruence.
Qed.

Lemma compare_refl (a : string) : String.compare a a = Eq.
Proof.
  induction a as [|x a IH]; simpl; [reflexivity|].
  rewrite ascii_compare_N, N.compare_refl. exact IH.
Qed.

End KeyOrder.

Section MapFacts.
Import WellFormed GoJSON.
Context {A : Type}.

Lemma sorted_inv (kv : string * A) (m : list (string * A)) :
  sorted (kv :: m) ->
  sorted m /\ Forall (fun b => String.compare (fst kv) (fst b) = Lt) m.
Proof. intros Hs. inversion Hs; subst. now split. Qed.

Lemma map_set_Forall (Q : string * A -> Prop) k v (m : list (string * A)) :
  Q (k, v) -> Forall Q m -> Forall Q (map_set k v m).
Proof.
  intros Hk. induction 1 as [|[k' v'] m Hkv Hm IH]; simpl.
  - now constructor.
  - destruct (String.compare k k'); repeat constructor; assumption.
Qed.

Lemma map_set_sorted k v (m : list (string * A)) :
  sorted m -> sorted (map_set k v m).
Proof.
  unfold sorted. induction m as [|[k' v'] m IH]; intros Hs; simpl.
  - repeat constructor.
  - apply sorted_inv in Hs. destruct Hs as [Hs Hall].
    destruct (String.compare k k') eqn:Hc.
    + apply String.compare_eq_iff in Hc. subst k'. now constructor.
    + constructor; [now constructor|]. constructor; [exact Hc|].
      eapply Forall_impl; [exact Hall|]. intros b Hb. simpl in *.
      now apply (compare_lt_trans k k').
    + constructor; [now apply IH|].
      apply map_set_Forall; [|exact Hall]. simpl. now apply compare_gt_lt.
Qed.

Lemma map_set_last k v (m : list (string * A)) :
  Forall (fun b => String.compare (fst b) k = Lt) m ->
  map_set k v m = m ++ [(k, v)].
Proof.
  induction 1 as [|[k' v'] m Hk _ IH]; simpl; [reflexivity|].
  simpl in Hk. apply compare_gt_lt in Hk. now rewrite Hk, IH.
Qed.

Lemma map_set_keys k v (m : list (string * A)) (k' : string) :
  In k' (map fst (map_set k v m)) <-> k' = k \/ In k' (map fst m).
Proof.
  induction m as [|[k0 v0] m IH]; simpl.
  - intuition.
  - destruct (String.compare k k0) eqn:Hc; simpl.
    + apply String.compare_eq_iff in Hc. subst. intuition.
    + intuition.
    + rewrite IH. intuition.
Qed.

Lemma sorted_app_before (acc : list (string * A)) kv m :
  sorted (acc ++ kv :: m) ->
  Forall (fun b => String.compare (fst b) (fst kv) = Lt) acc.
Proof.
  induction acc as [|a acc IH]; simpl; intros Hs; [constructor|].
  apply sorted_inv in Hs. destruct Hs as [Hs Hall]. constructor.
  - rewrite Forall_app in Hall. destruct Hall as [_ Hall].
    now inversion Hall.
  - now apply IH.
Qed.

End MapFacts.


(** ** Decoding the text of the encoder *)

Section Conjunctions.
Context {A : Type}.

Lemma fold_and_Forall (Q : A -> Prop) (l : list A) :
  fold_right (fun x P => Q x /\ P) True l <-> Forall Q l.
Proof.
  induction l as [|x l IH]; simpl.
  - split; [constructor|trivial].
  - rewrite IH. split.
    + intros [Hx Hl]. now constructor.
    + intros Hl. inversion Hl; subst. now split.
Qed.

Lemma fold_and2_Forall (Q R : A -> Prop) (l : list A) :
  fold_right (fun x P => Q x /\ R x /\ P) True l
  <-> Forall (fun x => Q x /\ R x) l.
Proof.
  induction l as [|x l IH]; simpl.
  - split; [constructor|trivial].
  - rewrite IH. split.
    + intros (Hq & Hr & Hl). now constructor.
    + intros Hl. inversion Hl as [|? ? [Hq Hr] Hl']; subst. now repeat split.
Qed.

End Conjunctions.

Section EncodedLength.
Context `{Float64}.
Import UTF8 JSON GoJSON WellFormed.

Lemma join_length (l : list string) :
  (fold_right (fun x n => S (String.length x + n)) O l
   <= S (String.length (join "," l)))%nat.
Proof.
  induction l as [|x l IH]; [simpl; lia|].
  destruct l as [|y l]; [simpl; lia|].
  change (join "," (x :: y :: l)) with (x +:+ "," +:+ join "," (y :: l)).
  rewrite !append_length. cbn [fold_right] in *.
  change (String.length ",") with 1%nat. lia.
Qed.

Lemma bracket_length (o cl : ascii) (J : string) :
  String.length (String o "" +:+ J +:+ String cl "") = S (S (String.length J)).
Proof. rewrite !append_length. simpl. lia. Qed.

(** The fuel of a value is within the length of its text. *)
Lemma weight_le_length (v : value) :
  reads_back v -> (weight v <= String.length (encode_value v))%nat.
Proof.
  induction v as [| b | f | s | l IH | m IH] using value_nested_ind; intros Hrb.
  - simpl. lia.
  - destruct b; simpl; lia.
  - destruct Hrb as [Hscan _].
    destruct (scan_number_head _ Hscan) as (c & t & Heq & _).
    simpl. rewrite Heq. simpl. lia.
  - simpl. lia.
  - cbn [weight encode_value]. rewrite bracket_length.
    pose proof (join_length (map encode_value l)) as Hj.
    enough (fold_right (fun v n => S (weight v + n)) O l
            <= fold_right (fun x n => S (String.length x + n)) O
                 (map encode_value l))%nat by lia.
    clear Hj. simpl in Hrb. induction IH as [|v l Hv _ IHl]; [simpl; lia|].
    destruct Hrb as [Hr Hrb]. specialize (Hv Hr). specialize (IHl Hrb).
    cbn [fold_right map]. lia.
  - cbn [weight encode_value]. rewrite bracket_length.
    pose proof (join_length
                  (map (fun kv => quote (fst kv) +:+ ":" +:+ encode_value (snd kv)) m))
      as Hj.
    enough (fold_right (fun kv n => S (weight (snd kv) + n)) O m
            <= fold_right (fun x n => S (String.length x + n)) O
                 (map (fun kv => quote (fst kv) +:+ ":" +:+ encode_value (snd kv)) m))%nat
      by lia.
    clear Hj. simpl in Hrb. induction IH as [|kv m Hv _ IHm]; [simpl; lia|].
    destruct Hrb as [Hr Hrb]. specialize (Hv Hr). specialize (IHm Hrb).
    cbn [fold_right map]. rewrite !append_length. lia.
Qed.

(** The text of a value parses to its tree. *)
Lemma parse_encode_value (v : value) :
  value_ok v -> reads_back v -> parse (encode_value v) = Some (json_of v).
Proof.
  intros Hok Hrb. unfold parse.
  pose proof (parse_encoded v Hok Hrb (S (String.length (encode_value v))) "")
    as Hp.
  rewrite append_nil_r in Hp. rewrite Hp; [reflexivity| |exact I].
  pose proof (weight_le_length v Hrb). lia.
Qed.

End EncodedLength.

Section DecodeFacts.
Context `{Float64}.
Import UTF8 JSON GoJSON WellFormed.

Lemma decode_members_json_of (m : list (string * value)) :
  Forall (fun kv => decode_value (json_of (snd kv)) = Some (snd kv)) m ->
  forall acc,
    sorted (acc ++ m) ->
    decode_members decode_value
      (map (fun kv => (fst kv, json_of (snd kv))) m) acc
    = Some (acc ++ m).
Proof.
  induction 1 as [|[k v] m Hv _ IH]; intros acc Hs.
  - simpl. now rewrite app_nil_r.
  - cbn [map decode_members fst snd] in *. rewrite Hv.
    rewrite map_set_last by exact (sorted_app_before acc (k, v) m Hs).
    rewrite IH; rewrite <- app_assoc; [reflexivity|exact Hs].
Qed.

(** Decoding the tree of a value gives the value. *)
Lemma decode_json_of (v : value) :
  value_ok v -> reads_back v -> decode_value (json_of v) = Some v.
Proof.
  induction v as [| b | f | s | l IH | m IH] using value_nested_ind;
    intros Hok Hrb; try reflexivity.
  - destruct Hrb as [_ Hp]. simpl. now rewrite Hp.
  - cbn [json_of decode_value].
    enough (decode_elements decode_value (map json_of l) = Some l) as ->
      by reflexivity.
    simpl in Hok, Hrb. induction IH as [|v l Hv _ IHl]; [reflexivity|].
    destruct Hok as [Ho Hok]. destruct Hrb as [Hr Hrb].
    cbn [map decode_elements]. now rewrite (Hv Ho Hr), (IHl Hok Hrb).
  - cbn [json_of decode_value]. destruct Hok as [Hs Hok]. simpl in Hrb.
    rewrite (decode_members_json_of m); [reflexivity| |exact Hs].
    clear Hs. induction IH as [|kv m Hv _ IHm]; constructor.
    + destruct Hok as (_ & Ho & _). destruct Hrb as [Hr _]. auto.
    + destruct Hok as (_ & _ & Hok). destruct Hrb as [_ Hrb]. auto.
Qed.

Lemma decode_members_ok (ms : list (string * json)) :
  Forall (fun kj => forall v, decode_value (snd kj) = Some v ->
                              json_ok (snd kj) -> value_ok v) ms ->
  Forall (fun kj => utf8 (fst kj) /\ json_ok (snd kj)) ms ->
  forall acc m,
    decode_members decode_value ms acc = Some m ->
    sorted acc ->
    Forall (fun kv => utf8 (fst kv) /\ value_ok (snd kv)) acc ->
    sorted m /\ Forall (fun kv => utf8 (fst kv) /\ value_ok (snd kv)) m.
Proof.
  induction 1 as [|[k j] ms Hj _ IH]; intros Hk acc m Hd Hs Hacc.
  - injection Hd as <-. now split.
  - inversion Hk as [|? ? [Hk1 Hj1] Hk']; subst.
    cbn [decode_members fst snd] in *.
    destruct (decode_value j) as [v|] eqn:Hv; [|discriminate].
    apply (IH Hk' _ _ Hd).
    + now apply map_set_sorted.
    + apply map_set_Forall; [|exact Hacc]. split; [exact Hk1|now apply Hj].
Qed.

(** Decoding a tree with well-formed strings gives a value with well-formed
    strings and the entries of every map in the order of their keys. *)
Lemma decode_value_ok (j : json) :
  forall v, decode_value j = Some v -> json_ok j -> value_ok v.
Proof.
  induction j as [| b | lit | s | l IH | ms IH] using json_nested_ind;
    intros v Hd Hok; cbn [decode_value] in Hd.
  - now injection Hd as <-.
  - now injection Hd as <-.
  - destruct (ParseFloat lit); [|discriminate]. now injection Hd as <-.
  - injection Hd as <-. exact Hok.
  - destruct (decode_elements decode_value l) as [vs|] eqn:Hvs; [|discriminate].
    injection Hd as <-. cbn [value_ok]. cbn [json_ok] in Hok.
    revert vs Hvs Hok. induction IH as [|j l Hj _ IHl]; intros vs Hvs Hok.
    + injection Hvs as <-. exact I.
    + cbn [decode_elements] in Hvs.
      destruct (decode_value j) as [v|] eqn:Hv; [|discriminate].
      destruct (decode_elements decode_value l) as [vs'|]; [|discriminate].
      injection Hvs as <-. destruct Hok as [Ho Hok]. split; [now apply Hj|].
      now apply IHl.
  - destruct (decode_members decode_value ms []) as [m|] eqn:Hm; [|discriminate].
    injection Hd as <-. cbn [value_ok]. cbn [json_ok] in Hok.
    rewrite fold_and2_Forall.
    apply (fold_and2_Forall (fun kv => utf8 (fst kv))
             (fun kv => json_ok (snd kv))) in Hok.
    apply (decode_members_ok ms IH Hok [] m Hm); constructor.
Qed.

Lemma decode_members_keys (dec : json -> option value)
    (ms : list (string * json)) :
  forall acc m,
    decode_members dec ms acc = Some m ->
    forall k, In k (map fst m) <-> In k (map fst acc) \/ In k (map fst ms).
Proof.
  induction ms as [|[k0 j] ms IH]; intros acc m Hd k.
  - injection Hd as <-. simpl. tauto.
  - cbn [decode_members fst snd] in Hd.
    destruct (dec j) as [v|]; [|discriminate].
    rewrite (IH _ _ Hd k), map_set_keys. simpl.
    split; intros Hk; repeat destruct Hk as [Hk|Hk]; auto.
Qed.

Lemma fold_and_snoc {A : Type} (Q : A -> Prop) (l : list A) (x : A) :
  fold_right (fun x P => Q x /\ P) True l -> Q x ->
  fold_right (fun x P => Q x /\ P) True (l ++ [x]).
Proof.
  induction l as [|y l IH]; simpl; [tauto|]. intros [Hy Hl] Hx. auto.
Qed.

Lemma json_ok_snoc (acc : list json) (j : json) :
  json_ok (JArray acc) -> json_ok j -> json_ok (JArray (acc ++ [j])).
Proof. apply (fold_and_snoc json_ok). Qed.

Lemma json_ok_member (acc : list (string * json)) (k : string) (j : json) :
  json_ok (JObject acc) -> utf8 k -> json_ok j ->
  json_ok (JObject (acc ++ [(k, j)])).
Proof.
  cbn [json_ok]. induction acc as [|y l IH]; simpl; [tauto|].
  intros (Hk & Hy & Hl) Hx Hj. auto.
Qed.

(** The parser makes trees whose strings and keys are well-formed UTF-8. *)
Lemma parser_ok (fuel : nat) :
  (forall s j rest, parse_value fuel s = Some (j, rest) -> json_ok j)
  /\ (forall s acc j rest,
        json_ok (JArray acc) ->
        parse_elements fuel s acc = Some (j, rest) -> json_ok j)
  /\ (forall s acc j rest,
        json_ok (JObject acc) ->
        parse_members fuel s acc = Some (j, rest) -> json_ok j).
Proof.
  induction fuel as [|fuel (IHv & IHe & IHm)];
    [repeat split; intros; discriminate|].
  split; [|split].
  - intros s j rest Hp. cbn [parse_value] in Hp.
    destruct (skip_space s) as [|c s']; [discriminate|].
    destruct (code c =? 34).
    { destruct (scan_string s') as [[raw r]|]; [|discriminate].
      injection Hp as <- <-. apply utf8_unquote. }
    destruct (code c =? 91).
    { destruct (head_is 93 (skip_space s')).
      - now injection Hp as <- <-.
      - apply (IHe s' [] j rest); [exact I|exact Hp]. }
    destruct (code c =? 123).
    { destruct (head_is 125 (skip_space s')).
      - now injection Hp as <- <-.
      - apply (IHm s' [] j rest); [exact I|exact Hp]. }
    destruct (keyword "null" (String c s')); [now injection Hp as <- <-|].
    destruct (keyword "true" (String c s')); [now injection Hp as <- <-|].
    destruct (keyword "false" (String c s')); [now injection Hp as <- <-|].
    destruct (scan_number (String c s')) as [[lit r]|]; [|discriminate].
    now injection Hp as <- <-.
  - intros s acc j rest Hacc Hp. cbn [parse_elements] in Hp.
    destruct (parse_value fuel s) as [[v r]|] eqn:Hv; [|discriminate].
    apply IHv in Hv.
    destruct (head_is 44 (skip_space r)).
    + apply (IHe _ _ _ _ (json_ok_snoc _ _ Hacc Hv) Hp).
    + destruct (head_is 93 (skip_space r)); [|discriminate].
      injection Hp as <- <-. now apply json_ok_snoc.
  - intros s acc j rest Hacc Hp. cbn [parse_members] in Hp.
    destruct (head_is 34 (skip_space s)) as [s1|]; [|discriminate].
    destruct (scan_string s1) as [[raw s2]|]; [|discriminate].
    destruct (head_is 58 (skip_space s2)) as [s3|]; [|discriminate].
    destruct (parse_value fuel s3) as [[v r]|] eqn:Hv; [|discriminate].
    apply IHv in Hv.
    assert (Hnew : json_ok (JObject (acc ++ [(Unquote raw, v)]))).
    { apply json_ok_member; [assumption|apply utf8_unquote|assumption]. }
    destruct (head_is 44 (skip_space r)).
    + apply (IHm _ _ _ _ Hnew Hp).
    + destruct (head_is 125 (skip_space r)); [|discriminate].
      now injection Hp as <- <-.
Qed.

Lemma parse_ok (s : string) (j : json) : parse s = Some j -> json_ok j.
Proof.
  unfold parse. intros Hp.
  destruct (parse_value _ s) as [[v r]|] eqn:Hv; [|discriminate].
  destruct (skip_space r); [|discriminate]. injection Hp as <-.
  now apply (proj1 (parser_ok _)) in Hv.
Qed.

End DecodeFacts.


(** ** NewDocument: the body is the canonical text of the map *)

Section Canonical.
Context `{Float64}.
Import JSON GoJSON WellFormed.

(** What [Unmarshal] returns: a map decoded from an object with its entries
    in the order of their keys and well-formed strings, whose keys are those
    of the object. *)
Lemma Unmarshal_object (data : string) (m : list (string * value)) :
  Unmarshal data = Ok (Some m) ->
  exists ms,
    parse data = Some (JObject ms)
    /\ decode_members decode_value ms [] = Some m
    /\ value_ok (VObject m).
Proof.
  unfold Unmarshal. intros Hu.
  destruct (parse data) as [[| b | lit | s | l | ms]|] eqn:Hp;
    try discriminate.
  destruct (decode_value (JObject ms)) as [[| | | | |m']|] eqn:Hd;
    try discriminate.
  injection Hu as ->. exists ms. split; [reflexivity|].
  split; [|exact (decode_value_ok _ _ Hd (parse_ok _ _ Hp))].
  cbn [decode_value] in Hd.
  destruct (decode_members decode_value ms []); [|discriminate].
  now injection Hd as ->.
Qed.

(** The text [Marshal] writes for a map that [Unmarshal] returned is read
    back as the same map, where the numbers of the map read back. *)
Lemma Unmarshal_Marshal (data : string)
    (bodyMap : option (list (string * value))) :
  Unmarshal data = Ok bodyMap ->
  numbers_read_back bodyMap ->
  exists text,
    Marshal bodyMap = Ok text /\ Unmarshal text = Ok bodyMap
    /\ forall m, bodyMap = Some m -> parse text = Some (json_of (VObject m)).
Proof.
  intros Hu Hrb. destruct bodyMap as [m|].
  - destruct (Unmarshal_object data m Hu) as (ms & _ & _ & Hok).
    exists (encode_value (VObject m)). split; [reflexivity|].
    pose proof (parse_encode_value (VObject m) Hok Hrb) as Hp.
    split.
    + unfold Unmarshal. rewrite Hp. cbn [json_of].
      change (JObject (map (fun kv => (fst kv, json_of (snd kv))) m))
        with (json_of (VObject m)).
      now rewrite (decode_json_of (VObject m) Hok Hrb).
    + intros m' Hm'. injection Hm' as <-. exact Hp.
  - exists "null". split; [reflexivity|]. split; [reflexivity|discriminate].
Qed.

End Canonical.

(** C10. For every body that [NewDocument] accepts, the [Body] of the
    document is the text the encoder writes for the map decoded from the
    input, and the time is on the record only ([PostedAt]). Where the input
    is an object, the keys of the map are exactly the keys of the object.
    Where the numbers of the map read back from their text, the [Body]
    parses to an object with exactly the keys of the input object, so no
    key such as [postedAt] is added, and [NewDocument] applied to the [Body]
    accepts it and returns a document with an equal [Body]. *)
Theorem NewDocument_canonical `{Float64} (now : Time) (id : UUID)
    (collectionName schemaName : string) (body : list byte) (doc : Document) :
  NewDocument now id collectionName schemaName body = Ok doc ->
  exists bodyMap,
    GoJSON.Unmarshal (string_of_list_byte body) = Ok bodyMap
    /\ GoJSON.Marshal bodyMap = Ok (string_of_list_byte (Body doc))
    /\ PostedAt doc = now
    /\ (forall ms,
          JSON.parse (string_of_list_byte body) = Some (JSON.JObject ms) ->
          exists m,
            bodyMap = Some m
            /\ forall k, In k (map fst m) <-> In k (map fst ms))
    /\ (WellFormed.numbers_read_back bodyMap ->
        (forall ms,
           JSON.parse (string_of_list_byte body) = Some (JSON.JObject ms) ->
           exists ms',
             JSON.parse (string_of_list_byte (Body doc))
             = Some (JSON.JObject ms')
             /\ forall k, In k (map fst ms') <-> In k (map fst ms))
        /\ forall now' id' collectionName' schemaName',
             NewDocument now' id' collectionName' schemaName' (Body doc)
             = Ok (mkDocument id' now' collectionName' schemaName' (Body doc))).
Proof.
  unfold NewDocument at 1.
  destruct (GoJSON.Unmarshal (string_of_list_byte body)) as [bodyMap|e] eqn:Hu;
    [|discriminate].
  destruct (GoJSON.Marshal bodyMap) as [text|e] eqn:Hm; [|discriminate].
  intros Hdoc. injection Hdoc as <-. cbn [Body PostedAt].
  rewrite string_of_list_byte_of_string.
  exists bodyMap. split; [reflexivity|]. split; [exact Hm|].
  split; [reflexivity|].
  assert (Hkeys : forall ms,
             JSON.parse (string_of_list_byte body) = Some (JSON.JObject ms) ->
             exists m, bodyMap = Some m
                       /\ forall k, In k (map fst m) <-> In k (map fst ms)).
  { intros ms Hp. unfold GoJSON.Unmarshal in Hu. rewrite Hp in Hu.
    cbn [GoJSON.decode_value] in Hu.
    destruct (GoJSON.decode_members GoJSON.decode_value ms []) as [m|] eqn:Hd;
      [|discriminate].
    injection Hu as <-. exists m. split; [reflexivity|]. intros k.
    rewrite (decode_members_keys _ _ _ _ Hd k). simpl. tauto. }
  split; [exact Hkeys|]. intros Hrb.
  destruct (Unmarshal_Marshal _ _ Hu Hrb) as (text' & Hm' & Hu' & Hp').
  rewrite Hm in Hm'. injection Hm' as <-. split.
  - intros ms Hp. destruct (Hkeys ms Hp) as (m & -> & Hk).
    eexists. split; [exact (Hp' m eq_refl)|]. intros k. rewrite <- Hk.
    rewrite map_map. cbn [fst]. reflexivity.
  - intros now' id' collectionName' schemaName'. unfold NewDocument.
    now rewrite string_of_list_byte_of_string, Hu', Hm.
Qed.

Lemma NewDocument_canonical_witness :
  let doc :=
    mkDocument Sample.id1 Sample.t0 "logs" "access" Sample4.canonical in
  @NewDocument Binary64.codec Sample.t0 Sample.id1 "logs" "access" Sample4.loose
  = Ok doc
  /\ (exists ms',
        JSON.parse (string_of_list_byte (Body doc)) = Some (JSON.JObject ms')
        /\ forall k, In k (map fst ms') <-> In k ["b"; "a"; "b"])
  /\ @NewDocument Binary64.codec (Sample.t0 + Sample.second) Sample.id2
       "logs" "access" (Body doc)
     = Ok (mkDocument Sample.id2 (Sample.t0 + Sample.second) "logs" "access"
             (Body doc)).
Proof.
  intros doc.
  assert (Hdoc : @NewDocument Binary64.codec Sample.t0 Sample.id1 "logs"
                   "access" Sample4.loose = Ok doc) by reflexivity.
  split; [exact Hdoc|].
  destruct (@NewDocument_canonical Binary64.codec _ _ _ _ _ _ Hdoc)
    as (bodyMap & Hu & _ & _ & _ & Hsame).
  assert (Hu' : @GoJSON.Unmarshal Binary64.codec
                  (string_of_list_byte Sample4.loose)
                = Ok (Some Sample4.decoded)) by reflexivity.
  rewrite Hu' in Hu. injection Hu as <-.
  destruct Hsame as [Hkeys Hidem].
  { unfold WellFormed.numbers_read_back, Sample4.decoded.
    cbn [WellFormed.reads_back fold_right snd].
    repeat match goal with |- _ /\ _ => split end; try exact I; reflexivity. }
  split; [|apply Hidem].
  exact (Hkeys
           match JSON.parse (string_of_list_byte Sample4.loose) with
           | Some (JSON.JObject ms) => ms
           | _ => []
           end eq_refl).
Defined.

(** * Further properties *)

(** ** engine/redis.pipe.iteration.go *)

(** An iteration written on a pipeline is not the one read next: for every
    key, every iteration and every pipeline, [setRedisIteration] followed by
    [getRedisIteration] ends in the syntax error of [strconv.Atoi], and all
    it leaves is the two commands at the end of the queue, the HSET before
    the HGET; neither has been sent. *)
Theorem iteration_not_read_back (pipeKey : string) (iter : Z) (p : Pipeline) :
  (setRedisIteration pipeKey iter ;;; getRedisIteration pipeKey)%go p
  = (Err ErrSyntax,
     p ++ [HSET pipeKey "iteration" (Itoa iter); HGET pipeKey "iteration"]).
Proof.
  unfold setRedisIteration, getRedisIteration, Pipeline_HSet, Pipeline_HGet,
    queued, bind, ret.
  now rewrite <- app_assoc.
Qed.

(** [getRedisIteration] yields no iteration: for every key and on every
    pipeline, whatever is queued already, it queues the one command HGET of
    the field [iteration] and returns the syntax error that [strconv.Atoi]
    gives for the empty text, the reply of a command not yet sent. *)
Theorem getRedisIteration_fails (pipeKey : string) (p : Pipeline) :
  getRedisIteration pipeKey p
  = (Err ErrSyntax, p ++ [HGET pipeKey "iteration"])
  /\ forall i p', getRedisIteration pipeKey p <> (Ok i, p').
Proof.
  assert (Hg : getRedisIteration pipeKey p
               = (Err ErrSyntax, p ++ [HGET pipeKey "iteration"]))
    by reflexivity.
  split; [exact Hg|]. intros i p' Hi. rewrite Hg in Hi. discriminate Hi.
Qed.

(** [setRedisIteration] returns no error and queues one command, the HSET of
    the field [iteration] of its key, behind what the pipeline holds; the
    text it queues for an iteration within the range of [int] is one that
    [strconv.Atoi], the reader of [getRedisIteration], reads as that
    iteration. *)
Theorem setRedisIteration_queues (pipeKey : string) (iter : Z) (p : Pipeline) :
  exists val,
    setRedisIteration pipeKey iter p
    = (Ok tt, p ++ [HSET pipeKey "iteration" val])
    /\ (int_min <= iter <= int_max -> Atoi val = Ok iter).
Proof.
  exists (Itoa iter). split; [reflexivity|]. apply Atoi_Itoa.
Qed.

Lemma setRedisIteration_queues_witness :
  exists val,
    setRedisIteration "bulklog.logs.pipes.p" 4 [WATCH ["bulklog.logs.buffer"]]
    = (Ok tt, [WATCH ["bulklog.logs.buffer"];
               HSET "bulklog.logs.pipes.p" "iteration" val])
    /\ Atoi val = Ok 4.
Proof.
  destruct (setRedisIteration_queues "bulklog.logs.pipes.p" 4
              [WATCH ["bulklog.logs.buffer"]]) as (val & Hs & Ha).
  exists val. split; [exact Hs|]. apply Ha. split; vm_compute; discriminate.
Defined.

(** ** engine/redis.buffer.go: the keys of a buffer *)

Lemma append_snoc_inj (s1 s2 : string) (c1 c2 : ascii) :
  s1 +:+ String c1 "" = s2 +:+ String c2 "" -> s1 = s2 /\ c1 = c2.
Proof.
  revert s2. induction s1 as [|a s1 IH]; intros [|b s2] Heq;
    rewrite ?append_cons, ?append_nil_l in Heq.
  - injection Heq as ->. now split.
  - injection Heq as -> Heq. destruct s2; discriminate Heq.
  - injection Heq as -> Heq. destruct s1; discriminate Heq.
  - injection Heq as -> Heq. destruct (IH _ Heq) as [-> ->]. now split.
Qed.

Lemma append_inj_r (s1 s2 x : string) : s1 +:+ x = s2 +:+ x -> s1 = s2.
Proof.
  intros Heq. apply (append_inj_len s1 s2 x x); [|exact Heq].
  apply (f_equal String.length) in Heq. rewrite !append_length in Heq. lia.
Qed.

(** Two texts that end in different characters differ. *)
Lemma append_last_ne (s1 s2 x y : string) (c1 c2 : ascii) :
  c1 <> c2 -> s1 +:+ x +:+ String c1 "" <> s2 +:+ y +:+ String c2 "".
Proof.
  intros Hne Heq. rewrite <- !append_assoc in Heq.
  apply append_snoc_inj in Heq. now destruct Heq.
Qed.

Section BufferKeys.
Variables (c1 c2 : Collection) (cs1 cs2 : gset string) (t1 t2 : Time)
          (r1 r2 : Redis).

Let b1 := fst (RedisBuffer c1 cs1 t1 r1).
Let b2 := fst (RedisBuffer c2 cs2 t2 r2).

Lemma bufferKey_inj : bufferKey b1 = bufferKey b2 -> Name c1 = Name c2.
Proof.
  unfold b1, b2, RedisBuffer. cbn [fst bufferKey]. intros Heq.
  apply append_inj_l in Heq. now apply append_inj_r in Heq.
Qed.

Lemma timeKey_inj : timeKey b1 = timeKey b2 -> Name c1 = Name c2.
Proof.
  unfold b1, b2, RedisBuffer. cbn [fst timeKey]. intros Heq.
  apply append_inj_l in Heq. now apply append_inj_r in Heq.
Qed.

Lemma pipeKeyPrefix_inj :
  pipeKeyPrefix b1 = pipeKeyPrefix b2 -> Name c1 = Name c2.
Proof.
  unfold b1, b2, RedisBuffer. cbn [fst pipeKeyPrefix]. intros Heq.
  apply append_inj_l in Heq. now apply append_inj_r in Heq.
Qed.

Lemma bufferKey_ne_timeKey : bufferKey b1 <> timeKey b2.
Proof.
  unfold b1, b2, RedisBuffer. cbn [fst bufferKey timeKey]. intros Heq.
  apply append_inj_l in Heq.
  now apply (append_last_ne (Name c1) (Name c2) ".buffe" ".flushedA" "r" "t").
Qed.

Lemma bufferKey_ne_pipeKeyPrefix : bufferKey b1 <> pipeKeyPrefix b2.
Proof.
  unfold b1, b2, RedisBuffer. cbn [fst bufferKey pipeKeyPrefix]. intros Heq.
  apply append_inj_l in Heq.
  now apply (append_last_ne (Name c1) (Name c2) ".buffe" ".pipe" "r" "s").
Qed.

Lemma timeKey_ne_pipeKeyPrefix : timeKey b1 <> pipeKeyPrefix b2.
Proof.
  unfold b1, b2, RedisBuffer. cbn [fst timeKey pipeKeyPrefix]. intros Heq.
  apply append_inj_l in Heq.
  now apply (append_last_ne (Name c1) (Name c2) ".flushedA" ".pipe" "t" "s").
Qed.

End BufferKeys.

(** The constructor gives every collection keys of its own: two buffers
    share the buffer key, the time key or the prefix of the pipe keys only
    when their collections have the same name, and no key of one kind is a
    key of another kind, of whatever collections. *)
Theorem RedisBuffer_keys_apart (c1 c2 : Collection) (cs1 cs2 : gset string)
    (t1 t2 : Time) (r1 r2 : Redis) :
  let b1 := fst (RedisBuffer c1 cs1 t1 r1) in
  let b2 := fst (RedisBuffer c2 cs2 t2 r2) in
  (bufferKey b1 = bufferKey b2 <-> Name c1 = Name c2)
  /\ (timeKey b1 = timeKey b2 <-> Name c1 = Name c2)
  /\ (pipeKeyPrefix b1 = pipeKeyPrefix b2 <-> Name c1 = Name c2)
  /\ bufferKey b1 <> timeKey b2
  /\ bufferKey b1 <> pipeKeyPrefix b2
  /\ timeKey b1 <> pipeKeyPrefix b2.
Proof.
  intros b1 b2. repeat split.
  - apply bufferKey_inj.
  - intros Hn. unfold b1, b2, RedisBuffer. cbn [fst bufferKey]. now rewrite Hn.
  - apply timeKey_inj.
  - intros Hn. unfold b1, b2, RedisBuffer. cbn [fst timeKey]. now rewrite Hn.
  - apply pipeKeyPrefix_inj.
  - intros Hn. unfold b1, b2, RedisBuffer. cbn [fst pipeKeyPrefix].
    now rewrite Hn.
  - apply bufferKey_ne_timeKey.
  - apply bufferKey_ne_pipeKeyPrefix.
  - apply timeKey_ne_pipeKeyPrefix.
Qed.

(** The keys are not apart from the keys of pipes: the sealed list of the
    pipe [id] of the collection [c1] and the buffer list of the collection
    [c2] are one key exactly when [c2] is named as [c1] followed by
    [.pipes.] and the text of [id]. *)
Theorem pipe_buffer_key_meets_bufferKey (c1 c2 : Collection)
    (cs1 cs2 : gset string) (t1 t2 : Time) (r1 r2 : Redis) (id : UUID) :
  let b1 := fst (RedisBuffer c1 cs1 t1 r1) in
  let b2 := fst (RedisBuffer c2 cs2 t2 r2) in
  nth_error (Flush_watched b1 id) 4 = Some (bufferKey b2)
  <-> Name c2 = Name c1 +:+ ".pipes." +:+ UUID_String id.
Proof.
  intros b1 b2. unfold b1, b2, RedisBuffer, Flush_watched.
  cbn [fst bufferKey timeKey pipeKeyPrefix nth_error]. split.
  - intros Heq. injection Heq as Heq. rewrite !append_assoc in Heq.
    apply append_inj_l in Heq. rewrite <- !append_assoc in Heq.
    apply append_inj_r in Heq. rewrite <- Heq, !append_assoc. reflexivity.
  - intros ->. rewrite !append_assoc. reflexivity.
Qed.

(** The five keys [Flush] hands to WATCH are five different keys, for a
    buffer made by the constructor and any identifier. *)
Theorem Flush_watched_NoDup (collec : Collection) (cs : gset string)
    (t : Time) (r0 : Redis) (id : UUID) :
  NoDup (Flush_watched (fst (RedisBuffer collec cs t r0)) id).
Proof.
  unfold RedisBuffer, Flush_watched. cbn [fst bufferKey timeKey pipeKeyPrefix].
  set (N := Name collec). set (U := UUID_String id).
  assert (H12 : "bulklog." +:+ N +:+ ".buffer" <> "bulklog." +:+ N +:+ ".flushedAt").
  { intros Heq. do 2 apply append_inj_l in Heq. discriminate Heq. }
  assert (Hb : forall x, "bulklog." +:+ N +:+ ".buffer"
                         <> (("bulklog." +:+ N +:+ ".pipes") +:+ "." +:+ U) +:+ x).
  { intros x Heq. rewrite !append_assoc in Heq.
    do 2 apply append_inj_l in Heq. discriminate Heq. }
  assert (Ht : forall x, "bulklog." +:+ N +:+ ".flushedAt"
                         <> (("bulklog." +:+ N +:+ ".pipes") +:+ "." +:+ U) +:+ x).
  { intros x Heq. rewrite !append_assoc in Heq.
    do 2 apply append_inj_l in Heq. discriminate Heq. }
  set (P := ("bulklog." +:+ N +:+ ".pipes") +:+ "." +:+ U) in *.
  assert (Hpc : P <> P +:+ ".consumers")
    by (intros Heq; symmetry in Heq; revert Heq; apply append_ne_self; discriminate).
  assert (Hpb : P <> P +:+ ".buffer")
    by (intros Heq; symmetry in Heq; revert Heq; apply append_ne_self; discriminate).
  assert (Hcb : P +:+ ".consumers" <> P +:+ ".buffer")
    by (intros Heq; apply append_inj_l in Heq; discriminate).
  pose proof (Hb "") as Hb0. rewrite append_nil_r in Hb0.
  pose proof (Ht "") as Ht0. rewrite append_nil_r in Ht0.
  repeat constructor; rewrite ?elem_of_cons, ?elem_of_nil; intuition eauto.
Qed.

(** ** Flush on any wire *)

Lemma Get_ok key r s r1 :
  Get key r = (Ok s, r1) -> db r !! key = Some (RString s) /\ db r1 = db r.
Proof.
  unfold Get, roundtrip.
  destruct (faults r) as [|[e|] fs]; try discriminate;
    (destruct (db r !! key) as [[s0|l|h]|]; try discriminate;
     intros Heq; injection Heq as <- <-; now split).
Qed.

Lemma Set_ok key val r r1 :
  Set_ key val r = (Ok tt, r1) -> db r1 = <[key := RString val]> (db r).
Proof.
  unfold Set_, roundtrip.
  destruct (faults r) as [|[e|] fs]; try discriminate;
    intros Heq; now injection Heq as <-.
Qed.

Lemma LLen_db key r : db (snd (LLen key r)) = db r.
Proof.
  unfold LLen, roundtrip.
  destruct (faults r) as [|[e|] fs]; simpl; try reflexivity;
    destruct (db r !! key) as [[]|]; reflexivity.
Qed.

Section FlushAnyWire.
Context `{TimeLayout} `{PipeCodec}.
Variables (now now' : Time) (outerID innerID : UUID).

(** [Flush] around the function literal: WATCH, the function, UNWATCH. *)
Lemma Flush_around (b : redisBuffer) (r : Redis) :
  Flush now now' outerID innerID (b, r)
  = match Watch_cmd (Flush_watched b outerID) r with
    | (Err e, r1) => (Err ("WATCH." +:+ e), (b, snd (Unwatch r1)))
    | (Ok _, r1) =>
        let '(res, s2) := Flush_fn now now' innerID (b, r1) in
        (match res with Ok a => Ok a | Err e => Err ("WATCH." +:+ e) end,
         (fst s2, snd (Unwatch (snd s2))))
    end.
Proof.
  unfold Flush, wrap, bind, this, Client_Watch. cbn [fst snd].
  unfold Flush_watched at 1 2. unfold tx at 1. cbn [fst snd].
  fold (Flush_watched b outerID).
  destruct (Watch_cmd (Flush_watched b outerID) r) as [[[]|e] r1].
  - destruct (Flush_fn now now' innerID (b, r1)) as [res [b2 r2]].
    unfold tx. cbn [fst snd]. destruct (Unwatch r2) as [u r3].
    destruct res; reflexivity.
  - unfold tx. cbn [fst snd]. destruct (Unwatch r1) as [u r3]. reflexivity.
Qed.

(** The first lines of the function literal, on any wire. *)
Lemma Flush_fn_head_any (k : M St unit) (b : redisBuffer) (r : Redis) :
  (b0 <- this ;;
   flushedAtStr <- wrap "(GET collection.flushedAt)." (tx (Get (timeKey b0))) ;;
   (if String.eqb flushedAtStr "" then ret tt
    else
      match time_Parse flushedAtStr with
      | Ok t => assign_flushedAt t
      | Err e => assign_flushedAt zero_Time ;;; fail ("parseFlushedAtStr." +:+ e)
      end) ;;; k)%go (b, r)
  = match Get (timeKey b) r with
    | (Err e, r1) => (Err ("(GET collection.flushedAt)." +:+ e), (b, r1))
    | (Ok s, r1) =>
        if String.eqb s "" then k (b, r1)
        else match time_Parse s with
             | Ok t => k (set_flushedAt b t, r1)
             | Err e =>
                 (Err ("parseFlushedAtStr." +:+ e), (set_flushedAt b zero_Time, r1))
             end
    end.
Proof.
  unfold bind at 1, this at 1. cbn [fst snd].
  unfold bind at 1, wrap at 1, tx at 1. cbn [fst snd].
  destruct (Get (timeKey b) r) as [[s|e] r1]; [|reflexivity].
  unfold bind at 1. destruct (String.eqb s ""); [reflexivity|].
  destruct (time_Parse s); reflexivity.
Qed.

(** What the function literal does once the period has passed, from line 88
    on: when it returns no error it has set the time key to [now], last of
    all its writes, and the field of the buffer too. *)
Lemma Flush_due_ok (m1 m2 m3 : M Redis unit) (b : redisBuffer) (r r' : Redis)
    (b' : redisBuffer) :
  (length <- wrap "(LLEN bufferKey)." (tx (LLen (bufferKey b))) ;;
   if length =? 0 then
     wrap ("(SET collection.flushedAt " +:+ time_Format now +:+ ").")
          (tx (Set_ (timeKey b) (time_Format now))) ;;;
     assign_flushedAt now
   else
     wrap "newRedisPipe." (tx m1) ;;;
     wrap "addRedisPipeConsumers." (tx m2) ;;;
     wrap "flushBuffer2RedisPipe." (tx m3) ;;;
     wrap ("(SET collection.flushedAt " +:+ time_Format now +:+ ").")
          (tx (Set_ (timeKey b) (time_Format now))) ;;;
     assign_flushedAt now)%go (b, r) = (Ok tt, (b', r')) ->
  b' = set_flushedAt b now
  /\ db r' !! timeKey b = Some (RString (time_Format now)).
Proof.
  unfold bind, wrap, tx, assign_flushedAt. cbn [fst snd].
  destruct (LLen (bufferKey b) r) as [[n|e] r1]; cbn [fst snd];
    [|discriminate].
  destruct (n =? 0); cbn [fst snd].
  - destruct (Set_ (timeKey b) (time_Format now) r1) as [[[]|e] r2] eqn:Hs;
      cbn [fst snd]; [|discriminate].
    intros Heq. injection Heq as <- <-. split; [reflexivity|].
    rewrite (Set_ok _ _ _ _ Hs). apply lookup_insert_eq.
  - destruct (m1 r1) as [[[]|e] r2]; cbn [fst snd]; [|discriminate].
    destruct (m2 r2) as [[[]|e] r3]; cbn [fst snd]; [|discriminate].
    destruct (m3 r3) as [[[]|e] r4]; cbn [fst snd]; [|discriminate].
    destruct (Set_ (timeKey b) (time_Format now) r4) as [[[]|e] r5] eqn:Hs;
      cbn [fst snd]; [|discriminate].
    intros Heq. injection Heq as <- <-. split; [reflexivity|].
    rewrite (Set_ok _ _ _ _ Hs). apply lookup_insert_eq.
Qed.

(** The function literal on any wire and any keyspace: it leaves the
    keyspace as it was unless the time key held a text that gives a time
    [t] with the period passed at the reading [now']. *)
Lemma Flush_fn_writes (b : redisBuffer) (r : Redis) :
  db (snd (snd (Flush_fn now now' innerID (b, r)))) <> db r ->
  exists s t,
    db r !! timeKey b = Some (RString s)
    /\ stored_flushedAt b s = Ok t
    /\ FlushPeriod (collection b) <= Time_Sub now' t.
Proof.
  unfold Flush_fn. rewrite Flush_fn_head_any.
  destruct (Get (timeKey b) r) as [[s|e] r1] eqn:Hg.
  - destruct (Get_ok _ _ _ _ Hg) as [Hk Hd]. unfold stored_flushedAt.
    destruct (String.eqb s "") eqn:Hs.
    + unfold bind at 1, this at 1. cbn [fst snd].
      destruct (Z.ltb_spec (Time_Sub now' (flushedAt b)) (FlushPeriod (collection b))).
      * unfold ret. cbn [fst snd]. congruence.
      * intros _. exists s, (flushedAt b). rewrite Hs. auto.
    + destruct (time_Parse s) as [t|e] eqn:Hp; [|cbn [fst snd]; congruence].
      unfold bind at 1, this at 1.
      cbn [fst snd flushedAt set_flushedAt collection].
      destruct (Z.ltb_spec (Time_Sub now' t) (FlushPeriod (collection b))).
      * unfold ret. cbn [fst snd]. congruence.
      * intros _. exists s, t. rewrite Hs. auto.
  - pose proof (Get_db (timeKey b) r) as Hd. rewrite Hg in Hd.
    cbn [fst snd] in *. congruence.
Qed.

(** When the function literal returns no error and has changed the
    keyspace, it has recorded [now] at the time key and in the buffer. *)
Lemma Flush_fn_records (b b' : redisBuffer) (r r' : Redis) :
  Flush_fn now now' innerID (b, r) = (Ok tt, (b', r')) ->
  db r' <> db r ->
  b' = set_flushedAt b now
  /\ db r' !! timeKey b = Some (RString (time_Format now)).
Proof.
  unfold Flush_fn. rewrite Flush_fn_head_any.
  destruct (Get (timeKey b) r) as [[s|e] r1] eqn:Hg; [|discriminate].
  destruct (Get_ok _ _ _ _ Hg) as [Hk Hd].
  destruct (String.eqb s "").
  - unfold bind at 1, this at 1. cbn [fst snd].
    destruct (Time_Sub now' (flushedAt b) <? FlushPeriod (collection b)).
    + unfold ret. intros Heq. injection Heq as <- <-. congruence.
    + intros Heq _. now apply Flush_due_ok in Heq.
  - destruct (time_Parse s) as [t|e]; [|discriminate].
    unfold bind at 1, this at 1.
    cbn [fst snd flushedAt set_flushedAt collection consumers bufferKey
         timeKey pipeKeyPrefix].
    destruct (Time_Sub now' t <? FlushPeriod (collection b)).
    + unfold ret. intros Heq. injection Heq as <- <-. congruence.
    + intros Heq _.
      apply (Flush_due_ok _ _ _ (set_flushedAt b t)) in Heq.
      exact Heq.
Qed.

End FlushAnyWire.

(** [Flush] writes only when a flush is due: on any wire and any keyspace,
    if a call of [Flush] has changed the keyspace, then the time key held a
    text, the text gave a time (or was empty, and the field of the buffer
    stands for it), and at the reading of the clock on line 85 the flush
    period had passed since that time. *)
Theorem Flush_writes_only_when_due `{TimeLayout} `{PipeCodec}
    (now now' : Time) (outerID innerID : UUID) (b : redisBuffer) (r : Redis) :
  db (snd (snd (Flush now now' outerID innerID (b, r)))) <> db r ->
  exists s t,
    db r !! timeKey b = Some (RString s)
    /\ stored_flushedAt b s = Ok t
    /\ FlushPeriod (collection b) <= Time_Sub now' t.
Proof.
  rewrite Flush_around.
  pose proof (Watch_cmd_db (Flush_watched b outerID) r) as Hw.
  destruct (Watch_cmd (Flush_watched b outerID) r) as [[[]|e] r1];
    cbn [fst snd] in Hw.
  - pose proof (Flush_fn_writes now now' innerID b r1) as Hf.
    destruct (Flush_fn now now' innerID (b, r1)) as [res [b2 r2]].
    cbn [fst snd] in *. rewrite Unwatch_db. rewrite Hw in Hf. exact Hf.
  - cbn [fst snd]. rewrite Unwatch_db. congruence.
Qed.

Lemma Flush_writes_only_when_due_witness :
  let now := Sample.t0 + 11 * Sample.second in
  exists s t,
    db Sample.store !! timeKey Sample.buffer = Some (RString s)
    /\ @stored_flushedAt RFC3339.layout Sample.buffer s = Ok t
    /\ FlushPeriod (collection Sample.buffer) <= Time_Sub now t.
Proof.
  intros now.
  apply (@Flush_writes_only_when_due RFC3339.layout Wire.codec now now
           Sample.id1 Sample.id2 Sample.buffer Sample.store).
  intros Heq. apply (f_equal (fun d => d !! "bulklog.logs.buffer")) in Heq.
  vm_compute in Heq. discriminate Heq.
Defined.

(** A call of [Flush] that returns no error and has changed the keyspace
    has recorded the time of the flush in both places: the time key holds
    the text of [now], the reading of the clock on line 65, and the field
    [flushedAt] of the buffer is [now]; this on any wire, whatever the
    helpers of the pipe wrote before. *)
Theorem Flush_records_flush_time `{TimeLayout} `{PipeCodec}
    (now now' : Time) (outerID innerID : UUID) (b b' : redisBuffer)
    (r r' : Redis) :
  Flush now now' outerID innerID (b, r) = (Ok tt, (b', r')) ->
  db r' <> db r ->
  flushedAt b' = now
  /\ db r' !! timeKey b' = Some (RString (time_Format now)).
Proof.
  rewrite Flush_around.
  pose proof (Watch_cmd_db (Flush_watched b outerID) r) as Hw.
  destruct (Watch_cmd (Flush_watched b outerID) r) as [[[]|e] r1];
    cbn [fst snd] in Hw; [|discriminate].
  destruct (Flush_fn now now' innerID (b, r1)) as [[[]|e] [b2 r2]] eqn:Hf;
    [|discriminate].
  cbn [fst snd]. intros Heq Hch. injection Heq as <- <-.
  rewrite Unwatch_db in *.
  destruct (Flush_fn_records now now' innerID _ _ _ _ Hf) as [-> Hk];
    [congruence|].
  split; [reflexivity|exact Hk].
Qed.

Lemma Flush_records_flush_time_witness :
  let now := Sample.t0 + 11 * Sample.second in
  let s' := snd (@Flush RFC3339.layout Wire.codec now now Sample.id1 Sample.id2
                   (Sample.buffer, Sample.store)) in
  flushedAt (fst s') = now
  /\ db (snd s') !! timeKey (fst s') = Some (RString (RFC3339.Format now)).
Proof.
  intros now s'.
  apply (@Flush_records_flush_time RFC3339.layout Wire.codec now now
           Sample.id1 Sample.id2 Sample.buffer (fst s') Sample.store (snd s')).
  - vm_compute. reflexivity.
  - intros Heq. apply (f_equal (fun d => d !! "bulklog.logs.buffer")) in Heq.
    vm_compute in Heq. discriminate Heq.
Defined.

(** The time key holds a text that is no time: on a wire that does not
    fail, [Flush] returns the error of [time.Parse] under the prefixes
    [WATCH.] and [parseFlushedAtStr.], writes nothing, and leaves the zero
    time in the field [flushedAt] of the buffer (line 80 assigns both
    results of [time.Parse]). *)
Theorem Flush_unparsable_time `{TimeLayout} `{PipeCodec}
    (now now' : Time) (outerID innerID : UUID) (b : redisBuffer) (r : Redis)
    (s : string) (e : error) :
  faults r = [] ->
  db r !! timeKey b = Some (RString s) ->
  s <> "" ->
  time_Parse s = Err e ->
  exists r',
    Flush now now' outerID innerID (b, r)
    = (Err ("WATCH.parseFlushedAtStr." +:+ e), (set_flushedAt b zero_Time, r'))
    /\ db r' = db r.
Proof.
  intros wire stored nonempty unparsed.
  rewrite Flush_around. destruct r as [d fs log]. simpl in wire, stored.
  subst fs. rewrite Watch_cmd_reliable.
  unfold Flush_fn. rewrite Flush_fn_head_any.
  rewrite (Get_reliable _ _ _ s stored).
  apply String.eqb_neq in nonempty. rewrite nonempty, unparsed.
  cbn [fst snd]. rewrite Unwatch_reliable. eexists. split; reflexivity.
Qed.

Lemma Flush_unparsable_time_witness :
  let r := mkRedis {[ "bulklog.logs.flushedAt" := RString "yesterday" ]} [] [] in
  exists r',
    @Flush RFC3339.layout Wire.codec Sample.t0 Sample.t0 Sample.id1 Sample.id2
      (Sample.buffer, r)
    = (Err ("WATCH.parseFlushedAtStr." +:+ RFC3339.ErrParse),
       (set_flushedAt Sample.buffer zero_Time, r'))
    /\ db r' = db r.
Proof.
  intros r.
  apply (@Flush_unparsable_time RFC3339.layout Wire.codec Sample.t0 Sample.t0
           Sample.id1 Sample.id2 Sample.buffer r "yesterday" RFC3339.ErrParse).
  - reflexivity.
  - reflexivity.
  - discriminate.
  - reflexivity.
Defined.

(** ** Append on the wire *)

(** [Append] sends one command at most, an RPUSH of the base64 text to the
    buffer key of its buffer; a document that gob does not encode costs no
    round trip, and the error is the one of gob, as it is. *)
Theorem Append_on_the_wire `{Gob} (b : redisBuffer) (doc : Document)
    (r : Redis) :
  match gob_Encode doc with
  | Err e => Append b doc r = (Err e, r)
  | Ok buf =>
      sent (snd (Append b doc r))
      = sent r ++ [RPUSH (bufferKey b) (EncodeToString buf)]
      /\ faults (snd (Append b doc r)) = tl (faults r)
  end.
Proof.
  unfold Append. destruct (gob_Encode doc) as [buf|e]; [|reflexivity].
  unfold wrap, bind, ret, RPush, roundtrip.
  destruct (faults r) as [|[e|] fs]; cbn [fst snd sent faults tl];
    try (split; reflexivity);
    destruct (db r !! bufferKey b) as [[s|l|h]|]; split; reflexivity.
Qed.

(** What [Append] stores can be decoded: after a call that returns no
    error the buffer list ends in a text that [StdEncoding.DecodeString]
    turns back into the very bytes gob wrote for the document, whatever
    those bytes are; the documents stored before stay in front of it. *)
Theorem Append_stores_decodable `{Gob} (b : redisBuffer) (doc : Document)
    (r r' : Redis) :
  Append b doc r = (Ok tt, r') ->
  exists l docBase64,
    buffer_docs b r = Some l
    /\ buffer_docs b r' = Some (l ++ [docBase64])
    /\ DecodeString docBase64 = gob_Encode doc.
Proof.
  intros Ha. destruct (Append_ok _ _ _ _ Ha) as (buf & l & Henc & Hl & Hdb).
  exists l, (EncodeToString buf). split; [exact Hl|]. split.
  - unfold buffer_docs. rewrite Hdb. now rewrite lookup_insert_eq.
  - rewrite Henc. apply DecodeString_EncodeToString.
Qed.

Lemma Append_stores_decodable_witness :
  exists l docBase64,
    buffer_docs Sample.buffer Sample.store = Some l
    /\ buffer_docs Sample.buffer
         (snd (@Append Tagged.gob Sample.buffer Sample3.doc1 Sample.store))
       = Some (l ++ [docBase64])
    /\ DecodeString docBase64 = Tagged.encode Sample3.doc1.
Proof.
  apply (@Append_stores_decodable Tagged.gob Sample.buffer Sample3.doc1
           Sample.store). reflexivity.
Defined.

(** ** The flusher task *)

Lemma Time_Sub_mono (t t' u : Time) : t <= t' -> Time_Sub t u <= Time_Sub t' u.
Proof.
  unfold Time_Sub, minDuration, maxDuration. intros Hle.
  destruct (Z.ltb_spec (t - u) (- 2 ^ 63)), (Z.ltb_spec (t' - u) (- 2 ^ 63));
    destruct (Z.ltb_spec (2 ^ 63 - 1) (t - u)),
             (Z.ltb_spec (2 ^ 63 - 1) (t' - u)); lia.
Qed.

Lemma Time_Sub_max (t u : Time) : Time_Sub t u <= maxDuration.
Proof.
  unfold Time_Sub, minDuration, maxDuration.
  destruct (Z.ltb_spec (t - u) (- 2 ^ 63)); [lia|].
  destruct (Z.ltb_spec (2 ^ 63 - 1) (t - u)); lia.
Qed.

Lemma int64_small (z : Z) : - 2 ^ 63 <= z < 2 ^ 63 -> int64 z = z.
Proof.
  intros Hz. unfold int64. rewrite Z.mod_small; lia.
Qed.

Section FlusherFacts.
Context `{TimeLayout} `{PipeCodec}.

(** Without a time key [Flush] fails on every wire, and nothing changes but
    the log of the wire. *)
Lemma Flush_absent_any now now' outerID innerID b r :
  db r !! timeKey b = None ->
  exists e r', Flush now now' outerID innerID (b, r) = (Err e, (b, r'))
               /\ db r' = db r.
Proof.
  intros Hk. rewrite Flush_around.
  pose proof (Watch_cmd_db (Flush_watched b outerID) r) as Hw.
  destruct (Watch_cmd (Flush_watched b outerID) r) as [[[]|e] r1];
    cbn [fst snd] in Hw.
  - destruct (Flush_fn_absent now now' innerID b r1) as (e & r2 & -> & Hd);
      [now rewrite Hw|].
    cbn [fst snd]. eexists _, _. split; [reflexivity|].
    rewrite Unwatch_db. congruence.
  - eexists _, _. split; [reflexivity|]. rewrite Unwatch_db. exact Hw.
Qed.

End FlusherFacts.

(** On a store without the time key the flusher cannot be closed once a
    flush is due. [Flush] fails before it writes, so the time key stays
    absent and the field [flushedAt] stays as it is; under a clock that has
    reached [c0], a flush period past [flushedAt], and does not go back
    behind it, every turn of the loop calls [Flush], prints its error and
    waits one second, and no turn reaches the [select] that receives from
    [close]: whatever was sent there, the task is still running, and the
    keyspace is as it was. *)
Theorem Flusher_without_time_key `{TimeLayout} `{PipeCodec}
    (c0 : Time) (turns : list turn) (b : redisBuffer) (r : Redis) :
  db r !! timeKey b = None ->
  0 <= FlushPeriod (collection b) <= maxDuration ->
  FlushPeriod (collection b) <= Time_Sub c0 (flushedAt b) ->
  Forall (fun t => c0 <= clock t) turns ->
  exists acts r',
    Flusher turns (b, r) = (Running, acts, (b, r'))
    /\ db r' = db r
    /\ length acts = (2 * length turns)%nat
    /\ Forall (fun a => match a with
                        | NewTimer d => d = time_Second
                        | Printf _ => True
                        end) acts.
Proof.
  intros Hk Hfp Hdue Hclock. revert r Hk.
  induction Hclock as [|t turns Ht _ IH]; intros r Hk.
  - exists [], r. repeat split. constructor.
  - cbn [Flusher fst].
    pose proof (Time_Sub_mono c0 (clock t) (flushedAt b) Ht) as Hm.
    pose proof (Time_Sub_max (clock t) (flushedAt b)) as Hx.
    unfold maxDuration in *.
    rewrite int64_small by lia.
    destruct (Z.leb_spec (FlushPeriod (collection b)
                          - Time_Sub (clock t) (flushedAt b)) 0); [|lia].
    destruct (Flush_absent_any (flush_now t) (flush_since t) (flush_outerID t)
                (flush_innerID t) b r Hk) as (e & r1 & -> & Hd).
    destruct (IH r1) as (acts & r' & -> & Hd' & Hlen & Hall);
      [now rewrite Hd|].
    eexists _, r'. split; [reflexivity|]. split; [congruence|].
    split; [simpl; lia|].
    repeat constructor. exact Hall.
Qed.

Lemma Flusher_without_time_key_witness :
  exists acts r',
    @Flusher RFC3339.layout Wire.codec Sample6.turns
      (Sample.buffer, Sample.empty_store)
    = (Running, acts, (Sample.buffer, r'))
    /\ db r' = db Sample.empty_store
    /\ length acts = 4%nat
    /\ Forall (fun a => match a with
                        | NewTimer d => d = time_Second
                        | Printf _ => True
                        end) acts.
Proof.
  apply (@Flusher_without_time_key RFC3339.layout Wire.codec
           (Sample.t0 + 10 * Sample.second) Sample6.turns Sample.buffer
           Sample.empty_store).
  - reflexivity.
  - vm_compute. split; discriminate.
  - vm_compute. discriminate.
  - repeat constructor; vm_compute; discriminate.
Defined.

(** The flusher takes the time of the last flush from the store. When its
    own field [flushedAt] says a flush is due but the time key holds a later
    time [t], less than a period old (another instance has flushed), the
    call of [Flush] writes nothing and adopts [t]; the next turn waits for
    what is left of the period counted from [t], and a value sent on [close]
    during that wait ends the task; the keyspace is as it was. *)
Theorem Flusher_adopts_stored_time `{TimeLayout} `{PipeCodec}
    (t1 t2 : turn) (b : redisBuffer) (r : Redis) (s : string) (t : Time) :
  faults r = [] ->
  db r !! timeKey b = Some (RString s) ->
  stored_flushedAt b s = Ok t ->
  int64 (FlushPeriod (collection b) - Time_Sub (clock t1) (flushedAt b)) <= 0 ->
  Time_Sub (flush_since t1) t < FlushPeriod (collection b) ->
  0 < int64 (FlushPeriod (collection b) - Time_Sub (clock t2) t) ->
  received t2 = Closed ->
  exists r',
    Flusher [t1; t2] (b, r)
    = (Returned,
       [NewTimer (int64 (FlushPeriod (collection b) - Time_Sub (clock t2) t))],
       (set_flushedAt b t, r'))
    /\ db r' = db r.
Proof.
  intros wire stored parsed due early wait closed.
  cbn [Flusher fst].
  destruct (Z.leb_spec (int64 (FlushPeriod (collection b)
                               - Time_Sub (clock t1) (flushedAt b))) 0); [|lia].
  destruct (Flush_too_early (flush_now t1) (flush_since t1) (flush_outerID t1)
              (flush_innerID t1) b r s t wire stored parsed early)
    as (r' & -> & Hd).
  cbn [fst flushedAt set_flushedAt collection].
  destruct (Z.leb_spec (int64 (FlushPeriod (collection b)
                               - Time_Sub (clock t2) t)) 0); [lia|].
  rewrite closed. exists r'. split; [reflexivity|exact Hd].
Qed.

Lemma Flusher_adopts_stored_time_witness :
  exists r',
    @Flusher RFC3339.layout Wire.codec Sample7.turns
      (Sample7.stale_buffer, Sample.store)
    = (Returned, [NewTimer (6 * Sample.second)],
       (set_flushedAt Sample7.stale_buffer Sample.t0, r'))
    /\ db r' = db Sample.store.
Proof.
  apply (@Flusher_adopts_stored_time RFC3339.layout Wire.codec
           (mkTurn (Sample.t0 + 3 * Sample.second) Fired
              (Sample.t0 + 3 * Sample.second) (Sample.t0 + 3 * Sample.second)
              Sample.id1 Sample.id2)
           (mkTurn (Sample.t0 + 4 * Sample.second) Closed
              (Sample.t0 + 4 * Sample.second) (Sample.t0 + 4 * Sample.second)
              Sample.id2 Sample.id1)
           Sample7.stale_buffer Sample.store (RFC3339.Format Sample.t0)
           Sample.t0).
  - reflexivity.
  - reflexivity.
  - reflexivity.
  - vm_compute. discriminate.
  - vm_compute. reflexivity.
  - vm_compute. reflexivity.
  - reflexivity.
Defined.

(** ** NewDocument: the entries of the body *)

Section MapGet.
Context {A : Type}.
Import GoJSON.

Lemma compare_Lt_neq (a b : string) : String.compare a b = Lt -> a <> b.
Proof. intros Hc ->. now rewrite compare_refl in Hc. Qed.

Lemma compare_Gt_neq (a b : string) : String.compare a b = Gt -> a <> b.
Proof. intros Hc ->. now rewrite compare_refl in Hc. Qed.

Lemma map_get_map_set (k k' : string) (v : A) (m : list (string * A)) :
  map_get k' (map_set k v m) = if String.eqb k' k then Some v else map_get k' m.
Proof.
  induction m as [|[k0 v0] m IH]; simpl; [reflexivity|].
  destruct (String.compare k k0) eqn:Hc; simpl.
  - apply String.compare_eq_iff in Hc. subst k0.
    now destruct (String.eqb k' k).
  - reflexivity.
  - rewrite IH. destruct (String.eqb_spec k' k0) as [->|Hne]; [|reflexivity].
    apply compare_Gt_neq in Hc.
    destruct (String.eqb_spec k0 k) as [Heq|_]; [now elim Hc|reflexivity].
Qed.

Lemma map_get_snoc {B : Type} (k k0 : string) (x : B) (l : list (string * B)) :
  map_get k (l ++ [(k0, x)])
  = match map_get k l with
    | Some y => Some y
    | None => if String.eqb k k0 then Some x else None
    end.
Proof.
  induction l as [|[k1 y] l IH]; simpl; [reflexivity|].
  destruct (String.eqb k k1); [reflexivity|exact IH].
Qed.

Lemma sorted_NoDup (m : list (string * A)) :
  WellFormed.sorted m -> NoDup (map fst m).
Proof.
  unfold WellFormed.sorted. induction 1 as [|kv m Hs IH Hall]; simpl.
  - constructor.
  - constructor; [|exact IH]. intros Hin. apply list_elem_of_In in Hin.
    apply in_map_iff in Hin. destruct Hin as (kv' & Heq & Hin).
    rewrite Forall_forall in Hall.
    apply list_elem_of_In in Hin. specialize (Hall _ Hin).
    apply compare_Lt_neq in Hall. congruence.
Qed.

End MapGet.

Section LastMember.
Context `{Float64}.
Import JSON GoJSON.

Lemma decode_members_get (ms : list (string * json)) :
  forall acc m,
    decode_members decode_value ms acc = Some m ->
    forall k,
      map_get k m = match last_member k ms with
                    | Some j => decode_value j
                    | None => map_get k acc
                    end.
Proof.
  unfold last_member.
  induction ms as [|[k0 j] ms IH]; intros acc m Hd k.
  - injection Hd as <-. reflexivity.
  - cbn [decode_members fst snd] in Hd.
    destruct (decode_value j) as [v|] eqn:Hv; [|discriminate].
    rewrite (IH _ _ Hd k). cbn [rev]. rewrite map_get_snoc.
    destruct (map_get k (rev ms)) as [j'|]; [reflexivity|].
    rewrite map_get_map_set.
    destruct (String.eqb_spec k k0) as [->|Hne]; [now rewrite Hv|].
    reflexivity.
Qed.

End LastMember.

(** Of the members of the input object written under one key, the last
    decides: for every key, the value of the map that [NewDocument] encodes
    into the [Body] is the value decoded from the member written last under
    that key, the map has no entry for a key the object does not have, and
    no key twice. *)
Theorem NewDocument_last_member_wins `{Float64} (now : Time) (id : UUID)
    (collectionName schemaName : string) (body : list byte) (doc : Document)
    (ms : list (string * JSON.json)) :
  NewDocument now id collectionName schemaName body = Ok doc ->
  JSON.parse (string_of_list_byte body) = Some (JSON.JObject ms) ->
  exists m,
    GoJSON.Marshal (Some m) = Ok (string_of_list_byte (Body doc))
    /\ NoDup (map fst m)
    /\ forall k,
         map_get k m = match last_member k ms with
                       | Some j => GoJSON.decode_value j
                       | None => None
                       end.
Proof.
  unfold NewDocument.
  destruct (GoJSON.Unmarshal (string_of_list_byte body)) as [bodyMap|e] eqn:Hu;
    [|discriminate].
  destruct (GoJSON.Marshal bodyMap) as [text|e] eqn:Hm; [|discriminate].
  intros Hdoc Hp. injection Hdoc as <-. cbn [Body].
  rewrite string_of_list_byte_of_string.
  destruct bodyMap as [m|].
  - destruct (Unmarshal_object _ _ Hu) as (ms' & Hp' & Hd & Hs & _).
    assert (ms' = ms) as -> by congruence.
    exists m. split; [exact Hm|]. split; [now apply sorted_NoDup|].
    intros k. rewrite (decode_members_get ms [] m Hd k).
    now destruct (last_member k ms).
  - unfold GoJSON.Unmarshal in Hu. rewrite Hp in Hu.
    destruct (GoJSON.decode_value (JSON.JObject ms)) as [[| | | | |m]|];
      discriminate.
Qed.

Lemma NewDocument_last_member_wins_witness :
  exists m,
    @GoJSON.Marshal Binary64.codec (Some m)
    = Ok (string_of_list_byte Sample4.canonical)
    /\ NoDup (map fst m)
    /\ forall k,
         map_get k m = match last_member k Sample8.members with
                       | Some j => GoJSON.decode_value j
                       | None => None
                       end.
Proof.
  apply (@NewDocument_last_member_wins Binary64.codec Sample.t0 Sample.id1
           "logs" "access" Sample4.loose
           (mkDocument Sample.id1 Sample.t0 "logs" "access" Sample4.canonical)).
  - reflexivity.
  - reflexivity.
Defined.

(** The [Body] of a document is the text [null], or the text of a map
    written without white space, whose entries stand in the strictly
    growing order of their keys, in the map and in every map within it, and
    whose strings and keys are well-formed UTF-8 whatever bytes the input
    had in them. *)
Theorem NewDocument_body_form `{Float64} (now : Time) (id : UUID)
    (collectionName schemaName : string) (body : list byte) (doc : Document) :
  NewDocument now id collectionName schemaName body = Ok doc ->
  Body doc = list_byte_of_string "null"
  \/ exists m,
       WellFormed.value_ok (GoJSON.VObject m)
       /\ Body doc
          = list_byte_of_string
              ("{" +:+ GoJSON.join ","
                         (map (fun kv => GoJSON.quote (fst kv) +:+ ":"
                                         +:+ GoJSON.encode_value (snd kv)) m)
                   +:+ "}").
Proof.
  unfold NewDocument.
  destruct (GoJSON.Unmarshal (string_of_list_byte body)) as [[m|]|e] eqn:Hu;
    [| |discriminate]; cbn [GoJSON.Marshal]; intros Hdoc;
    injection Hdoc as <-; cbn [Body].
  - right. destruct (Unmarshal_object _ _ Hu) as (ms & _ & _ & Hok).
    exists m. split; [exact Hok|reflexivity].
  - now left.
Qed.

Lemma NewDocument_body_form_witness :
  Sample4.canonical = list_byte_of_string "null"
  \/ exists m,
       @WellFormed.value_ok Binary64.codec (GoJSON.VObject m)
       /\ Sample4.canonical
          = list_byte_of_string
              ("{" +:+ GoJSON.join ","
                         (map (fun kv => GoJSON.quote (fst kv) +:+ ":"
                                         +:+ GoJSON.encode_value (snd kv)) m)
                   +:+ "}").
Proof.
  apply (@NewDocument_body_form Binary64.codec Sample.t0 Sample.id1
           "logs" "access" Sample4.loose
           (mkDocument Sample.id1 Sample.t0 "logs" "access" Sample4.canonical)).
  reflexivity.
Defined.

(** ** What a failing [Flush] leaves in the buffer *)

Section FlushFailure.
Context `{TimeLayout} `{PipeCodec}.
Variables (now now' : Time) (outerID innerID : UUID).

(** From line 88 on the field of the buffer is assigned last: on an error
    the buffer is as it was. *)
Lemma Flush_due_err (m1 m2 m3 : M Redis unit) (b : redisBuffer) (r r' : Redis)
    (b' : redisBuffer) (e : error) :
  (length <- wrap "(LLEN bufferKey)." (tx (LLen (bufferKey b))) ;;
   if length =? 0 then
     wrap ("(SET collection.flushedAt " +:+ time_Format now +:+ ").")
          (tx (Set_ (timeKey b) (time_Format now))) ;;;
     assign_flushedAt now
   else
     wrap "newRedisPipe." (tx m1) ;;;
     wrap "addRedisPipeConsumers." (tx m2) ;;;
     wrap "flushBuffer2RedisPipe." (tx m3) ;;;
     wrap ("(SET collection.flushedAt " +:+ time_Format now +:+ ").")
          (tx (Set_ (timeKey b) (time_Format now))) ;;;
     assign_flushedAt now)%go (b, r) = (Err e, (b', r')) ->
  b' = b.
Proof.
  unfold bind, wrap, tx, assign_flushedAt. cbn [fst snd].
  destruct (LLen (bufferKey b) r) as [[n|e0] r1]; cbn [fst snd];
    [|intros Heq; now injection Heq as _ <- _].
  destruct (n =? 0); cbn [fst snd].
  - destruct (Set_ (timeKey b) (time_Format now) r1) as [[[]|e0] r2];
      cbn [fst snd]; [discriminate|].
    intros Heq. now injection Heq as _ <- _.
  - destruct (m1 r1) as [[[]|e0] r2]; cbn [fst snd];
      [|intros Heq; now injection Heq as _ <- _].
    destruct (m2 r2) as [[[]|e0] r3]; cbn [fst snd];
      [|intros Heq; now injection Heq as _ <- _].
    destruct (m3 r3) as [[[]|e0] r4]; cbn [fst snd];
      [|intros Heq; now injection Heq as _ <- _].
    destruct (Set_ (timeKey b) (time_Format now) r4) as [[[]|e0] r5];
      cbn [fst snd]; [discriminate|].
    intros Heq. now injection Heq as _ <- _.
Qed.

Lemma Flush_fn_err (b b' : redisBuffer) (r r' : Redis) (e : error) :
  Flush_fn now now' innerID (b, r) = (Err e, (b', r')) ->
  b' = b
  \/ b' = set_flushedAt b zero_Time
  \/ exists s t, db r !! timeKey b = Some (RString s)
                 /\ time_Parse s = Ok t /\ b' = set_flushedAt b t.
Proof.
  unfold Flush_fn. rewrite Flush_fn_head_any.
  destruct (Get (timeKey b) r) as [[s|e0] r1] eqn:Hg;
    [|intros Heq; injection Heq as _ <- _; now left].
  destruct (Get_ok _ _ _ _ Hg) as [Hk Hd].
  destruct (String.eqb s "").
  - unfold bind at 1, this at 1. cbn [fst snd].
    destruct (Time_Sub now' (flushedAt b) <? FlushPeriod (collection b));
      [discriminate|].
    intros Heq. apply Flush_due_err in Heq. now left.
  - destruct (time_Parse s) as [t|e0] eqn:Hp;
      [|intros Heq; injection Heq as _ <- _; right; now left].
    unfold bind at 1, this at 1.
    cbn [fst snd flushedAt set_flushedAt collection consumers bufferKey
         timeKey pipeKeyPrefix].
    destruct (Time_Sub now' t <? FlushPeriod (collection b)); [discriminate|].
    intros Heq. apply (Flush_due_err _ _ _ (set_flushedAt b t)) in Heq.
    right; right. exists s, t. auto.
Qed.

End FlushFailure.

(** A call of [Flush] that returns an error does not move the field
    [flushedAt] of the buffer to the time of the call, on any wire: the
    buffer is as it was, or its field holds the time read from the time key
    (line 80), the zero time where the text at the key was no time. The
    time of the call is assigned on lines 100 and 122 only, after the last
    command has succeeded. *)
Theorem Flush_error_keeps_time `{TimeLayout} `{PipeCodec}
    (now now' : Time) (outerID innerID : UUID) (b b' : redisBuffer)
    (r r' : Redis) (e : error) :
  Flush now now' outerID innerID (b, r) = (Err e, (b', r')) ->
  b' = b
  \/ b' = set_flushedAt b zero_Time
  \/ exists s t, db r !! timeKey b = Some (RString s)
                 /\ time_Parse s = Ok t /\ b' = set_flushedAt b t.
Proof.
  rewrite Flush_around.
  pose proof (Watch_cmd_db (Flush_watched b outerID) r) as Hw.
  destruct (Watch_cmd (Flush_watched b outerID) r) as [[[]|e0] r1];
    cbn [fst snd] in Hw.
  - destruct (Flush_fn now now' innerID (b, r1)) as [[[]|e0] [b2 r2]] eqn:Hf;
      [discriminate|].
    cbn [fst snd]. intros Heq. injection Heq as _ <- _.
    destruct (Flush_fn_err now now' innerID _ _ _ _ _ Hf)
      as [->|[->|(s & t & Hk & Hp & ->)]]; auto.
    right; right. exists s, t. rewrite <- Hw. auto.
  - intros Heq. injection Heq as _ <- _. now left.
Qed.

Lemma Flush_error_keeps_time_witness :
  let s' := snd (@Flush RFC3339.layout Wire.codec
                   (Sample.t0 + 11 * Sample.second)
                   (Sample.t0 + 11 * Sample.second) Sample.id1 Sample.id2
                   (Sample7.stale_buffer,
                    mkRedis (db Sample.store) [None; None; Some "EOF"] [])) in
  fst s' = Sample7.stale_buffer
  \/ fst s' = set_flushedAt Sample7.stale_buffer zero_Time
  \/ exists s t, db Sample.store !! timeKey Sample7.stale_buffer
                 = Some (RString s)
                 /\ RFC3339.Parse s = Ok t
                 /\ fst s' = set_flushedAt Sample7.stale_buffer t.
Proof.
  intros s'.
  apply (@Flush_error_keeps_time RFC3339.layout Wire.codec
           (Sample.t0 + 11 * Sample.second) (Sample.t0 + 11 * Sample.second)
           Sample.id1 Sample.id2 Sample7.stale_buffer (fst s')
           (mkRedis (db Sample.store) [None; None; Some "EOF"] []) (snd s')
           "WATCH.(LLEN bufferKey).EOF").
  vm_compute. reflexivity.
Defined.

(** ** Two calls of [Flush] *)

(** The flush of an empty buffer on a wire that does not fail, with the
    wire it leaves. *)
Lemma Flush_empty_wire `{TimeLayout} `{PipeCodec}
    (now now' : Time) (outerID innerID : UUID) (b : redisBuffer) (r : Redis)
    (s : string) (t : Time) :
  faults r = [] ->
  db r !! timeKey b = Some (RString s) ->
  stored_flushedAt b s = Ok t ->
  FlushPeriod (collection b) <= Time_Sub now' t ->
  buffer_empty b r ->
  exists r',
    Flush now now' outerID innerID (b, r) = (Ok tt, (set_flushedAt b now, r'))
    /\ db r' = <[timeKey b := RString (time_Format now)]> (db r)
    /\ faults r' = [].
Proof.
  intros wire stored parsed due empty.
  erewrite Flush_unfold by eassumption. unfold Flush_fn.
  erewrite Flush_fn_head by eassumption.
  unfold bind at 1, this at 1.
  cbn [fst snd flushedAt set_flushedAt collection consumers bufferKey timeKey
       pipeKeyPrefix].
  apply Z.ltb_ge in due. rewrite due.
  unfold bind at 1, wrap at 1, tx at 1. cbn [fst snd bufferKey].
  assert (Hlen : forall log,
            LLen (bufferKey b) (mkRedis (db r) [] log)
            = (Ok 0, mkRedis (db r) [] (log ++ [LLEN (bufferKey b)]))).
  { intros log. destruct empty as [He|He].
    - now apply LLen_reliable_absent.
    - now rewrite (LLen_reliable _ _ _ [] He). }
  rewrite Hlen. cbn [Z.eqb].
  unfold bind at 1, wrap at 1, tx at 1. cbn [fst snd timeKey].
  rewrite Set_reliable. unfold assign_flushedAt, tx. cbn [fst snd].
  rewrite Unwatch_reliable. eexists. repeat split.
Qed.

(** After a flush of an empty buffer a second call within the period does
    nothing: on a wire that does not fail, where the layout reads back the
    time it wrote, the first call records [now] and the second, whose clock
    reads less than a period past [now], returns no error and leaves the
    keyspace and the buffer as the first call left them. *)
Theorem Flush_twice `{TimeLayout} `{PipeCodec}
    (now now' now2 now2' : Time) (o1 i1 o2 i2 : UUID) (b : redisBuffer)
    (r : Redis) (s : string) (t : Time) :
  faults r = [] ->
  db r !! timeKey b = Some (RString s) ->
  stored_flushedAt b s = Ok t ->
  FlushPeriod (collection b) <= Time_Sub now' t ->
  buffer_empty b r ->
  time_Parse (time_Format now) = Ok now ->
  Time_Sub now2' now < FlushPeriod (collection b) ->
  exists r1 r2,
    Flush now now' o1 i1 (b, r) = (Ok tt, (set_flushedAt b now, r1))
    /\ Flush now2 now2' o2 i2 (set_flushedAt b now, r1)
       = (Ok tt, (set_flushedAt b now, r2))
    /\ db r2 = db r1
    /\ db r1 !! timeKey b = Some (RString (time_Format now)).
Proof.
  intros wire stored parsed due empty reads early.
  destruct (Flush_empty_wire now now' o1 i1 b r s t wire stored parsed due empty)
    as (r1 & HF & Hdb & Hw1).
  assert (Hk1 : db r1 !! timeKey (set_flushedAt b now)
                = Some (RString (time_Format now))).
  { rewrite Hdb. apply lookup_insert_eq. }
  assert (Hp1 : stored_flushedAt (set_flushedAt b now) (time_Format now)
                = Ok now).
  { unfold stored_flushedAt. now destruct (String.eqb (time_Format now) ""). }
  destruct (Flush_too_early now2 now2' o2 i2 (set_flushedAt b now) r1
              (time_Format now) now Hw1 Hk1 Hp1 early) as (r2 & HF2 & Hdb2).
  exists r1, r2. split; [exact HF|]. split; [exact HF2|].
  split; [exact Hdb2|exact Hk1].
Qed.

Lemma Flush_twice_witness :
  let now := Sample.t0 + 11 * Sample.second in
  let now2 := Sample.t0 + 12 * Sample.second in
  exists r1 r2,
    @Flush RFC3339.layout Wire.codec now now Sample.id1 Sample.id2
      (Sample.buffer, Sample.idle_store)
    = (Ok tt, (set_flushedAt Sample.buffer now, r1))
    /\ @Flush RFC3339.layout Wire.codec now2 now2 Sample.id2 Sample.id1
         (set_flushedAt Sample.buffer now, r1)
       = (Ok tt, (set_flushedAt Sample.buffer now, r2))
    /\ db r2 = db r1
    /\ db r1 !! timeKey Sample.buffer = Some (RString (RFC3339.Format now)).
Proof.
  intros now now2.
  apply (@Flush_twice RFC3339.layout Wire.codec now now now2 now2
           Sample.id1 Sample.id2 Sample.id2 Sample.id1 Sample.buffer
           Sample.idle_store (RFC3339.Format Sample.t0) Sample.t0).
  - reflexivity.
  - reflexivity.
  - reflexivity.
  - vm_compute. discriminate.
  - left. reflexivity.
  - vm_compute. reflexivity.
  - vm_compute. reflexivity.
Defined.
